(** * SpellCast: rate limiter, peer sessions and message distribution

    A shallow embedding of three components of the SpellCast peer-to-peer
    messaging application:

    - [RateLimiter]  (src/rate-limiter.js),
    - [PeerManager]  (peer-manager.js: session table, connection quality),
    - [TweetManager] (src/tweet-manager.js: message log, recipient sets,
      unsent queues).

    Conventions of the embedding.

    - JavaScript numbers are modelled by [Z]: clock readings ([Date.now()]),
      lengths and counters are integers.  The embedding is exact on safe
      integers; fractions, NaN and the infinities are not modelled.
    - A JavaScript object used as a dictionary ([tweetRecipients],
      [unsentTweets], the limiter's [Map]) is a [gmap] with string keys.
    - Arrays are lists: [filter] is [filter], [push] appends at the
      end, [includes] is membership.
    - Every handler runs to completion on the single event loop, so a
      handler is a function from the state before to the state after.
      The clock is read once per handler and passed in as [now].  The
      two [await]s on the media manager (in [createTweet] and
      [deleteTweet]) and the timers of [sendSelectiveTweets] are points
      at which other handlers can run in the program; here [createTweet]
      starts after its [await], [deleteTweet] is one step (the call with
      handlers running during its [await] is [deleteTweet_with_await]),
      and the statements about a batch hold for whatever state its timer
      finds.
    - Property lookups on the dictionaries find own properties only.
      The dictionaries are made as [{}], so in the program a key that
      names a property of [Object.prototype] ([Js.inherited], for
      instance [constructor]) reads as the inherited value where the
      dictionary has no own entry, and the handler that goes on to call
      [includes] or [filter] on it throws.  The embedding is exact for
      the other keys; a statement that would not hold of the program at
      an inherited key assumes of the keys it meets that they are not
      inherited.
    - [conn.send] either returns or throws; whether it throws is an input
      of the model (a boolean next to the connection).  The list [outbox]
      records the successful sends, [saves] the persistence calls. *)

From Stdlib Require Import ZArith Lia DecimalString HexadecimalString.
From stdpp Require Import gmap strings list fin_maps sorting.

Local Open Scope Z_scope.

(** ** Rate limiter (src/rate-limiter.js) *)

Module RateLimiter.

(** The limit record kept per key: [{attempts, blocked, blockedUntil}]. *)
Record record := mkRecord {
  attempts : list Z;
  blocked : bool;
  blockedUntil : Z
}.

(** The record created for a key that is seen for the first time. *)
Definition empty_record : record := mkRecord [] false 0.

(** [`${actionType}:${identifier}`] *)
Definition key (actionType identifier : string) : string :=
  actionType +:+ ":" +:+ identifier.

(** The attempts that survive the clean-up
    [attempts.filter(timestamp => now - timestamp < timeWindowMs)]. *)
Definition in_window (timeWindowMs now : Z) (r : record) : list Z :=
  List.filter (fun timestamp => now - timestamp <? timeWindowMs) (attempts r).

(** [record.blocked && now < record.blockedUntil] *)
Definition cooling (r : record) (now : Z) : bool :=
  blocked r && (now <? blockedUntil r).

(** The body of [isAllowed] once the record of the key is at hand. *)
Definition check (r : record) (maxAttempts timeWindowMs now : Z)
  : bool * record :=
  if cooling r now then (false, r)
  else
    let kept := in_window timeWindowMs now r in
    if Z.of_nat (length kept) >=? maxAttempts
    then (false, mkRecord kept true (now + timeWindowMs * 2))
    else (true, mkRecord (kept ++ [now]) false (blockedUntil r)).

(** The record of a key as [isAllowed] sees it: a missing key is
    initialised with [empty_record]. *)
Definition record_of (limits : gmap string record)
           (actionType identifier : string) : record :=
  default empty_record (limits !! key actionType identifier).

(** [isAllowed(actionType, identifier, maxAttempts, timeWindowMs)];
    the record is mutated in place, which is an [insert] here. *)
Definition isAllowed (limits : gmap string record)
           (actionType identifier : string)
           (maxAttempts timeWindowMs now : Z)
  : bool * gmap string record :=
  let r := record_of limits actionType identifier in
  let res := check r maxAttempts timeWindowMs now in
  (res.1, <[key actionType identifier := res.2]> limits).

(** [getTimeUntilAllowed(actionType, identifier)] *)
Definition getTimeUntilAllowed (limits : gmap string record)
           (actionType identifier : string) (now : Z) : Z :=
  match limits !! key actionType identifier with
  | None => 0
  | Some r => if cooling r now then blockedUntil r - now else 0
  end.

(** [reset(actionType, identifier)] *)
Definition reset (limits : gmap string record)
           (actionType identifier : string) : gmap string record :=
  delete (key actionType identifier) limits.

(** A sequence of [isAllowed] calls for one key, at the given clock
    readings; returns the answers in order and the final table. *)
Fixpoint calls (limits : gmap string record) (actionType identifier : string)
         (maxAttempts timeWindowMs : Z) (times : list Z)
  : list bool * gmap string record :=
  match times with
  | [] => ([], limits)
  | now :: rest =>
      let res := isAllowed limits actionType identifier
                           maxAttempts timeWindowMs now in
      let tl := calls res.2 actionType identifier
                      maxAttempts timeWindowMs rest in
      (res.1 :: tl.1, tl.2)
  end.

End RateLimiter.

(** ** JavaScript values and objects, as far as the handlers inspect them *)

Module Js.

(** The primitive values a message field can hold. *)
Inductive value :=
| Undefined
| Null
| Bool (b : bool)
| Num (n : Z)
| Str (s : string).

#[global] Instance value_eq_dec : EqDecision value.
Proof. solve_decision. Defined.

(** [!!v] *)
Definition truthy (v : value) : bool :=
  match v with
  | Undefined | Null => false
  | Bool b => b
  | Num n => negb (n =? 0)
  | Str s => negb (String.eqb s "")
  end.

(** [typeof v === 'string'] and [typeof v === 'number'] *)
Definition is_string (v : value) : bool :=
  match v with Str _ => true | _ => false end.

Definition is_number (v : value) : bool :=
  match v with Num _ => true | _ => false end.

(** The number held by a value known to be a number. *)
Definition num_of (v : value) : Z :=
  match v with Num n => n | _ => 0 end.

(** [v.length > n] and [v.length === 0]; [length] is [undefined] on a
    value that is not a string, and both comparisons are then false.
    Strings are ASCII here, so that bytes and UTF-16 code units agree. *)
Definition length_gt (v : value) (n : Z) : bool :=
  match v with Str s => Z.of_nat (String.length s) >? n | _ => false end.

Definition length_is_0 (v : value) : bool :=
  match v with Str s => Z.of_nat (String.length s) =? 0 | _ => false end.

(** [String(v)], as a template literal or a property key does it. *)
Definition to_string (v : value) : string :=
  match v with
  | Undefined => "undefined"
  | Null => "null"
  | Bool true => "true"
  | Bool false => "false"
  | Num n => DecimalString.NilZero.string_of_int (Z.to_int n)
  | Str s => s
  end.

(** [a || b] *)
Definition or (a b : value) : value := if truthy a then a else b.

(** An object: its own properties in insertion order. *)
Definition object := list (string * value).

(** [o.k]; a missing property reads as [undefined]. *)
Fixpoint get (o : object) (k : string) : value :=
  match o with
  | [] => Undefined
  | (k', v) :: rest => if String.eqb k' k then v else get rest k
  end.

(** [Object.keys(o)] *)
Definition keys (o : object) : list string := map fst o.

(** The names of the properties that every object inherits from
    [Object.prototype]. *)
Definition OBJECT_PROTOTYPE_PROPS : list string :=
  ["constructor"; "hasOwnProperty"; "isPrototypeOf"; "propertyIsEnumerable";
   "toLocaleString"; "toString"; "valueOf"; "__proto__";
   "__defineGetter__"; "__defineSetter__";
   "__lookupGetter__"; "__lookupSetter__"].

(** [k] names an inherited property: [d[k]] is truthy on every
    dictionary [d] made as [{}], also when [d] has no entry for [k]. *)
Definition inherited (k : string) : bool :=
  bool_decide (k ∈ OBJECT_PROTOTYPE_PROPS).

(** [Math.ceil(a / b)] on integers, for a positive [b]. *)
Definition ceil_div (a b : Z) : Z := - ((- a) / b).

End Js.

(** What a call either returns or throws. *)
Inductive outcome (A : Type) :=
| Returned (a : A)
| Threw (message : string).
Arguments Returned {A} a.
Arguments Threw {A} message.

(** ** Peer sessions (peer-manager.js) *)

Module PeerManager.

(** A data connection: [conn_id] tells two connection objects apart,
    [peer] is [conn.peer]. *)
Record conn := mkConn {
  conn_id : nat;
  peer : string
}.

#[global] Instance conn_eq_dec : EqDecision conn.
Proof. solve_decision. Defined.

(** The fields of the manager that the session handlers touch, and three
    ghost fields for the transport: [installed] holds the connections on
    which [handleConnection] installed its [open]/[close]/[error]
    handlers, [pending] those of them that have not opened yet, [closed]
    the connections on which [close()] was called. *)
Record state := mkState {
  connections : list conn;
  handshakeCompleted : gset string;
  peerStatus : gmap string string;
  lastSeen : gmap string Z;
  peerConnectionQuality : gmap string string;
  limits : gmap string RateLimiter.record;
  installed : list conn;
  pending : list conn;
  closed : list conn
}.

Definition initial : state :=
  mkState [] ∅ ∅ ∅ ∅ ∅ [] [] [].

Definition CONNECT_MAX_ATTEMPTS : Z := 5.
Definition CONNECT_TIME_WINDOW_MS : Z := 60000.

(** [this.connections.findIndex(c => c.peer === peerId)] *)
Fixpoint findIndex (peerId : string) (cs : list conn) : option nat :=
  match cs with
  | [] => None
  | c :: rest =>
      if String.eqb (peer c) peerId then Some O
      else option_map S (findIndex peerId rest)
  end.

(** [cs.splice(i, 1)] *)
Definition splice1 (i : nat) (cs : list conn) : list conn :=
  firstn i cs ++ skipn (S i) cs.

(** [handleConnection(conn)], the synchronous part: the duplicate check
    and the installation of the handlers.  [probe_ok] tells whether
    [existingConn.send({type: 'ping'})] returns ([true]) or throws. *)
Definition handleConnection (st : state) (c : conn) (probe_ok : bool) : state :=
  match findIndex (peer c) (connections st) with
  | Some i =>
      if probe_ok then
        (* conn.close(); return *)
        mkState (connections st) (handshakeCompleted st) (peerStatus st)
                (lastSeen st) (peerConnectionQuality st) (limits st)
                (installed st) (pending st) (closed st ++ [c])
      else
        (* existingConn.close(); splice; handshakeCompleted.delete *)
        mkState (splice1 i (connections st))
                (handshakeCompleted st ∖ {[peer c]}) (peerStatus st)
                (lastSeen st) (peerConnectionQuality st) (limits st)
                (installed st ++ [c]) (pending st ++ [c])
                (closed st ++ option_list (connections st !! i))
  | None =>
      mkState (connections st) (handshakeCompleted st) (peerStatus st)
              (lastSeen st) (peerConnectionQuality st) (limits st)
              (installed st ++ [c]) (pending st ++ [c]) (closed st)
  end.

(** The [conn.on('open', ...)] handler; it runs once, for a connection
    whose handlers were installed. *)
Definition on_open (st : state) (c : conn) (now : Z) : state :=
  if bool_decide (c ∈ pending st) then
    mkState (connections st ++ [c]) (handshakeCompleted st)
            (<[peer c := "online"]> (peerStatus st))
            (<[peer c := now]> (lastSeen st))
            (<[peer c := "good"]> (peerConnectionQuality st))
            (limits st) (installed st)
            (filter (fun p => p ≠ c) (pending st)) (closed st)
  else st.

(** The [conn.on('close', ...)] handler. *)
Definition on_close (st : state) (c : conn) (now : Z) : state :=
  if bool_decide (c ∈ installed st) then
    mkState (filter (fun c' => peer c' ≠ peer c) (connections st))
            (handshakeCompleted st ∖ {[peer c]})
            (<[peer c := "offline"]> (peerStatus st))
            (<[peer c := now]> (lastSeen st))
            (peerConnectionQuality st) (limits st) (installed st)
            (filter (fun p => p ≠ c) (pending st)) (closed st)
  else st.

(** The [conn.on('error', ...)] handler. *)
Definition on_error (st : state) (c : conn) (now : Z) : state :=
  if bool_decide (c ∈ installed st) then
    mkState (filter (fun c' => peer c' ≠ peer c) (connections st))
            (handshakeCompleted st ∖ {[peer c]})
            (<[peer c := "error"]> (peerStatus st))
            (<[peer c := now]> (lastSeen st))
            (peerConnectionQuality st) (limits st) (installed st)
            (filter (fun p => p ≠ c) (pending st)) (closed st)
  else st.

(** [`Rate limit exceeded. Please wait ${secondsUntil} seconds before
    trying again.`] *)
Definition rate_limit_error (secondsUntil : Z) : string :=
  "Rate limit exceeded. Please wait " +:+ Js.to_string (Js.Num secondsUntil)
    +:+ " seconds before trying again.".

(** [connectToPeer(peerId)].  [self] is [this.userManager.peerId],
    [peer_present] tells whether [this.peer] is set, [fresh] identifies the
    connection object that [this.peer.connect(peerId)] would return, and
    [probe_ok], [probe_ok'] are the outcomes of the liveness probes of
    [connectToPeer] and of the nested [handleConnection]. *)
Definition connectToPeer (st : state) (self : string) (peer_present : bool)
           (peerId : string) (fresh : nat) (probe_ok probe_ok' : bool)
           (now : Z) : outcome conn * state :=
  if String.eqb peerId "" then (Threw "Peer ID is required", st)
  else if negb peer_present then (Threw "No active peer connection", st)
  else if String.eqb peerId self then (Threw "Cannot connect to yourself", st)
  else
    let res := RateLimiter.isAllowed (limits st) "connect" self
                 CONNECT_MAX_ATTEMPTS CONNECT_TIME_WINDOW_MS now in
    let st1 := mkState (connections st) (handshakeCompleted st) (peerStatus st)
                 (lastSeen st) (peerConnectionQuality st) res.2
                 (installed st) (pending st) (closed st) in
    if negb res.1 then
      let timeUntil :=
        RateLimiter.getTimeUntilAllowed res.2 "connect" self now in
      let secondsUntil := Js.ceil_div timeUntil 1000 in
      (Threw (rate_limit_error secondsUntil), st1)
    else
      let c := mkConn fresh peerId in
      match findIndex peerId (connections st1) with
      | Some i =>
          match connections st1 !! i with
          | Some existingConn =>
              if probe_ok then (Returned existingConn, st1)
              else
                let st2 := mkState (splice1 i (connections st1))
                             (handshakeCompleted st1 ∖ {[peerId]})
                             (peerStatus st1) (lastSeen st1)
                             (peerConnectionQuality st1) (limits st1)
                             (installed st1) (pending st1)
                             (closed st1 ++ [existingConn]) in
                (Returned c, handleConnection st2 c probe_ok')
          | None => (Returned c, handleConnection st1 c probe_ok')
          end
      | None => (Returned c, handleConnection st1 c probe_ok')
      end.

(** The number of entries of the quality table that hold the value [q]:
    the loop over [Object.values(this.peerConnectionQuality)]. *)
Definition qualityCount (table : gmap string string) (q : string) : nat :=
  length (filter (fun kv => kv.2 = q) (map_to_list table)).

(** The number of live sessions whose entry in the quality table holds
    the value [q]. *)
Definition sessionCount (st : state) (q : string) : nat :=
  length (filter (fun c => peerConnectionQuality st !! peer c = Some q)
                 (connections st)).

(** The quality table holds the entries of the live sessions and no
    others; there is one session per peer. *)
Definition table_of_sessions (st : state) : Prop :=
  NoDup (peer <$> connections st) /\
  dom (peerConnectionQuality st) = list_to_set (peer <$> connections st).

(** [updateConnectionQualityIndicator()]: the value stored in
    [this.connectionQuality].  [link_up] is
    [this.peer && !this.peer.disconnected]. *)
Definition updateConnectionQualityIndicator (link_up : bool) (st : state)
  : string :=
  if negb link_up then "offline"
  else if Nat.eqb (length (connections st)) 0 then "unknown"
  else
    let table := peerConnectionQuality st in
    let half := Nat.div (length (connections st)) 2 in
    if Nat.ltb 0 (qualityCount table "error") then "error"
    else if Nat.ltb half (qualityCount table "poor") then "poor"
    else if Nat.ltb half (qualityCount table "medium") then "medium"
    else if Nat.ltb 0 (qualityCount table "good") then "good"
    else "unknown".

(** The transport events that drive the session table. *)
Inductive event :=
| Incoming (c : conn) (probe_ok : bool)
| Outgoing (self peerId : string) (fresh : nat) (probe_ok probe_ok' : bool)
           (now : Z)
| Opened (c : conn) (now : Z)
| Closed (c : conn) (now : Z)
| Errored (c : conn) (now : Z).

Definition step (st : state) (e : event) : state :=
  match e with
  | Incoming c probe_ok => handleConnection st c probe_ok
  | Outgoing self peerId fresh probe_ok probe_ok' now =>
      (connectToPeer st self true peerId fresh probe_ok probe_ok' now).2
  | Opened c now => on_open st c now
  | Closed c now => on_close st c now
  | Errored c now => on_error st c now
  end.

Definition run (st : state) (es : list event) : state :=
  fold_left step es st.

End PeerManager.

(** ** Message distribution (src/tweet-manager.js) *)

Module TweetManager.

Definition MAX_TWEET_LENGTH : Z := 1000.
Definition MAX_TWEETS_STORAGE : nat := 1000.
Definition VALID_TWEET_PROPS : list string :=
  ["id"; "username"; "content"; "timestamp";
   "mediaId"; "mediaThumbnail"; "mediaType"].
Definition MESSAGE_MAX_COUNT : Z := 10.
Definition MESSAGE_TIME_WINDOW_MS : Z := 60000.
Definition BATCH_SIZE : nat := 20.

(** What goes over a connection: the payloads tagged ['tweet'],
    ['tweet_ack'], ['all_tweets'] and ['bulk_tweet_ack']. *)
Inductive message :=
| Tweet (tweetData : Js.object)
| TweetAck (id : Js.value)
| AllTweets (batch : list Js.object)
| BulkTweetAck (ids : list Js.value).

(** Calls of [saveTweets()] and [saveMessageDistributionState()]. *)
Inductive save_call := SaveTweets | SaveDistribution.

(** The state of the manager.  [outbox] lists, oldest first, the payloads
    handed to [conn.send] without a throw, with the peer of the
    connection; [saves] lists the persistence calls.  The two tables hold
    the own entries of [this.tweetRecipients] (keyed by tweet id) and of
    [this.unsentTweets] (keyed by peer id); what the handlers below do
    with a key is what the program does when the key is not
    [Js.inherited]. *)
Record state := mkState {
  tweets : list Js.object;
  tweetRecipients : gmap string (list string);
  unsentTweets : gmap string (list Js.value);
  limits : gmap string RateLimiter.record;
  outbox : list (string * message);
  saves : list save_call
}.

Definition initial : state := mkState [] ∅ ∅ ∅ [] [].

Definition set_tweets (st : state) (ts : list Js.object) : state :=
  mkState ts (tweetRecipients st) (unsentTweets st) (limits st)
          (outbox st) (saves st).

Definition set_recipients (st : state) (r : gmap string (list string))
  : state :=
  mkState (tweets st) r (unsentTweets st) (limits st) (outbox st) (saves st).

Definition set_unsent (st : state) (u : gmap string (list Js.value)) : state :=
  mkState (tweets st) (tweetRecipients st) u (limits st) (outbox st) (saves st).

Definition set_limits (st : state) (l : gmap string RateLimiter.record)
  : state :=
  mkState (tweets st) (tweetRecipients st) (unsentTweets st) l
          (outbox st) (saves st).

(** [conn.send(m)] returned, on the connection to [p]. *)
Definition send (st : state) (p : string) (m : message) : state :=
  mkState (tweets st) (tweetRecipients st) (unsentTweets st) (limits st)
          (outbox st ++ [(p, m)]) (saves st).

Definition record_save (st : state) (c : save_call) : state :=
  mkState (tweets st) (tweetRecipients st) (unsentTweets st) (limits st)
          (outbox st) (saves st ++ [c]).

(** [tweet.id] and the key under which [tweetRecipients] files it. *)
Definition tweet_id (t : Js.object) : Js.value := Js.get t "id".
Definition recipients_key (id : Js.value) : string := Js.to_string id.

(** [this.tweets.find(t => t.id === tweetId)] finds something. *)
Definition has_tweet (log : list Js.object) (tweetId : Js.value) : bool :=
  bool_decide (tweetId ∈ tweet_id <$> log).

(** [validateTweet(tweet)] *)
Definition validateTweet (tweet : Js.object) (now : Z) : bool :=
  let content := Js.get tweet "content" in
  let mediaId := Js.get tweet "mediaId" in
  let username := Js.get tweet "username" in
  let timestamp := Js.get tweet "timestamp" in
  if negb (Js.truthy content) && negb (Js.truthy mediaId) then false
  else if negb (Js.truthy username) || negb (Js.truthy timestamp) then false
  else if negb (Js.is_string username)
          || (Js.truthy content && negb (Js.is_string content))
          || negb (Js.is_number timestamp) then false
  else if Js.truthy content
          && (Js.length_is_0 content || Js.length_gt content MAX_TWEET_LENGTH)
       then false
  else if Js.truthy mediaId
          && (negb (Js.is_string mediaId)
              || negb (Js.is_string (Js.get tweet "mediaThumbnail"))
              || negb (Js.is_string (Js.get tweet "mediaType")))
       then false
  else if negb (forallb (fun prop => bool_decide (prop ∈ VALID_TWEET_PROPS))
                        (Js.keys tweet))
       then false
  else if Js.num_of timestamp >? now + 60000 then false
  else true.

(** [ToInt32], the result type of [<<] and [&]. *)
Definition to_int32 (z : Z) : Z := (z + 2 ^ 31) mod 2 ^ 32 - 2 ^ 31.

(** The loop of [generateUniqueId]:
    [hash = ((hash << 5) - hash) + char; hash = hash & hash]. *)
Fixpoint hash_loop (dataToHash : string) (hash : Z) : Z :=
  match dataToHash with
  | EmptyString => hash
  | String char rest =>
      hash_loop rest
        (to_int32 (to_int32 (hash * 32) - hash + Z.of_N (Ascii.N_of_ascii char)))
  end.

(** [generateUniqueId(username, content, timestamp)]; [peerId] is
    [this.userManager.peerId]. *)
Definition generateUniqueId (peerId : string)
           (username content timestamp : Js.value) : Js.value :=
  let dataToHash :=
    Js.to_string username +:+ "-" +:+ Js.to_string timestamp +:+ "-"
      +:+ Js.to_string content +:+ "-" +:+ peerId in
  let hash := hash_loop dataToHash 0 in
  let hashHex :=
    HexadecimalString.NilZero.string_of_uint
      (N.to_hex_uint (Z.to_N (hash mod 2 ^ 32))) in
  Js.Str (Js.to_string username +:+ "-" +:+ Js.to_string timestamp
            +:+ "-" +:+ hashHex).

(** [tweet.timestamp] of a stored tweet. *)
Definition timestamp_of (t : Js.object) : Z := Js.num_of (Js.get t "timestamp").

(** [sortTweets()]: [Array.prototype.sort] with the comparator
    [(a, b) => b.timestamp - a.timestamp], newest first and stable. *)
Fixpoint insert_tweet (t : Js.object) (sorted : list Js.object)
  : list Js.object :=
  match sorted with
  | [] => [t]
  | u :: rest =>
      if timestamp_of u >? timestamp_of t then u :: insert_tweet t rest
      else t :: u :: rest
  end.

Definition sortTweets (log : list Js.object) : list Js.object :=
  foldr insert_tweet [] log.

(** The clean-up of one evicted tweet in [addTweet]. *)
Definition forget (st : state) (removedTweet : Js.object) : state :=
  set_unsent
    (set_recipients st
       (delete (recipients_key (tweet_id removedTweet)) (tweetRecipients st)))
    (filter (fun id => id ≠ tweet_id removedTweet) <$> unsentTweets st).

(** [saveTweets()], as far as it runs before its first [await]. *)
Definition saveTweets (st : state) : state :=
  let st1 :=
    if Nat.ltb MAX_TWEETS_STORAGE (length (tweets st))
    then set_tweets st (firstn MAX_TWEETS_STORAGE (tweets st))
    else st in
  record_save st1 SaveTweets.

(** The tweet object that [addTweet] builds:
    [{username, content, timestamp, id: tweetId}], and the three media
    properties when [mediaId] is truthy. *)
Definition new_tweet (username content timestamp tweetId
                      mediaId mediaThumbnail mediaType : Js.value) : Js.object :=
  [("username", username); ("content", content);
   ("timestamp", timestamp); ("id", tweetId)]
  ++ (if Js.truthy mediaId
      then [("mediaId", mediaId); ("mediaThumbnail", mediaThumbnail);
            ("mediaType", mediaType)]
      else []).

(** [addTweet(username, content, timestamp, recipients, id, mediaId,
    mediaThumbnail, mediaType)]; [recipients] is [None] for a value that
    is not an array. *)
Definition addTweet (st : state) (now : Z) (peerId : string)
           (username content timestamp : Js.value)
           (recipients : option (list string))
           (id mediaId mediaThumbnail mediaType : Js.value)
  : outcome Js.value * state :=
  let tweetId :=
    Js.or id (generateUniqueId peerId username content timestamp) in
  if has_tweet (tweets st) tweetId then (Returned tweetId, st)
  else
    let tweet :=
      new_tweet username content timestamp tweetId
                mediaId mediaThumbnail mediaType in
    if negb (validateTweet tweet now) then (Threw "Invalid tweet data", st)
    else
      let k := recipients_key tweetId in
      let recs1 :=
        match tweetRecipients st !! k with
        | Some _ => tweetRecipients st
        | None => <[k := []]> (tweetRecipients st)
        end in
      let recs2 :=
        match recipients with
        | Some l => <[k := l]> recs1
        | None => recs1
        end in
      let sorted := sortTweets (tweets st ++ [tweet]) in
      let st1 := set_recipients (set_tweets st sorted) recs2 in
      let st2 :=
        if Nat.ltb MAX_TWEETS_STORAGE (length sorted)
        then fold_left forget (skipn MAX_TWEETS_STORAGE sorted)
               (set_tweets st1 (firstn MAX_TWEETS_STORAGE sorted))
        else st1 in
      (Returned tweetId, saveTweets st2).

(** [deleteTweet(tweetId)] as one step: what the call does when no other
    handler runs while it awaits [mediaManager.deleteMedia], and always
    when the tweet has no media (there is no [await] then).  The media
    deletion has no effect on the state of this manager.
    [TweetManagerRuns.deleteTweet_with_await] is the call with handlers
    running during the [await]. *)
Definition deleteTweet (st : state) (tweetId : Js.value) : bool * state :=
  let initialLength := length (tweets st) in
  let st1 :=
    set_tweets st (filter (fun tweet => tweet_id tweet ≠ tweetId) (tweets st)) in
  if negb (Nat.eqb (length (tweets st1)) initialLength)
  then (true, saveTweets st1)
  else (false, st1).

(** One round of the loop of [broadcastTweet]: the connection to [c.1],
    on which [send] returns ([c.2 = true]) or throws.  Exact when the
    peer id [c.1] is not [Js.inherited]; for such a peer id the lookup
    [this.unsentTweets[conn.peer]] yields the inherited value and the
    round throws. *)
Definition broadcast_to (tweetData : Js.object) (tweetId : Js.value)
           (st : state) (c : string * bool) : state :=
  if c.2 then
    let st1 := send st c.1 (Tweet tweetData) in
    match tweetRecipients st1 !! recipients_key tweetId with
    | Some l =>
        if bool_decide (c.1 ∈ l) then st1
        else
          let st2 :=
            set_recipients st1
              (<[recipients_key tweetId := l ++ [c.1]]> (tweetRecipients st1)) in
          match unsentTweets st2 !! c.1 with
          | Some q =>
              set_unsent st2
                (<[c.1 := filter (fun id => id ≠ tweetId) q]> (unsentTweets st2))
          | None => st2
          end
    | None => st1
    end
  else
    let q := default [] (unsentTweets st !! c.1) in
    set_unsent st
      (<[c.1 := if bool_decide (tweetId ∈ q) then q else q ++ [tweetId]]>
         (unsentTweets st)).

(** [broadcastTweet(content, timestamp, tweetId, mediaId, mediaThumbnail,
    mediaType)]; [username] is [this.userManager.getUserInfo().username]
    and [conns] is [this.peerManager.getAllConnections()]. *)
Definition broadcastTweet (st : state) (username : Js.value)
           (conns : list (string * bool))
           (content timestamp tweetId mediaId mediaThumbnail mediaType : Js.value)
  : state :=
  let tweetData :=
    [("type", Js.Str "tweet"); ("username", username); ("content", content);
     ("timestamp", timestamp); ("id", tweetId)]
    ++ (if Js.truthy mediaId
        then [("mediaId", mediaId); ("mediaThumbnail", mediaThumbnail);
              ("mediaType", mediaType)]
        else []) in
  record_save (fold_left (broadcast_to tweetData tweetId) conns st)
              SaveDistribution.

(** The second argument of [createTweet] and what
    [mediaManager.processAndStoreImage] makes of it: it throws an error
    with the message [cause], or it resolves to the media data. *)
Inductive mediaFile :=
| NoFile
| FileRejected (cause : string)
| FileStored (mediaId mediaThumbnail mediaType : Js.value).

(** What [createTweet] hands to [addTweet] and [broadcastTweet] as media
    properties. *)
Definition media_of (file : mediaFile) : Js.value * Js.value * Js.value :=
  match file with
  | FileStored a b c => (a, b, c)
  | _ => (Js.Null, Js.Null, Js.Null)
  end.

(** [`Tweet content exceeds maximum length of ${this.MAX_TWEET_LENGTH}
    characters`] *)
Definition too_long_error : string :=
  "Tweet content exceeds maximum length of "
    +:+ Js.to_string (Js.Num MAX_TWEET_LENGTH) +:+ " characters".

(** [`Failed to process media: ${error.message}`] *)
Definition media_error (cause : string) : string :=
  "Failed to process media: " +:+ cause.

(** [`Message rate limit exceeded. Please wait ${secondsUntil} seconds
    before sending more messages.`] *)
Definition message_rate_limit_error (secondsUntil : Z) : string :=
  "Message rate limit exceeded. Please wait "
    +:+ Js.to_string (Js.Num secondsUntil)
    +:+ " seconds before sending more messages.".

(** [createTweet(content, mediaFile)].  [username] and [peerId] come from
    the user manager, [conns] is the session table of the peer manager
    (with the outcome of a send on each session). *)
Definition createTweet (st : state) (username : Js.value) (peerId : string)
           (conns : list (string * bool)) (now : Z)
           (content : Js.value) (file : mediaFile)
  : outcome Js.value * state :=
  if negb (Js.truthy content)
     && match file with NoFile => true | _ => false end
  then (Threw "Tweet must have content or media", st)
  else if Js.truthy content && Js.length_gt content MAX_TWEET_LENGTH
  then (Threw too_long_error, st)
  else
    match file with
    | FileRejected cause => (Threw (media_error cause), st)
    | _ =>
        let media := media_of file in
        let res :=
          RateLimiter.isAllowed (limits st) "message" peerId
            MESSAGE_MAX_COUNT MESSAGE_TIME_WINDOW_MS now in
        let st1 := set_limits st res.2 in
        if negb res.1 then
          let timeUntil :=
            RateLimiter.getTimeUntilAllowed res.2 "message" peerId now in
          let secondsUntil := Js.ceil_div timeUntil 1000 in
          (Threw (message_rate_limit_error secondsUntil), st1)
        else
          let timestamp := Js.Num now in
          let connectedPeerIds := map fst conns in
          let tweetId := generateUniqueId peerId username content timestamp in
          match addTweet st1 now peerId username content timestamp
                  (Some connectedPeerIds) tweetId
                  media.1.1 media.1.2 media.2 with
          | (Threw m, st2) => (Threw m, st2)
          | (Returned _, st2) =>
              (Returned tweetId,
               broadcastTweet st2 username conns content timestamp tweetId
                 media.1.1 media.1.2 media.2)
          end
    end.

(** "Mark as received from this peer": the two [if]s that follow
    [addTweet] in [handleTweetMessage] and [handleAllTweetsMessage].
    Exact when the key of [tweetId] is not [Js.inherited]; for such a key
    without an own entry the second [if] throws. *)
Definition mark_received (st : state) (tweetId : Js.value) (p : string)
  : state :=
  let k := recipients_key tweetId in
  let l := default [] (tweetRecipients st !! k) in
  set_recipients st
    (<[k := if bool_decide (p ∈ l) then l else l ++ [p]]> (tweetRecipients st)).

(** [handleTweetMessage(data, conn)]: [p] is [conn.peer], [peerId] the
    local node id, and [send_ok] tells whether [conn.send] of the
    acknowledgment returns or throws (the [catch] then swallows it). *)
Definition handleTweetMessage (st : state) (now : Z) (peerId : string)
           (data : Js.object) (p : string) (send_ok : bool) : state :=
  let username := Js.get data "username" in
  let content := Js.get data "content" in
  let timestamp := Js.get data "timestamp" in
  let tweetData :=
    [("username", username); ("content", content);
     ("timestamp", timestamp); ("id", Js.get data "id")] in
  if negb (validateTweet tweetData now) then st
  else
    let tweetId :=
      Js.or (Js.get data "id")
            (generateUniqueId peerId username content timestamp) in
    match addTweet st now peerId username content timestamp None tweetId
            Js.Null Js.Null Js.Null with
    | (Threw _, st1) => st1
    | (Returned _, st1) =>
        let st2 := mark_received st1 tweetId p in
        if send_ok
        then record_save (send st2 p (TweetAck tweetId)) SaveDistribution
        else st2
    end.

(** What [handleTweetMessage] demands of a message, spelled out: the
    author name is a non-empty string, the content a non-empty string of
    at most [MAX_TWEET_LENGTH] characters, and the creation time a number
    other than zero and no more than 60 s ahead of the clock. *)
Definition acceptable (data : Js.object) (now : Z) : bool :=
  match Js.get data "username", Js.get data "content",
        Js.get data "timestamp" with
  | Js.Str username, Js.Str content, Js.Num timestamp =>
      negb (String.eqb username "") && negb (String.eqb content "")
      && (Z.of_nat (String.length content) <=? MAX_TWEET_LENGTH)
      && negb (timestamp =? 0) && (timestamp <=? now + 60000)
  | _, _, _ => false
  end.

(** [handleTweetAckMessage(data, conn)]; [id] is [data.id]. *)
Definition handleTweetAckMessage (st : state) (id : Js.value) (p : string)
  : state :=
  match tweetRecipients st !! recipients_key id with
  | Some l =>
      if Js.truthy id && negb (bool_decide (p ∈ l)) then
        let st1 :=
          set_recipients st
            (<[recipients_key id := l ++ [p]]> (tweetRecipients st)) in
        let st2 :=
          match unsentTweets st1 !! p with
          | Some q =>
              set_unsent st1
                (<[p := filter (fun id' => id' ≠ id) q]> (unsentTweets st1))
          | None => st1
          end in
        record_save st2 SaveDistribution
      else st
  | None => st
  end.

(** One round of the loop of [handleBulkTweetAckMessage].  Exact when
    neither the key of [tweetId] nor [p] is [Js.inherited]; otherwise the
    round throws and the loop ends there. *)
Definition bulk_ack_one (p : string) (st : state) (tweetId : Js.value)
  : state :=
  let st1 :=
    match tweetRecipients st !! recipients_key tweetId with
    | Some l =>
        if bool_decide (p ∈ l) then st
        else set_recipients st
               (<[recipients_key tweetId := l ++ [p]]> (tweetRecipients st))
    | None => st
    end in
  match unsentTweets st1 !! p with
  | Some q =>
      set_unsent st1
        (<[p := filter (fun id => id ≠ tweetId) q]> (unsentTweets st1))
  | None => st1
  end.

(** [handleBulkTweetAckMessage(data, conn)]; [ids] is [data.ids], [None]
    when it is not an array. *)
Definition handleBulkTweetAckMessage (st : state)
           (ids : option (list Js.value)) (p : string) : state :=
  match ids with
  | Some l => record_save (fold_left (bulk_ack_one p) l st) SaveDistribution
  | None => st
  end.

(** One round of the loop of [handleAllTweetsMessage]; the accumulator
    carries [validTweetIds]. *)
Definition all_tweets_one (now : Z) (peerId p : string)
           (acc : state * list Js.value) (tweet : Js.object)
  : state * list Js.value :=
  if negb (validateTweet tweet now) then acc
  else
    let username := Js.get tweet "username" in
    let content := Js.get tweet "content" in
    let timestamp := Js.get tweet "timestamp" in
    let tweetId :=
      Js.or (Js.get tweet "id")
            (generateUniqueId peerId username content timestamp) in
    match addTweet acc.1 now peerId username content timestamp None tweetId
            Js.Null Js.Null Js.Null with
    | (Threw _, st1) => (st1, acc.2)
    | (Returned _, st1) => (mark_received st1 tweetId p, acc.2 ++ [tweetId])
    end.

(** [handleAllTweetsMessage(data, conn)]; [batch] is [data.tweets], [None]
    when it is not an array. *)
Definition handleAllTweetsMessage (st : state) (now : Z) (peerId : string)
           (batch : option (list Js.object)) (p : string) (send_ok : bool)
  : state :=
  match batch with
  | None => st
  | Some l =>
      let res := fold_left (all_tweets_one now peerId p) l (st, []) in
      match res.2 with
      | [] => record_save res.1 SaveDistribution
      | _ :: _ =>
          if send_ok
          then record_save (send res.1 p (BulkTweetAck res.2)) SaveDistribution
          else res.1
      end
  end.

(** [!this.tweetRecipients[id] || !this.tweetRecipients[id].includes(p)].
    Exact when the key of [id] is not [Js.inherited]; for such a key
    without an own entry the test throws. *)
Definition not_confirmed (st : state) (p : string) (id : Js.value) : bool :=
  match tweetRecipients st !! recipients_key id with
  | Some l => negb (bool_decide (p ∈ l))
  | None => true
  end.

(** The loop shared by the connection callback and by
    [sendSelectiveTweets]: append to [ids] the id of every stored tweet
    that is not confirmed for [p] and not in [ids] yet. *)
Definition collect_unconfirmed (st : state) (p : string)
           (ids : list Js.value) : list Js.value :=
  fold_left
    (fun acc tweet =>
       if not_confirmed st p (tweet_id tweet)
          && negb (bool_decide (tweet_id tweet ∈ acc))
       then acc ++ [tweet_id tweet]
       else acc)
    (tweets st) ids.

(** The callback registered with [peerManager.onPeerConnected], up to the
    [setTimeout]. *)
Definition onPeerConnected (st : state) (p : string) : state :=
  let q := default [] (unsentTweets st !! p) in
  set_unsent st (<[p := collect_unconfirmed st p q]> (unsentTweets st)).

(** [unsentTweetIds] of [sendSelectiveTweets]. *)
Definition unsentTweetIds (st : state) (p : string) : list Js.value :=
  collect_unconfirmed st p (default [] (unsentTweets st !! p)).

(** [tweetsToSend] of [sendSelectiveTweets]. *)
Definition tweetsToSend (st : state) (p : string) : list Js.object :=
  filter (fun tweet => tweet_id tweet ∈ unsentTweetIds st p) (tweets st).

(** The loop [for (i = 0; i < l.length; i += size) push(l.slice(i, i + size))]. *)
Fixpoint slices (fuel size : nat) (l : list Js.object) : list (list Js.object) :=
  match fuel, l with
  | S fuel', _ :: _ => firstn size l :: slices fuel' size (skipn size l)
  | _, _ => []
  end.

Definition batches (l : list Js.object) : list (list Js.object) :=
  slices (length l) BATCH_SIZE l.

(** The body of the timer callback of one batch:  [send_ok] tells whether
    [conn.send(batchData)] returns or throws. *)
Definition mark_sent (p : string) (st : state) (tweet : Js.object) : state :=
  let st1 := mark_received st (tweet_id tweet) p in
  match unsentTweets st1 !! p with
  | Some q =>
      set_unsent st1
        (<[p := filter (fun id => id ≠ tweet_id tweet) q]> (unsentTweets st1))
  | None => st1
  end.

Definition keep_unsent (p : string) (st : state) (tweet : Js.object) : state :=
  let q := default [] (unsentTweets st !! p) in
  set_unsent st
    (<[p := if bool_decide (tweet_id tweet ∈ q) then q
            else q ++ [tweet_id tweet]]> (unsentTweets st)).

Definition send_batch (p : string) (st : state) (batch : list Js.object)
           (send_ok : bool) : state :=
  if send_ok
  then record_save (fold_left (mark_sent p) batch (send st p (AllTweets batch)))
                   SaveDistribution
  else record_save (fold_left (keep_unsent p) batch st) SaveDistribution.

(** The batches, in the order in which their timers fire; [send_ok i]
    is the outcome of the send of batch [i]. *)
Fixpoint send_batches (p : string) (send_ok : nat -> bool) (index : nat)
         (bs : list (list Js.object)) (st : state) : state :=
  match bs with
  | [] => st
  | batch :: rest =>
      send_batches p send_ok (S index) rest
        (send_batch p st batch (send_ok index))
  end.

(** The batches that went out: those whose send returned. *)
Fixpoint delivered (send_ok : nat -> bool) (index : nat)
         (bs : list (list Js.object)) : list (list Js.object) :=
  match bs with
  | [] => []
  | batch :: rest =>
      (if send_ok index then [batch] else [])
      ++ delivered send_ok (S index) rest
  end.

(** [sendSelectiveTweets(conn)] with [p = conn.peer]. *)
Definition sendSelectiveTweets (st : state) (p : string)
           (send_ok : nat -> bool) : state :=
  if Nat.eqb (length (unsentTweetIds st p)) 0 then st
  else send_batches p send_ok 0 (batches (tweetsToSend st p)) st.

(** What the manager does when a session to [p] opens. *)
Definition catch_up (st : state) (p : string) (send_ok : nat -> bool) : state :=
  sendSelectiveTweets (onPeerConnected st p) p send_ok.

(** The recipient set of [tweetId] is settled for the sessions [conns]
    when it is missing or holds the peer of every session: a send that
    returns then changes no bookkeeping in [broadcastTweet]. *)
Definition settled (st : state) (tweetId : Js.value)
           (conns : list (string * bool)) : Prop :=
  tweetRecipients st !! recipients_key tweetId = None \/
  exists l, tweetRecipients st !! recipients_key tweetId = Some l /\
            forall c, c ∈ conns -> c.1 ∈ l.

(** The events that reach the manager. *)
Inductive event :=
| Create (username : Js.value) (peerId : string)
         (conns : list (string * bool)) (now : Z)
         (content : Js.value) (file : mediaFile)
| GotTweet (now : Z) (peerId : string) (data : Js.object) (p : string)
           (send_ok : bool)
| GotAllTweets (now : Z) (peerId : string) (batch : option (list Js.object))
               (p : string) (send_ok : bool)
| GotTweetAck (id : Js.value) (p : string)
| GotBulkTweetAck (ids : option (list Js.value)) (p : string)
| Delete (tweetId : Js.value)
| SessionOpened (p : string) (send_ok : nat -> bool).

Definition step (st : state) (e : event) : state :=
  match e with
  | Create username peerId conns now content file =>
      (createTweet st username peerId conns now content file).2
  | GotTweet now peerId data p send_ok =>
      handleTweetMessage st now peerId data p send_ok
  | GotAllTweets now peerId batch p send_ok =>
      handleAllTweetsMessage st now peerId batch p send_ok
  | GotTweetAck id p => handleTweetAckMessage st id p
  | GotBulkTweetAck ids p => handleBulkTweetAckMessage st ids p
  | Delete tweetId => (deleteTweet st tweetId).2
  | SessionOpened p send_ok => catch_up st p send_ok
  end.

Definition run (st : state) (es : list event) : state :=
  fold_left step es st.

End TweetManager.

(** ** Scenarios used below *)

Module Scenarios.

(** A node with one live session, to bob, of good quality, that also
    remembers carol, whose last measured quality was poor. *)
Definition one_good_session : PeerManager.state :=
  PeerManager.mkState
    [PeerManager.mkConn 1 "bob"] ∅
    (<["bob" := "online"]> (<["carol" := "offline"]> ∅))
    ∅
    (<["bob" := "good"]> (<["carol" := "poor"]> ∅))
    ∅ [PeerManager.mkConn 1 "bob"] [] [].

(** Three sessions, two of them of poor quality, and a quality table
    with just their entries. *)
Definition three_sessions : PeerManager.state :=
  PeerManager.mkState
    [PeerManager.mkConn 1 "a"; PeerManager.mkConn 2 "b";
     PeerManager.mkConn 3 "c"] ∅ ∅ ∅
    (<["a" := "poor"]> (<["b" := "good"]> (<["c" := "poor"]> ∅)))
    ∅ [] [] [].

(** Two connections to bob that are both handled before either has
    opened: the node calls [connectToPeer("bob")] and, before that
    connection opens, a connection from bob comes in. *)
Definition racing_connections : list PeerManager.event :=
  [PeerManager.Outgoing "me" "bob" 1 true true 1000;
   PeerManager.Incoming (PeerManager.mkConn 2 "bob") true;
   PeerManager.Opened (PeerManager.mkConn 1 "bob") 1001;
   PeerManager.Opened (PeerManager.mkConn 2 "bob") 1002].

(** A tweet as it arrives from bob: the payload that [broadcastTweet]
    builds, with its [type] tag. *)
Definition hello : Js.object :=
  [("type", Js.Str "tweet"); ("username", Js.Str "bob");
   ("content", Js.Str "hello"); ("timestamp", Js.Num 1000);
   ("id", Js.Str "bob-1000-5d41402a")].

(** A tweet from bob whose creation time is the number 0. *)
Definition epoch : Js.object :=
  [("type", Js.Str "tweet"); ("username", Js.Str "bob");
   ("content", Js.Str "hello"); ("timestamp", Js.Num 0);
   ("id", Js.Str "bob-0-5d41402a")].

(** The same tweet as [addTweet] stores it, and as an entry of an
    [all_tweets] batch. *)
Definition hello_entry : Js.object :=
  [("username", Js.Str "bob"); ("content", Js.Str "hello");
   ("timestamp", Js.Num 1000); ("id", Js.Str "bob-1000-5d41402a")].

(** Alice writes "hello" at time 1000 while the send on the session to
    bob throws. *)
Definition hello_unsent : list TweetManager.event :=
  [TweetManager.Create (Js.Str "alice") "me" [("bob", false)] 1000
     (Js.Str "hello") TweetManager.NoFile].

(** The id of that tweet. *)
Definition hello_id : Js.value :=
  TweetManager.generateUniqueId "me" (Js.Str "alice") (Js.Str "hello")
                                (Js.Num 1000).


End Scenarios.

(** ** Further operations and the observations used below *)

Module RateLimiterRuns.
Import RateLimiter.

(** The clock readings of the calls of a sequence that [isAllowed]
    answered with [true], in order. *)
Fixpoint granted (limits : gmap string record) (actionType identifier : string)
         (maxAttempts timeWindowMs : Z) (times : list Z) : list Z :=
  match times with
  | [] => []
  | now :: rest =>
      let res := isAllowed limits actionType identifier
                           maxAttempts timeWindowMs now in
      (if res.1 then [now] else [])
      ++ granted res.2 actionType identifier maxAttempts timeWindowMs rest
  end.

(** The clock readings of [hist] that lie in the window of length
    [timeWindowMs] that ends at [t]: [t - timeWindowMs < ts <= t]. *)
Definition in_span (timeWindowMs t : Z) (hist : list Z) : list Z :=
  List.filter (fun ts => (t - timeWindowMs <? ts) && (ts <=? t)) hist.

(** A clock that does not run backwards: every reading is at least
    [clock] and the readings do not decrease. *)
Fixpoint nondecreasing (clock : Z) (times : list Z) : Prop :=
  match times with
  | [] => True
  | now :: rest => clock <= now /\ nondecreasing now rest
  end.

(** [hist] holds the granted calls of a key up to the clock reading
    [clock], and the record [r] of the key has not forgotten any of them
    that a later call can still find in its window. *)
Definition tracks (timeWindowMs clock : Z) (hist : list Z) (r : record)
  : Prop :=
  Forall (fun ts => ts <= clock) hist /\
  forall now, clock <= now ->
    in_window timeWindowMs now r
    = List.filter (fun ts => now - ts <? timeWindowMs) hist.

End RateLimiterRuns.

Module PeerManagerHealth.
Import PeerManager.

(** [INACTIVE_THRESHOLD] of [checkInactivePeers]: thirty minutes. *)
Definition INACTIVE_THRESHOLD : Z := 30 * 60 * 1000.

(** [now - (this.lastSeen[peer] || 0)] does not exceed the threshold. *)
Definition active (st : state) (now : Z) (peerId : string) : Prop :=
  now - default 0 (lastSeen st !! peerId) <= INACTIVE_THRESHOLD.

#[global] Instance active_dec st now peerId : Decision (active st now peerId).
Proof. unfold active. apply _. Defined.





(** The clock readings of the [connectToPeer] calls among [es] that
    returned a connection, when the events reach the manager in state
    [st]. *)
Fixpoint connected_out (st : state) (es : list event) : list Z :=
  match es with
  | [] => []
  | e :: rest =>
      match e with
      | Outgoing self peerId fresh probe_ok probe_ok' now =>
          match (connectToPeer st self true peerId fresh
                   probe_ok probe_ok' now).1 with
          | Returned _ => [now]
          | Threw _ => []
          end
      | _ => []
      end ++ connected_out (step st e) rest
  end.

(** The [connectToPeer] calls among [es] are made by the node [me], at
    clock readings that start at [clock] or later and do not decrease. *)
Fixpoint connects_by (me : string) (clock : Z) (es : list event) : Prop :=
  match es with
  | [] => True
  | Outgoing self _ _ _ _ now :: rest =>
      self = me /\ clock <= now /\ connects_by me now rest
  | _ :: rest => connects_by me clock rest
  end.



(** [st'] differs from [st] in the rate-limiter table only, and there
    only at the connect key of [self]. *)
Definition same_but_connect_limiter (self : string) (st st' : state) : Prop :=
  connections st' = connections st /\
  handshakeCompleted st' = handshakeCompleted st /\
  peerStatus st' = peerStatus st /\
  lastSeen st' = lastSeen st /\
  peerConnectionQuality st' = peerConnectionQuality st /\
  installed st' = installed st /\
  pending st' = pending st /\
  closed st' = closed st /\
  forall k, k ≠ RateLimiter.key "connect" self ->
            limits st' !! k = limits st !! k.

End PeerManagerHealth.

Module TweetManagerStorage.
Import TweetManager.

(** The order that [sortTweets] establishes: no tweet comes before a
    newer one. *)
Definition newest_first (log : list Js.object) : Prop :=
  StronglySorted (fun a b => timestamp_of b <= timestamp_of a) log.

(** The tweets of the log that carry the timestamp [z], in log order. *)
Definition stamped (z : Z) (log : list Js.object) : list Js.object :=
  filter (fun t => timestamp_of t = z) log.

(** What every handler keeps true of the log. *)
Definition log_ok (log : list Js.object) : Prop :=
  (length log <= MAX_TWEETS_STORAGE)%nat /\
  newest_first log /\
  Forall (fun t => Js.truthy (tweet_id t) = true /\
                   exists now, validateTweet t now = true) log.

(** [loadTweets()]; [savedTweets] is what [loadFromStorage] resolved to,
    [None] for a missing entry.  The saved timestamps are numbers. *)
Definition loadTweets (st : state) (savedTweets : option (list Js.object))
  : state :=
  match savedTweets with
  | Some l =>
      set_tweets st
        (sortTweets (if Nat.ltb MAX_TWEETS_STORAGE (length l)
                     then firstn MAX_TWEETS_STORAGE l else l))
  | None => st
  end.

(** [deleteAllTweets()]: the number it returns and the state it leaves.
    The calls of [mediaManager.deleteMedia] have no effect on the state of
    this manager and are left out, and the call is one step, like
    [deleteTweet]. *)
Definition deleteAllTweets (st : state) : nat * state :=
  let deletedCount := length (tweets st) in
  let st1 := set_unsent (set_recipients (set_tweets st []) ∅) ∅ in
  (deletedCount, record_save (saveTweets st1) SaveDistribution).

End TweetManagerStorage.

Module TweetManagerRuns.
Import TweetManager.

(** [deleteTweet(tweetId)] with its [await].  The call reads
    [initialLength] and looks the tweet up; when the tweet has media it
    awaits [mediaManager.deleteMedia], and the handlers of the events
    [during] run before it goes on; then it filters the log and compares
    the length with [initialLength]. *)
Definition deleteTweet_with_await (st : state) (tweetId : Js.value)
           (during : list event) : bool * state :=
  let initialLength := length (tweets st) in
  let tweetToDelete :=
    List.find (fun tweet => bool_decide (tweet_id tweet = tweetId))
              (tweets st) in
  let st0 :=
    match tweetToDelete with
    | Some tweet =>
        if Js.truthy (Js.get tweet "mediaId") then run st during else st
    | None => st
    end in
  let st1 :=
    set_tweets st0
      (filter (fun tweet => tweet_id tweet ≠ tweetId) (tweets st0)) in
  if negb (Nat.eqb (length (tweets st1)) initialLength)
  then (true, saveTweets st1)
  else (false, st1).

(** No tweet of [log] has an id that names an inherited property. *)
Definition own_ids (log : list Js.object) : bool :=
  forallb (fun t => negb (Js.inherited (recipients_key (tweet_id t)))) log.

(** No session of [conns] is to a peer whose id names an inherited
    property. *)
Definition own_peers (conns : list (string * bool)) : bool :=
  forallb (fun c => negb (Js.inherited c.1)) conns.

(** The batches whose send threw, the counterpart of [delivered]. *)
Fixpoint undelivered (send_ok : nat -> bool) (index : nat)
         (bs : list (list Js.object)) : list (list Js.object) :=
  match bs with
  | [] => []
  | batch :: rest =>
      (if send_ok index then [] else [batch])
      ++ undelivered send_ok (S index) rest
  end.

(** The unsent queue of [p], empty when [p] has none. *)
Definition queue (st : state) (p : string) : list Js.value :=
  default [] (unsentTweets st !! p).


(** A tweet object with the four basic properties and no others. *)
Definition plain (t : Js.object) : Prop :=
  Js.keys t = ["username"; "content"; "timestamp"; "id"].

(** The clock readings of the [createTweet] calls among [es] that
    returned, when the events reach the manager in state [st]. *)
Fixpoint created (st : state) (es : list event) : list Z :=
  match es with
  | [] => []
  | e :: rest =>
      match e with
      | Create username peerId conns now content file =>
          match (createTweet st username peerId conns now content file).1 with
          | Returned _ => [now]
          | Threw _ => []
          end
      | _ => []
      end ++ created (step st e) rest
  end.

(** The [createTweet] calls among [es] are made by the node [me], at
    clock readings that start at [clock] or later and do not decrease. *)
Fixpoint creates_by (me : string) (clock : Z) (es : list event) : Prop :=
  match es with
  | [] => True
  | Create _ peerId _ now _ _ :: rest =>
      peerId = me /\ clock <= now /\ creates_by me now rest
  | _ :: rest => creates_by me clock rest
  end.

End TweetManagerRuns.

(** * Properties *)

(** ** Rate limiter *)

Module RateLimiterFacts.
Import RateLimiter.

Lemma isAllowed_record limits a i N W now :
  record_of (isAllowed limits a i N W now).2 a i
  = (check (record_of limits a i) N W now).2.
Proof.
  unfold isAllowed, record_of at 1. cbn [snd].
  by rewrite lookup_insert_eq.
Qed.

Lemma cooling_lookup limits a i now :
  cooling (record_of limits a i) now = true ->
  limits !! key a i = Some (record_of limits a i).
Proof.
  unfold record_of. destruct (limits !! key a i) as [r|]; cbn; [done|].
  unfold cooling; cbn. done.
Qed.

Lemma isAllowed_cooling limits a i N W now :
  cooling (record_of limits a i) now = true ->
  isAllowed limits a i N W now = (false, limits).
Proof.
  intros Hc. unfold isAllowed, check. rewrite Hc. cbn [fst snd].
  f_equal. apply insert_id. by eapply cooling_lookup.
Qed.

Lemma calls_cooling limits a i N W times :
  blocked (record_of limits a i) = true ->
  Forall (fun t => t < blockedUntil (record_of limits a i)) times ->
  calls limits a i N W times = (repeat false (length times), limits).
Proof.
  intros Hb. induction 1 as [|t times Ht _ IH]; [done|].
  cbn [calls length repeat].
  rewrite isAllowed_cooling.
  - cbn [fst snd]. by rewrite IH.
  - unfold cooling. rewrite Hb. cbn. by apply Z.ltb_lt.
Qed.

Lemma in_window_expired W now r :
  Forall (fun ts => W <= now - ts) (attempts r) -> in_window W now r = [].
Proof.
  unfold in_window. induction 1 as [|ts l Hts _ IH]; [done|].
  cbn. destruct (Z.ltb_spec (now - ts) W); [lia|done].
Qed.


Lemma in_window_sub W now r ts :
  In ts (in_window W now r) -> In ts (attempts r).
Proof. unfold in_window. rewrite filter_In. tauto. Qed.

(** With a clock that does not run backwards, no recorded attempt is
    later than the last call. *)
Lemma attempts_not_after_clock limits a i N W now bound :
  Forall (fun ts => ts <= bound) (attempts (record_of limits a i)) ->
  bound <= now ->
  Forall (fun ts => ts <= now)
         (attempts (record_of (isAllowed limits a i N W now).2 a i)).
Proof.
  intros Hall Hle. rewrite isAllowed_record.
  assert (Hold : Forall (fun ts => ts <= now) (attempts (record_of limits a i))).
  { eapply Forall_impl; [exact Hall|]. cbn. intros; lia. }
  assert (Hwin : Forall (fun ts => ts <= now)
                        (in_window W now (record_of limits a i))).
  { rewrite Forall_forall in Hold |- *. intros ts Hin.
    apply Hold. rewrite list_elem_of_In in Hin |- *.
    by eapply in_window_sub. }
  unfold check. destruct (cooling _ _); cbn; [done|].
  destruct (_ >=? _); cbn; [done|].
  apply Forall_app. split; [done|]. constructor; [lia|constructor].
Qed.

(** The three ways through [check]. *)
Lemma check_cases r N W now :
  let recent := Z.of_nat (length (in_window W now r)) in
  (cooling r now = true /\ check r N W now = (false, r)) \/
  (cooling r now = false /\ N <= recent /\
   check r N W now = (false, mkRecord (in_window W now r) true (now + W * 2))) \/
  (cooling r now = false /\ recent < N /\
   check r N W now
   = (true, mkRecord (in_window W now r ++ [now]) false (blockedUntil r))).
Proof.
  intros recent. unfold check. fold recent.
  destruct (cooling r now); [by left|right].
  destruct (Z.geb_spec recent N); [left|right]; (split; [done|split; [lia|done]]).
Qed.

(** C1. Rate limiter, for the key of [(actionType, identifier)] called with
    [maxAttempts = N] and [timeWindowMs = W] at clock reading [now]:
    [isAllowed] answers [true] exactly when no cooldown is running and
    fewer than [N] recorded attempts lie within the last [W]; it then
    records [now].  When no cooldown is running and [N] or more recorded
    attempts lie within the last [W], it answers [false], records nothing
    and starts a cooldown that ends at [now + 2 * W]; every call before
    that instant answers [false] and changes nothing; and with [0 < N],
    [0 <= W] and no attempt recorded after [now], a call at or after
    [now + 2 * W] is allowed again.  While a cooldown is running the call
    answers [false] and changes nothing.  [getTimeUntilAllowed] returns
    the remaining cooldown, and [0] when none is running. *)
Theorem rate_limiter_window_and_cooldown
  (limits : gmap string record) (a i : string) (N W now : Z) :
  let r := record_of limits a i in
  let res := isAllowed limits a i N W now in
  let r' := record_of res.2 a i in
  let recent := Z.of_nat (length (in_window W now r)) in
  (res.1 = true <-> cooling r now = false /\ recent < N) /\
  (res.1 = true ->
     attempts r' = in_window W now r ++ [now] /\ cooling r' now = false) /\
  (cooling r now = false -> N <= recent ->
     res.1 = false /\
     attempts r' = in_window W now r /\
     blocked r' = true /\ blockedUntil r' = now + 2 * W /\
     (forall times, Forall (fun t => t < now + 2 * W) times ->
        calls res.2 a i N W times = (repeat false (length times), res.2)) /\
     (forall t, 0 < N -> 0 <= W ->
        Forall (fun ts => ts <= now) (attempts r) ->
        now + 2 * W <= t ->
        (isAllowed res.2 a i N W t).1 = true)) /\
  (cooling r now = true -> res = (false, limits)) /\
  getTimeUntilAllowed limits a i now
  = (if cooling r now then blockedUntil r - now else 0).
Proof.
  intros r res r' recent.
  assert (Hr' : r' = (check r N W now).2) by apply isAllowed_record.
  assert (Hres : res.1 = (check r N W now).1) by reflexivity.
  assert (Hget : getTimeUntilAllowed limits a i now
                 = (if cooling r now then blockedUntil r - now else 0)).
  { unfold getTimeUntilAllowed. subst r. unfold record_of.
    destruct (limits !! key a i) as [r0|]; cbn; done. }
  destruct (check_cases r N W now) as [[Hc Hk]|[(Hc & Hn & Hk)|(Hc & Hn & Hk)]];
    fold recent in Hn || idtac;
    rewrite Hk in Hr', Hres; cbn [fst snd] in Hr', Hres;
    rewrite Hc, Hres, Hr'; rewrite Hc in Hget.
  - (* a cooldown is running *)
    split; [split; [done|intros [? _]; done]|].
    split; [done|]. split; [done|]. split; [|done].
    intros _. by apply isAllowed_cooling.
  - (* the blocking call *)
    split; [split; [done|intros [_ ?]; lia]|].
    split; [done|]. split; [|split; [done|done]].
    intros _ _. cbn [attempts blocked blockedUntil].
    split; [done|]. split; [done|]. split; [done|]. split; [lia|]. split.
    + intros times Htimes.
      apply calls_cooling; fold res; fold r'; rewrite Hr'; cbn; [done|].
      eapply Forall_impl; [exact Htimes|]. cbn. intros; lia.
    + intros t HN HW Hold Ht.
      unfold isAllowed at 1. cbn [fst]. fold res. fold r'. rewrite Hr'.
      unfold check, cooling. cbn [blocked blockedUntil].
      destruct (Z.ltb_spec t (now + W * 2)); [lia|]. cbn [andb].
      rewrite in_window_expired; cbn [attempts length].
      * change (Z.of_nat 0) with 0.
        destruct (Z.geb_spec 0 N); [lia|reflexivity].
      * rewrite Forall_forall in Hold |- *. intros ts Hin.
        assert (ts <= now); [|lia].
        apply Hold. rewrite list_elem_of_In in Hin |- *.
        by eapply in_window_sub.
  - (* the call is allowed *)
    split; [split; [done|done]|].
    split; [done|]. split; [intros _ ?; lia|]. split; [done|done].
Qed.

(** Two attempts per ten time units: the calls at 0 and 1 pass, the call
    at 2 blocks until 22, the calls at 5 and 21 are denied, the call at
    22 passes. *)
Lemma rate_limiter_window_and_cooldown_witness :
  let limits := (calls ∅ "connect" "alice" 2 10 [0; 1]).2 in
  let blocking := isAllowed limits "connect" "alice" 2 10 2 in
  blocking.1 = false /\
  calls blocking.2 "connect" "alice" 2 10 [5; 21] = ([false; false], blocking.2) /\
  (isAllowed blocking.2 "connect" "alice" 2 10 22).1 = true.
Proof.
  intros limits blocking.
  destruct (rate_limiter_window_and_cooldown limits "connect" "alice" 2 10 2)
    as (_ & _ & Hblock & _ & _).
  destruct Hblock as (Hdenied & _ & _ & _ & Hduring & Hafter).
  - vm_compute. reflexivity.
  - vm_compute. discriminate.
  - split; [exact Hdenied|]. split.
    + apply (Hduring [5; 21]). repeat constructor.
    + apply (Hafter 22); [lia | lia | vm_compute; repeat constructor; discriminate | lia].
Defined.

End RateLimiterFacts.

(** ** Peer sessions *)

Module PeerManagerFacts.
Import PeerManager Scenarios.

(** When the quality table holds exactly the entries of the sessions,
    counting its values is counting the qualities of the sessions. *)
Lemma qualityCount_sessions st q :
  table_of_sessions st ->
  qualityCount (peerConnectionQuality st) q = sessionCount st q.
Proof.
  intros [Hnd Hdom]. unfold qualityCount, sessionCount.
  set (table := peerConnectionQuality st) in *.
  set (entry := fun c => (peer c, default "" (table !! peer c))).
  assert (Hperm : map_to_list table ≡ₚ entry <$> connections st).
  { apply NoDup_Permutation.
    - apply NoDup_map_to_list.
    - apply (NoDup_fmap_1 fst). by rewrite <- list_fmap_compose.
    - intros [k v]. rewrite elem_of_map_to_list, list_elem_of_fmap. split.
      + intros Hk.
        assert (Hin : k ∈ dom table) by (apply elem_of_dom; eauto).
        rewrite Hdom, elem_of_list_to_set, list_elem_of_fmap in Hin.
        destruct Hin as (c & -> & Hc). exists c. split; [|done].
        unfold entry. by rewrite Hk.
      + intros (c & [= -> ->] & Hc).
        assert (Hin : peer c ∈ dom table).
        { rewrite Hdom, elem_of_list_to_set. by apply list_elem_of_fmap_2. }
        apply elem_of_dom in Hin as [v Hv]. by rewrite Hv. }
  rewrite Hperm. clear Hperm.
  assert (Hall : Forall (fun c => is_Some (table !! peer c)) (connections st)).
  { apply Forall_forall. intros c Hc. apply elem_of_dom.
    rewrite Hdom, elem_of_list_to_set. by apply list_elem_of_fmap_2. }
  clear Hnd Hdom.
  induction Hall as [|c l [v Hv] _ IH]; [done|].
  rewrite fmap_cons, !filter_cons.
  assert (Heq : (entry c).2 = q <-> table !! peer c = Some q).
  { unfold entry. rewrite Hv. simpl.
    split; [intros Hvq; by rewrite Hvq|by intros [= ?]]. }
  destruct (decide ((entry c).2 = q)) as [H1|H1];
    destruct (decide (table !! peer c = Some q)) as [H2|H2];
    [cbn [length]; by rewrite IH | by apply Heq in H1
    | by apply Heq in H2 | exact IH].
Qed.

(** C4, as stated, fails: with the signaling link down the aggregate is
    ['offline'], not ['unknown']. *)
Lemma connection_quality_counterexample :
  updateConnectionQualityIndicator false initial = "offline" /\
  updateConnectionQualityIndicator false initial <> "unknown".
Proof. vm_compute. split; [reflexivity|discriminate]. Qed.

(** The counts of [updateConnectionQualityIndicator] run over the whole
    quality table, which keeps the entries of peers without a session:
    one good session next to a remembered peer of poor quality gives
    ['poor']. *)
Lemma stale_quality_entries_count :
  connections one_good_session = [mkConn 1 "bob"] /\
  peerConnectionQuality one_good_session !! "bob" = Some "good" /\
  updateConnectionQualityIndicator true one_good_session = "poor".
Proof. vm_compute. repeat split. Qed.

(** C4, amended.  The aggregate connection quality is ['offline'] when
    the signaling link is down, and ['unknown'] when the link is up and
    there is no live session.  Otherwise, when the quality table holds
    the entries of the live sessions and no others, it is derived from
    the per-session quality values, with [n] the number of sessions:
    ['error'] if some session is ['error']; else ['poor'] if more than
    [n / 2] sessions are ['poor']; else ['medium'] if more than [n / 2]
    sessions are ['medium']; else ['good'] if some session is ['good'];
    else ['unknown']. *)
Theorem connection_quality_aggregate (link_up : bool) (st : state) :
  let q := updateConnectionQualityIndicator link_up st in
  let n := length (connections st) in
  let count := sessionCount st in
  (link_up = false -> q = "offline") /\
  (link_up = true -> n = 0%nat -> q = "unknown") /\
  (link_up = true -> n <> 0%nat -> table_of_sessions st ->
   (0 < count "error" -> q = "error")%nat /\
   (count "error" = 0 -> n / 2 < count "poor" -> q = "poor")%nat /\
   (count "error" = 0 -> count "poor" <= n / 2 ->
    n / 2 < count "medium" -> q = "medium")%nat /\
   (count "error" = 0 -> count "poor" <= n / 2 ->
    count "medium" <= n / 2 -> 0 < count "good" -> q = "good")%nat /\
   (count "error" = 0 -> count "poor" <= n / 2 ->
    count "medium" <= n / 2 -> count "good" = 0 -> q = "unknown")%nat).
Proof.
  intros q n count. subst q. unfold updateConnectionQualityIndicator.
  fold n.
  split; [by intros ->|]. split.
  { intros -> Hn. rewrite Hn. reflexivity. }
  intros -> Hn Htable. cbn [negb].
  rewrite !(qualityCount_sessions st _ Htable). fold count.
  destruct (Nat.eqb_spec n 0); [done|].
  destruct (Nat.ltb_spec 0 (count "error"));
    [repeat split; intros; first [done|lia]|].
  destruct (Nat.ltb_spec (n / 2) (count "poor"));
    [repeat split; intros; first [done|lia]|].
  destruct (Nat.ltb_spec (n / 2) (count "medium"));
    [repeat split; intros; first [done|lia]|].
  destruct (Nat.ltb_spec 0 (count "good"));
    repeat split; intros; first [done|lia].
Qed.

(** Three sessions, two of them poor, link up: the aggregate is poor. *)
Lemma connection_quality_aggregate_witness :
  updateConnectionQualityIndicator true three_sessions = "poor".
Proof.
  destruct (connection_quality_aggregate true three_sessions) as (_ & _ & H).
  destruct H as (_ & Hpoor & _); [reflexivity | vm_compute; discriminate | |].
  - split.
    + vm_compute. repeat constructor; intros Hin;
        repeat (apply elem_of_cons in Hin as [Hin|Hin]; [discriminate|]);
        by apply elem_of_nil in Hin.
    + vm_compute. reflexivity.
  - apply Hpoor; vm_compute; [reflexivity | lia].
Defined.

(** C5 fails on the code: the duplicate check of [connectToPeer] and of
    [handleConnection] looks at the session table only, and a connection
    enters the table when it opens.  Two connections to one peer that
    are both handled before either opens are both installed; no probe is
    made, neither is closed, and both end up in the session table. *)
Theorem duplicate_sessions_after_race :
  let st := run initial racing_connections in
  connections st = [mkConn 1 "bob"; mkConn 2 "bob"] /\
  closed st = [] /\
  ~ NoDup (peer <$> connections st).
Proof.
  vm_compute. split; [reflexivity|]. split; [reflexivity|].
  intros Hnd. apply NoDup_cons in Hnd as [Hnotin _].
  apply Hnotin. constructor.
Qed.

(** What the check does achieve: against a session that is already in the
    table, a responsive probe closes the new connection and leaves the
    table alone, and an unresponsive probe removes the old session and
    its handshake marker and installs the new connection. *)
Lemma handleConnection_against_open_session st c i old :
  findIndex (peer c) (connections st) = Some i ->
  connections st !! i = Some old ->
  (connections (handleConnection st c true) = connections st /\
   pending (handleConnection st c true) = pending st /\
   closed (handleConnection st c true) = closed st ++ [c]) /\
  (connections (handleConnection st c false) = splice1 i (connections st) /\
   (peer c ∉ handshakeCompleted (handleConnection st c false)) /\
   pending (handleConnection st c false) = pending st ++ [c] /\
   closed (handleConnection st c false) = closed st ++ [old]).
Proof.
  intros Hi Hold. unfold handleConnection. rewrite Hi, Hold. cbn.
  split; [done|]. split; [done|]. split; [|done].
  intros Hin. apply elem_of_difference in Hin as [_ Hin].
  apply Hin. by apply elem_of_singleton.
Qed.

End PeerManagerFacts.

(** ** Message distribution *)

Module TweetManagerFacts.
Import TweetManager Scenarios.

Lemma set_tweets_same st : set_tweets st (tweets st) = st.
Proof. by destruct st. Qed.

Lemma filter_all_length {A} (P : A -> Prop) `{!forall x, Decision (P x)}
      (l : list A) :
  length (filter P l) = length l <-> Forall P l.
Proof.
  induction l as [|x l IH]; [by split|].
  rewrite filter_cons. destruct (decide (P x)) as [HP|HP]; cbn.
  - rewrite Forall_cons. split.
    + intros Hlen. split; [done|]. apply IH. lia.
    + intros [_ Hall]. f_equal. by apply IH.
  - split.
    + intros Hlen. pose proof (length_filter P l). lia.
    + intros Hall. by apply Forall_cons in Hall as [? _].
Qed.

Lemma filter_all {A} (P : A -> Prop) `{!forall x, Decision (P x)}
      (l : list A) :
  Forall P l -> filter P l = l.
Proof.
  induction 1 as [|x l HP _ IH]; [done|].
  rewrite filter_cons. destruct (decide (P x)); [by f_equal|done].
Qed.

Lemma absent_all_differ (log : list Js.object) tweetId :
  tweetId ∉ tweet_id <$> log <->
  Forall (fun tweet => tweet_id tweet ≠ tweetId) log.
Proof.
  rewrite Forall_forall. split.
  - intros Hnot t Hin Heq. apply Hnot. rewrite list_elem_of_fmap. eauto.
  - intros Hall Hin. apply list_elem_of_fmap in Hin as (t & Heq & Hin).
    by apply (Hall t Hin).
Qed.

Lemma tweets_saveTweets st :
  tweets (saveTweets st) = firstn MAX_TWEETS_STORAGE (tweets st).
Proof.
  unfold saveTweets. destruct (Nat.ltb_spec MAX_TWEETS_STORAGE (length (tweets st))).
  - done.
  - cbn. by rewrite firstn_all2.
Qed.

(** [deleteTweet] touches the log and the persistence calls only. *)
Lemma deleteTweet_frame st tweetId :
  tweetRecipients (deleteTweet st tweetId).2 = tweetRecipients st /\
  unsentTweets (deleteTweet st tweetId).2 = unsentTweets st /\
  outbox (deleteTweet st tweetId).2 = outbox st /\
  limits (deleteTweet st tweetId).2 = limits st.
Proof.
  unfold deleteTweet.
  destruct (negb _); cbn [fst snd]; [|done].
  unfold saveTweets. destruct (Nat.ltb _ _); done.
Qed.

(** [deleteTweet] as one step (no handler runs during the [await], or
    the tweet has no media) returns [true] exactly when a tweet with that
    id is in the log, and that tweet is then gone from the log; when no
    tweet has that id it returns [false] and leaves the whole state as it
    was: log, recipient sets, unsent queues, and no persistence call. *)
Theorem deleteTweet_result (st : state) (tweetId : Js.value) :
  ((deleteTweet st tweetId).1 = true <-> tweetId ∈ tweet_id <$> tweets st) /\
  (tweetId ∉ tweet_id <$> tweets (deleteTweet st tweetId).2) /\
  (tweetId ∉ tweet_id <$> tweets st -> deleteTweet st tweetId = (false, st)).
Proof.
  assert (Hcases :
    ((tweetId ∉ tweet_id <$> tweets st) /\ deleteTweet st tweetId = (false, st)) \/
    ((tweetId ∈ tweet_id <$> tweets st) /\
     deleteTweet st tweetId
     = (true, saveTweets (set_tweets st
          (filter (fun tweet => tweet_id tweet ≠ tweetId) (tweets st)))))).
  { unfold deleteTweet. cbn [tweets set_tweets].
    destruct (Nat.eqb_spec
      (length (filter (fun tweet => tweet_id tweet ≠ tweetId) (tweets st)))
      (length (tweets st))) as [Hlen|Hlen]; cbn [negb].
    - left. apply filter_all_length in Hlen.
      split; [by apply absent_all_differ|].
      rewrite (filter_all _ _ Hlen). by rewrite set_tweets_same.
    - right. split; [|done].
      destruct (decide (tweetId ∈ tweet_id <$> tweets st)) as [|Hnot]; [done|].
      exfalso. apply Hlen. apply filter_all_length.
      by apply absent_all_differ. }
  destruct Hcases as [[Hnot Heq]|[Hin Heq]]; rewrite Heq; cbn [fst snd].
  - split; [split; [done|by intros ?]|]. split; [done|done].
  - split; [split; [done|done]|]. split; [|by intros ?].
    rewrite tweets_saveTweets. cbn [tweets set_tweets].
    intros Hin'. apply list_elem_of_fmap in Hin' as (t & Heqt & Ht).
    apply subseteq_take in Ht.
    apply list_elem_of_filter in Ht as [Hne _]. by apply Hne.
Qed.

(** On a fresh node nothing has the id ["x"]: the call returns [false]
    and the state is as before.  After bob has delivered [hello], the
    call for its id returns [true]. *)
Lemma deleteTweet_result_witness :
  deleteTweet initial (Js.Str "x") = (false, initial) /\
  (deleteTweet (run initial [GotTweet 2000 "me" hello "bob" true])
               (Js.Str "bob-1000-5d41402a")).1 = true.
Proof.
  split.
  - apply (deleteTweet_result initial (Js.Str "x")).
    vm_compute. inversion 1.
  - apply (deleteTweet_result
             (run initial [GotTweet 2000 "me" hello "bob" true])
             (Js.Str "bob-1000-5d41402a")).
    vm_compute. constructor.
Defined.

(** [deleteTweet_with_await] is [deleteTweet] when nothing runs during
    the [await], and whenever the tweet has no media or is not there. *)
Lemma deleteTweet_with_await_alone st tweetId during :
  during = [] \/
  (forall t, t ∈ tweets st -> tweet_id t = tweetId ->
             Js.truthy (Js.get t "mediaId") = false) ->
  TweetManagerRuns.deleteTweet_with_await st tweetId during
  = deleteTweet st tweetId.
Proof.
  intros Hor. unfold TweetManagerRuns.deleteTweet_with_await, deleteTweet.
  destruct (List.find _ (tweets st)) as [t|] eqn:Hfind; [|done].
  destruct (Js.truthy (Js.get t "mediaId")) eqn:Hmedia; [|done].
  destruct Hor as [->|Hno]; [done|].
  apply List.find_some in Hfind as [Hin Heq].
  apply bool_decide_eq_true_1 in Heq. apply list_elem_of_In in Hin.
  by rewrite (Hno t Hin Heq) in Hmedia.
Qed.

(** C10 fails on the code.  Alice has written a tweet with an image.
    [deleteTweet] for its id reads the length of the log, 1, and awaits
    the deletion of the image; meanwhile bob's tweet arrives and is
    stored.  The call then removes alice's tweet, finds a log of length 1
    again, returns [false] and skips [saveTweets]: the tweet was there
    and is removed, and the call reports that nothing was deleted. *)
Theorem deleteTweet_reports_false_after_removal :
  let image :=
    FileStored (Js.Str "media_1000_k3xq9a7fp") (Js.Str "data:image/png;base64,")
               (Js.Str "image") in
  let st :=
    run initial
      [Create (Js.Str "alice") "me" [] 1000 (Js.Str "hello") image] in
  let during := [GotTweet 2000 "me" hello "bob" true] in
  let res := TweetManagerRuns.deleteTweet_with_await st hello_id during in
  tweet_id <$> tweets st = [hello_id] /\
  res.1 = false /\
  tweets res.2 = [hello_entry] /\
  saves res.2 = saves (run st during).
Proof. vm_compute. repeat split. Qed.

(** *** The log under the other operations *)

Lemma insert_tweet_perm t l : insert_tweet t l ≡ₚ t :: l.
Proof.
  induction l as [|u l IH]; [done|]. cbn.
  destruct (_ >? _); [|done].
  rewrite IH. apply Permutation_swap.
Qed.

Lemma sortTweets_perm l : sortTweets l ≡ₚ l.
Proof.
  induction l as [|t l IH]; [done|].
  cbn. rewrite insert_tweet_perm. by rewrite IH.
Qed.

Lemma tweets_forget_all evicted st :
  tweets (fold_left forget evicted st) = tweets st.
Proof.
  revert st. induction evicted as [|t l IH]; intros st; [done|].
  cbn [fold_left]. by rewrite IH.
Qed.

Lemma tweet_id_new_tweet u c t id m1 m2 m3 :
  tweet_id (new_tweet u c t id m1 m2 m3) = id.
Proof. reflexivity. Qed.

Lemma outbox_forget_all evicted st :
  outbox (fold_left forget evicted st) = outbox st.
Proof.
  revert st. induction evicted as [|t l IH]; intros st; [done|].
  cbn [fold_left]. by rewrite IH.
Qed.

Lemma limits_forget_all evicted st :
  limits (fold_left forget evicted st) = limits st.
Proof.
  revert st. induction evicted as [|t l IH]; intros st; [done|].
  cbn [fold_left]. by rewrite IH.
Qed.

Lemma saves_forget_all evicted st :
  saves (fold_left forget evicted st) = saves st.
Proof.
  revert st. induction evicted as [|t l IH]; intros st; [done|].
  cbn [fold_left]. by rewrite IH.
Qed.

Lemma outbox_saveTweets st : outbox (saveTweets st) = outbox st.
Proof. unfold saveTweets. by destruct (Nat.ltb _ _). Qed.

Lemma limits_saveTweets st : limits (saveTweets st) = limits st.
Proof. unfold saveTweets. by destruct (Nat.ltb _ _). Qed.

Lemma saves_saveTweets st : saves (saveTweets st) = saves st ++ [SaveTweets].
Proof. unfold saveTweets. by destruct (Nat.ltb _ _). Qed.

Lemma recipients_saveTweets st :
  tweetRecipients (saveTweets st) = tweetRecipients st.
Proof. unfold saveTweets. by destruct (Nat.ltb _ _). Qed.

Lemma unsent_saveTweets st : unsentTweets (saveTweets st) = unsentTweets st.
Proof. unfold saveTweets. by destruct (Nat.ltb _ _). Qed.

(** The three ways through [addTweet], and the log after each. *)
Lemma addTweet_log st now peerId u c t recips id m1 m2 m3 :
  let tweetId := Js.or id (generateUniqueId peerId u c t) in
  let res := addTweet st now peerId u c t recips id m1 m2 m3 in
  (has_tweet (tweets st) tweetId = true /\ res = (Returned tweetId, st)) \/
  (has_tweet (tweets st) tweetId = false /\
   validateTweet (new_tweet u c t tweetId m1 m2 m3) now = false /\
   res = (Threw "Invalid tweet data", st)) \/
  (has_tweet (tweets st) tweetId = false /\
   validateTweet (new_tweet u c t tweetId m1 m2 m3) now = true /\
   res.1 = Returned tweetId /\
   tweets res.2
   = take MAX_TWEETS_STORAGE
       (sortTweets (tweets st ++ [new_tweet u c t tweetId m1 m2 m3])) /\
   outbox res.2 = outbox st /\ limits res.2 = limits st /\
   saves res.2 = saves st ++ [SaveTweets]).
Proof.
  intros tweetId res. subst res. unfold addTweet. fold tweetId.
  destruct (has_tweet (tweets st) tweetId); [by left|right].
  destruct (validateTweet _ now); cbn [negb]; [right|by left].
  split; [done|]. split; [done|]. cbn [fst snd]. split; [done|].
  set (sorted := sortTweets _).
  destruct (Nat.ltb_spec MAX_TWEETS_STORAGE (length sorted)) as [Hlt|Hge].
  - rewrite tweets_saveTweets, tweets_forget_all. cbn [tweets set_tweets].
    split; [by rewrite take_take, Nat.min_id|].
    rewrite outbox_saveTweets, limits_saveTweets, saves_saveTweets.
    by rewrite outbox_forget_all, limits_forget_all, saves_forget_all.
  - rewrite tweets_saveTweets. cbn [tweets set_tweets set_recipients].
    split; [done|].
    by rewrite outbox_saveTweets, limits_saveTweets, saves_saveTweets.
Qed.


Lemma addTweet_present st now peerId u c t recips id m1 m2 m3 :
  Js.or id (generateUniqueId peerId u c t) ∈ tweet_id <$> tweets st ->
  addTweet st now peerId u c t recips id m1 m2 m3
  = (Returned (Js.or id (generateUniqueId peerId u c t)), st).
Proof.
  intros Hin. unfold addTweet, has_tweet.
  by rewrite bool_decide_eq_true_2.
Qed.

Lemma addTweet_unique st now peerId u c t recips id m1 m2 m3 :
  NoDup (tweet_id <$> tweets st) ->
  NoDup (tweet_id <$> tweets (addTweet st now peerId u c t recips id m1 m2 m3).2).
Proof.
  intros Hnd.
  destruct (addTweet_log st now peerId u c t recips id m1 m2 m3)
    as [[_ ->]|[(_ & _ & ->)|(Hnew & _ & _ & -> & _)]]; [done|done|].
  rewrite fmap_take.
  eapply sublist_NoDup; [|apply sublist_take].
  rewrite sortTweets_perm, fmap_app. cbn [fmap list_fmap].
  rewrite tweet_id_new_tweet.
  apply NoDup_app. split; [done|]. split; [|apply NoDup_singleton].
  intros x Hx Hx'. apply list_elem_of_singleton in Hx'. subst x.
  unfold has_tweet in Hnew. by apply bool_decide_eq_false_1 in Hnew.
Qed.

Lemma tweets_mark_received st id p : tweets (mark_received st id p) = tweets st.
Proof. done. Qed.

Lemma tweets_broadcast_to tweetData tweetId conns st :
  tweets (fold_left (broadcast_to tweetData tweetId) conns st) = tweets st.
Proof.
  revert st. induction conns as [|c conns IH]; intros st; [done|].
  cbn [fold_left]. rewrite IH. unfold broadcast_to.
  destruct c.2; [|done]. cbn.
  destruct (_ !! _) as [l|]; [|done].
  destruct (bool_decide _); [done|]. cbn.
  by destruct (_ !! _).
Qed.

Lemma createTweet_unique st u peerId conns now c file :
  NoDup (tweet_id <$> tweets st) ->
  NoDup (tweet_id <$> tweets (createTweet st u peerId conns now c file).2).
Proof.
  intros Hnd. unfold createTweet.
  destruct (_ && _); [done|].
  destruct (_ && _); [done|].
  destruct file as [| |a b d]; [|done|].
  all: destruct (negb _); [done|].
  all: match goal with
       | |- context [addTweet ?s ?n ?p ?u ?c ?t ?r ?i ?x ?y ?z] =>
           pose proof (addTweet_unique s n p u c t r i x y z Hnd) as Hadd;
           destruct (addTweet s n p u c t r i x y z) as [[?|?] st2]
       end; cbn [snd] in *; [|done].
  all: unfold broadcastTweet; cbn [tweets record_save].
  all: by rewrite tweets_broadcast_to.
Qed.


Lemma handleTweetMessage_unique st now peerId data p send_ok :
  NoDup (tweet_id <$> tweets st) ->
  NoDup (tweet_id <$> tweets (handleTweetMessage st now peerId data p send_ok)).
Proof.
  intros Hnd. unfold handleTweetMessage.
  destruct (negb _); [done|].
  match goal with
  | |- context [addTweet ?s ?n ?q ?u ?c ?t ?r ?i ?x ?y ?z] =>
      pose proof (addTweet_unique s n q u c t r i x y z Hnd) as Hadd;
      destruct (addTweet s n q u c t r i x y z) as [[?|?] st2]
  end; cbn [snd] in *; [|done].
  by destruct send_ok.
Qed.

Lemma all_tweets_one_unique now peerId p acc tweet :
  NoDup (tweet_id <$> tweets acc.1) ->
  NoDup (tweet_id <$> tweets (all_tweets_one now peerId p acc tweet).1).
Proof.
  intros Hnd. unfold all_tweets_one.
  destruct (negb _); [done|].
  match goal with
  | |- context [addTweet ?s ?n ?q ?u ?c ?t ?r ?i ?x ?y ?z] =>
      pose proof (addTweet_unique s n q u c t r i x y z Hnd) as Hadd;
      destruct (addTweet s n q u c t r i x y z) as [[?|?] st2]
  end; cbn [fst snd] in *; done.
Qed.

Lemma handleAllTweetsMessage_unique st now peerId batch p send_ok :
  NoDup (tweet_id <$> tweets st) ->
  NoDup (tweet_id <$> tweets
           (handleAllTweetsMessage st now peerId batch p send_ok)).
Proof.
  intros Hnd. unfold handleAllTweetsMessage.
  destruct batch as [l|]; [|done].
  assert (Hfold : forall acc, NoDup (tweet_id <$> tweets acc.1) ->
            NoDup (tweet_id <$> tweets
                     (fold_left (all_tweets_one now peerId p) l acc).1)).
  { induction l as [|t l IH]; intros acc Hacc; [done|].
    cbn [fold_left]. apply IH. by apply all_tweets_one_unique. }
  specialize (Hfold (st, []) Hnd).
  destruct (fold_left _ l (st, [])) as [st' ids]. cbn [fst snd] in *.
  destruct ids; [done|]. by destruct send_ok.
Qed.

Lemma tweets_handleTweetAckMessage st id p :
  tweets (handleTweetAckMessage st id p) = tweets st.
Proof.
  unfold handleTweetAckMessage.
  destruct (_ !! _) as [l|]; [|done].
  destruct (_ && _); [|done]. cbn.
  by destruct (_ !! _).
Qed.

Lemma tweets_bulk_ack_one p st id : tweets (bulk_ack_one p st id) = tweets st.
Proof.
  unfold bulk_ack_one.
  destruct (tweetRecipients st !! _) as [l|];
    [destruct (bool_decide _)|]; cbn; by destruct (_ !! _).
Qed.

Lemma tweets_handleBulkTweetAckMessage st ids p :
  tweets (handleBulkTweetAckMessage st ids p) = tweets st.
Proof.
  unfold handleBulkTweetAckMessage. destruct ids as [l|]; [|done].
  cbn [tweets record_save].
  revert st. induction l as [|id l IH]; intros st; [done|].
  cbn [fold_left]. by rewrite IH, tweets_bulk_ack_one.
Qed.

Lemma tweets_mark_sent p st t : tweets (mark_sent p st t) = tweets st.
Proof. unfold mark_sent. by destruct (_ !! _). Qed.

Lemma tweets_send_batch p st batch send_ok :
  tweets (send_batch p st batch send_ok) = tweets st.
Proof.
  unfold send_batch. destruct send_ok; cbn [tweets record_save].
  - change (tweets st) with (tweets (send st p (AllTweets batch))).
    generalize (send st p (AllTweets batch)).
    induction batch as [|t l IH]; intros s; [done|].
    cbn [fold_left]. by rewrite IH, tweets_mark_sent.
  - revert st. induction batch as [|t l IH]; intros st; [done|].
    cbn [fold_left]. by rewrite IH.
Qed.

Lemma tweets_send_batches p send_ok bs : forall index st,
  tweets (send_batches p send_ok index bs st) = tweets st.
Proof.
  induction bs as [|b bs IH]; intros index st; [done|].
  cbn [send_batches]. by rewrite IH, tweets_send_batch.
Qed.

Lemma tweets_catch_up st p send_ok : tweets (catch_up st p send_ok) = tweets st.
Proof.
  unfold catch_up, sendSelectiveTweets.
  destruct (Nat.eqb _ _); [done|]. by rewrite tweets_send_batches.
Qed.

Lemma deleteTweet_unique st tweetId :
  NoDup (tweet_id <$> tweets st) ->
  NoDup (tweet_id <$> tweets (deleteTweet st tweetId).2).
Proof.
  intros Hnd. unfold deleteTweet.
  assert (Hf : NoDup (tweet_id <$>
            filter (fun tweet => tweet_id tweet ≠ tweetId) (tweets st))).
  { eapply sublist_NoDup; [exact Hnd|]. apply fmap_sublist, sublist_filter. }
  destruct (negb _); cbn [snd]; [|done].
  rewrite tweets_saveTweets, fmap_take. cbn [tweets set_tweets].
  eapply sublist_NoDup; [exact Hf|apply sublist_take].
Qed.

Lemma step_unique st e :
  NoDup (tweet_id <$> tweets st) -> NoDup (tweet_id <$> tweets (step st e)).
Proof.
  intros Hnd. destruct e; cbn [step].
  - by apply createTweet_unique.
  - by apply handleTweetMessage_unique.
  - by apply handleAllTweetsMessage_unique.
  - by rewrite tweets_handleTweetAckMessage.
  - by rewrite tweets_handleBulkTweetAckMessage.
  - by apply deleteTweet_unique.
  - by rewrite tweets_catch_up.
Qed.

(** C8. Storing by id is idempotent.  Whatever events the manager
    processes (tweets created locally, tweets and batches received from
    peers, acknowledgments, deletions, sessions opening), a log without
    two entries of the same id stays so, the empty log of a fresh manager
    in particular; and [addTweet] for an id that is already in the log
    returns that id and changes nothing. *)
Theorem store_by_id_idempotent (st : state) (es : list event) :
  NoDup (tweet_id <$> tweets st) ->
  NoDup (tweet_id <$> tweets (run st es)) /\
  (forall now peerId username content timestamp recipients id
          mediaId mediaThumbnail mediaType,
     let tweetId :=
       Js.or id (generateUniqueId peerId username content timestamp) in
     tweetId ∈ tweet_id <$> tweets (run st es) ->
     addTweet (run st es) now peerId username content timestamp recipients id
              mediaId mediaThumbnail mediaType
     = (Returned tweetId, run st es)).
Proof.
  intros Hnd. split.
  - revert st Hnd. induction es as [|e es IH]; intros st Hnd; [done|].
    cbn [run fold_left]. apply IH. by apply step_unique.
  - intros. by apply addTweet_present.
Qed.

(** Bob, carol and dave all deliver the same tweet: one entry. *)
Lemma store_by_id_idempotent_witness :
  let es := [GotTweet 2000 "me" hello "bob" true;
             GotTweet 2001 "me" hello "carol" true;
             GotAllTweets 2002 "me" (Some [hello_entry]) "dave" true] in
  tweets (run initial es) = [hello_entry] /\
  NoDup (tweet_id <$> tweets (run initial es)).
Proof.
  intros es. split; [vm_compute; reflexivity|].
  apply (store_by_id_idempotent initial es). constructor.
Defined.

(** C2 fails on the code.  After bob has delivered a tweet, its recipient
    set is [["bob"]].  [deleteTweet] removes the tweet from the log and
    sends nothing, but the recipient-set entry is still there. *)
Theorem deleteTweet_keeps_recipient_entry :
  let st := run initial [GotTweet 2000 "me" hello "bob" true] in
  let res := deleteTweet st (Js.Str "bob-1000-5d41402a") in
  tweets st = [hello_entry] /\
  tweetRecipients st !! "bob-1000-5d41402a" = Some ["bob"] /\
  res.1 = true /\
  tweets res.2 = [] /\
  outbox res.2 = outbox st /\
  tweetRecipients res.2 !! "bob-1000-5d41402a" = Some ["bob"].
Proof. vm_compute. repeat split. Qed.


(** *** Reception of a single tweet *)

(** [validateTweet] on the four properties that [handleTweetMessage] and
    [addTweet] copy. *)
Lemma validate_projection data now id :
  validateTweet
    [("username", Js.get data "username"); ("content", Js.get data "content");
     ("timestamp", Js.get data "timestamp"); ("id", id)] now
  = acceptable data now.
Proof.
  unfold validateTweet, acceptable. cbn [Js.get Js.keys map fst String.eqb
    Ascii.eqb Bool.eqb forallb].
  change (String.eqb "username" "content") with false.
  change (String.eqb "username" "mediaId") with false.
  change (String.eqb "content" "mediaId") with false.
  change (String.eqb "timestamp" "mediaId") with false.
  change (String.eqb "id" "mediaId") with false.
  change (String.eqb "username" "timestamp") with false.
  change (String.eqb "content" "timestamp") with false.
  change (String.eqb "username" "username") with true.
  change (String.eqb "content" "content") with true.
  change (String.eqb "timestamp" "timestamp") with true.
  cbn iota.
  replace (bool_decide ("username" ∈ VALID_TWEET_PROPS)) with true
    by (vm_compute; reflexivity).
  replace (bool_decide ("content" ∈ VALID_TWEET_PROPS)) with true
    by (vm_compute; reflexivity).
  replace (bool_decide ("timestamp" ∈ VALID_TWEET_PROPS)) with true
    by (vm_compute; reflexivity).
  replace (bool_decide ("id" ∈ VALID_TWEET_PROPS)) with true
    by (vm_compute; reflexivity).
  cbn [andb negb Js.truthy].
  destruct (Js.get data "username") as [| |b|n|u];
    destruct (Js.get data "content") as [| |b'|n'|c];
    destruct (Js.get data "timestamp") as [| |b''|t|s''];
    cbn [Js.truthy Js.is_string Js.is_number Js.num_of Js.length_is_0
         Js.length_gt negb andb orb];
    try reflexivity;
    try solve [
      repeat match goal with
             | x : bool |- _ => destruct x; cbn [negb andb orb]
             | |- context [(?n =? ?m)] =>
                 destruct (n =? m); cbn [negb andb orb]
             | |- context [(?n <=? ?m)] =>
                 destruct (n <=? m); cbn [negb andb orb]
             | |- context [(?n >? ?m)] =>
                 destruct (n >? m); cbn [negb andb orb]
             | |- context [String.eqb ?u ""] =>
                 destruct (String.eqb u ""); cbn [negb andb orb]
             end; reflexivity ].
  destruct u as [|a u];
    [cbn [String.eqb negb andb orb]; by destruct (String.eqb c "")|].
  destruct c as [|a' c]; [reflexivity|].
  cbn [String.eqb negb andb orb String.length].
  destruct (Z.eqb_spec (Z.of_nat (S (String.length c))) 0) as [?|_]; [lia|].
  destruct (Z.eqb_spec t 0); cbn [negb andb orb];
    [by destruct (_ <=? _)|].
  rewrite !Z.gtb_ltb.
  destruct (Z.ltb_spec MAX_TWEET_LENGTH (Z.of_nat (S (String.length c))));
    destruct (Z.leb_spec (Z.of_nat (S (String.length c))) MAX_TWEET_LENGTH);
    try lia; cbn [negb andb orb]; try reflexivity.
  destruct (Z.ltb_spec (now + 60000) t);
    destruct (Z.leb_spec t (now + 60000)); try lia; reflexivity.
Qed.


Lemma mark_received_marks st id p :
  exists l, tweetRecipients (mark_received st id p) !! recipients_key id = Some l
            /\ p ∈ l.
Proof.
  unfold mark_received. cbn [tweetRecipients set_recipients].
  rewrite lookup_insert_eq. eexists. split; [done|].
  destruct (bool_decide_reflect (p ∈ default [] (tweetRecipients st !! recipients_key id)));
    [done|]. apply elem_of_app. right. by apply list_elem_of_singleton.
Qed.

(** C3, as stated, fails: the raw message [hello] carries the property
    [type], which is outside the recognized schema (and [validateTweet]
    rejects the raw message for it), yet the handler stores the tweet and
    acknowledges it; and the message [epoch], whose creation time is the
    number 0, is dropped. *)
Lemma handleTweetMessage_counterexample :
  let st := handleTweetMessage initial 2000 "me" hello "bob" true in
  "type" ∈ Js.keys hello /\ ("type" ∉ VALID_TWEET_PROPS) /\
  validateTweet hello 2000 = false /\
  tweets st = [hello_entry] /\
  outbox st = [("bob", TweetAck (Js.Str "bob-1000-5d41402a"))] /\
  handleTweetMessage initial 2000 "me" epoch "bob" true = initial.
Proof.
  vm_compute. split; [constructor|]. split; [|done].
  intros Hin. repeat (apply elem_of_cons in Hin as [Hin|Hin]; [discriminate|]).
  inversion Hin.
Qed.

(** What [handleTweetMessage] does with a message, whatever it carries:
    it is dropped when it is not [acceptable], and otherwise the sender
    is marked, the acknowledgment goes back and a new id enters the log. *)
Lemma handleTweetMessage_cases
  (st : state) (now : Z) (peerId : string) (data : Js.object)
  (p : string) (send_ok : bool) :
  let username := Js.get data "username" in
  let content := Js.get data "content" in
  let timestamp := Js.get data "timestamp" in
  let tweetId :=
    Js.or (Js.get data "id")
          (generateUniqueId peerId username content timestamp) in
  let tweet :=
    new_tweet username content timestamp tweetId Js.Null Js.Null Js.Null in
  let st' := handleTweetMessage st now peerId data p send_ok in
  (acceptable data now = false -> st' = st) /\
  (acceptable data now = true ->
   (exists l, tweetRecipients st' !! recipients_key tweetId = Some l /\ p ∈ l) /\
   outbox st' = outbox st ++ (if send_ok then [(p, TweetAck tweetId)] else []) /\
   (tweetId ∈ tweet_id <$> tweets st -> tweets st' = tweets st) /\
   (tweetId ∉ tweet_id <$> tweets st ->
    tweets st'
    = take MAX_TWEETS_STORAGE (sortTweets (tweets st ++ [tweet])))).
Proof.
  intros username content timestamp tweetId tweet st'.
  subst st'. unfold handleTweetMessage.
  rewrite validate_projection.
  fold username content timestamp. fold tweetId.
  split; [by intros ->|]. intros Hok. rewrite Hok. cbn [negb].
  pose proof (addTweet_log st now peerId username content timestamp None
                tweetId Js.Null Js.Null Js.Null) as Hlog.
  assert (Hid : Js.or tweetId
                  (generateUniqueId peerId username content timestamp)
                = tweetId).
  { unfold Js.or at 1. destruct (Js.truthy tweetId) eqn:Ht; [done|].
    revert Ht. unfold tweetId, Js.or.
    destruct (Js.truthy (Js.get data "id")) eqn:Hd; [congruence|done]. }
  cbn zeta in Hlog. rewrite Hid in Hlog. fold tweet in Hlog.
  assert (Hvalid : validateTweet tweet now = true).
  { subst tweet. unfold new_tweet. cbn [Js.truthy app].
    subst username content timestamp.
    by rewrite validate_projection. }
  destruct Hlog as [[Hhas Hres]|[(_ & Hbad & _)|(Hhas & _ & Hret & Hlog & Hout & _)]];
    [|congruence|].
  - (* the id is in the log *)
    rewrite Hres. apply bool_decide_eq_true_1 in Hhas.
    split; [destruct send_ok; apply mark_received_marks|].
    split; [destruct send_ok; cbn; by rewrite ?app_nil_r|].
    split; [by destruct send_ok|]. by intros Hnot.
  - (* a new id *)
    destruct (addTweet _ _ _ _ _ _ _ _ _ _ _) as [res st1].
    cbn [fst snd] in *. subst res. apply bool_decide_eq_false_1 in Hhas.
    split; [destruct send_ok; apply mark_received_marks|].
    split; [destruct send_ok; cbn; by rewrite Hout; rewrite ?app_nil_r|].
    split; [done|]. intros _. by destruct send_ok.
Qed.

(** C3, amended.  For a single inbound tweet message that carries no
    attachment, [handleTweetMessage] examines the author name, the
    content and the creation time only; a field outside the recognized
    schema, such as the [type] tag that every message carries, is no
    ground for rejection.  If the author name is not a non-empty string,
    or the content is not a non-empty string of at most 1000 characters,
    or the creation time is not a number other than zero and at most
    60 s ahead of the clock, the message is dropped: no state change, no
    acknowledgment.  Otherwise, with [tweetId] the id the message carries
    (or a generated one when that is missing): when [tweetId] is in the
    log the log does not change, and otherwise the tweet enters the log,
    which is sorted newest first and cut to [MAX_TWEETS_STORAGE] entries;
    and, when [tweetId] is not the name of an inherited property, the
    sending peer is in the recipient set of [tweetId] afterwards, a
    single [tweet_ack] carrying [tweetId] goes back (when the send on the
    connection returns), and nothing else is sent. *)
Theorem handleTweetMessage_validated
  (st : state) (now : Z) (peerId : string) (data : Js.object)
  (p : string) (send_ok : bool) :
  Js.truthy (Js.get data "mediaId") = false ->
  let username := Js.get data "username" in
  let content := Js.get data "content" in
  let timestamp := Js.get data "timestamp" in
  let tweetId :=
    Js.or (Js.get data "id")
          (generateUniqueId peerId username content timestamp) in
  let tweet :=
    new_tweet username content timestamp tweetId Js.Null Js.Null Js.Null in
  let st' := handleTweetMessage st now peerId data p send_ok in
  (acceptable data now = false -> st' = st) /\
  (acceptable data now = true ->
   (tweetId ∈ tweet_id <$> tweets st -> tweets st' = tweets st) /\
   (tweetId ∉ tweet_id <$> tweets st ->
    tweets st'
    = take MAX_TWEETS_STORAGE (sortTweets (tweets st ++ [tweet]))) /\
   (Js.inherited (recipients_key tweetId) = false ->
    (exists l, tweetRecipients st' !! recipients_key tweetId = Some l /\ p ∈ l) /\
    outbox st'
    = outbox st ++ (if send_ok then [(p, TweetAck tweetId)] else []))).
Proof.
  intros _ username content timestamp tweetId tweet st'.
  destruct (handleTweetMessage_cases st now peerId data p send_ok)
    as [Hdrop Hok].
  split; [exact Hdrop|]. intros Hacc.
  destruct (Hok Hacc) as (Hmark & Hout & Hold & Hnew).
  split; [exact Hold|]. split; [exact Hnew|]. intros _. by split.
Qed.

(** The message [hello] arrives at a fresh node at time 2000. *)
Lemma handleTweetMessage_validated_witness :
  let st := handleTweetMessage initial 2000 "me" hello "bob" true in
  tweetRecipients st !! "bob-1000-5d41402a" = Some ["bob"] /\
  outbox st = [("bob", TweetAck (Js.Str "bob-1000-5d41402a"))] /\
  tweets st = [hello_entry].
Proof.
  intros st. subst st.
  destruct (handleTweetMessage_validated initial 2000 "me" hello "bob" true)
    as [_ Hok]; [reflexivity|].
  destruct Hok as (_ & Hnew & Hown); [vm_compute; reflexivity|].
  destruct Hown as [_ Hout]; [vm_compute; reflexivity|].
  split; [vm_compute; reflexivity|]. split; [exact Hout|].
  rewrite Hnew; [vm_compute; reflexivity|]. vm_compute. inversion 1.
Defined.

(** *** Acknowledgments *)

(** The unsent queue of [p] after one round of the bulk loop. *)
Lemma unsent_bulk_ack_one p st id :
  unsentTweets (bulk_ack_one p st id) !! p
  = filter (fun id' => id' ≠ id) <$> unsentTweets st !! p.
Proof.
  unfold bulk_ack_one.
  set (st1 := match tweetRecipients st !! recipients_key id with
              | Some l => _ | None => st end).
  assert (Hu : unsentTweets st1 = unsentTweets st).
  { subst st1. destruct (_ !! _) as [l|]; [|done]. by destruct (bool_decide _). }
  rewrite Hu. destruct (unsentTweets st !! p) as [q|] eqn:Hq.
  - cbn [unsentTweets set_unsent]. by rewrite lookup_insert_eq.
  - by rewrite Hu, Hq.
Qed.

(** Recipient sets only grow in a round of the bulk loop, and the set of
    the acknowledged id, when there is one, receives [p]. *)
Lemma recipients_bulk_ack_one p st id k l :
  tweetRecipients st !! k = Some l ->
  exists l', tweetRecipients (bulk_ack_one p st id) !! k = Some l' /\
             l ⊆ l' /\ (k = recipients_key id -> p ∈ l').
Proof.
  intros Hk. unfold bulk_ack_one.
  set (st1 := match tweetRecipients st !! recipients_key id with
              | Some l => _ | None => st end).
  assert (Hr : exists l', tweetRecipients st1 !! k = Some l' /\
                          l ⊆ l' /\ (k = recipients_key id -> p ∈ l')).
  { subst st1. destruct (tweetRecipients st !! recipients_key id) as [l0|] eqn:H0.
    - destruct (bool_decide_reflect (p ∈ l0)) as [Hin|Hnin].
      + exists l. split; [done|]. split; [done|].
        intros ->. congruence.
      + cbn [tweetRecipients set_recipients].
        destruct (decide (k = recipients_key id)) as [->|Hne].
        * rewrite lookup_insert_eq. exists (l0 ++ [p]).
          split; [done|]. assert (l = l0) as -> by congruence.
          split; [set_solver|]. intros _. set_solver.
        * rewrite lookup_insert_ne by done. exists l. by repeat split.
    - exists l. split; [done|]. split; [done|]. intros ->. congruence. }
  destruct (unsentTweets st1 !! p); exact Hr.
Qed.

Lemma bulk_acks_queue p ids : forall st,
  unsentTweets (fold_left (bulk_ack_one p) ids st) !! p
  = filter (fun id' => id' ∉ ids) <$> unsentTweets st !! p.
Proof.
  induction ids as [|id ids IH]; intros st.
  - cbn [fold_left]. destruct (unsentTweets st !! p) as [q|]; [|done].
    cbn. f_equal. symmetry. apply filter_all.
    apply Forall_forall. intros x _. apply not_elem_of_nil.
  - cbn [fold_left]. rewrite IH, unsent_bulk_ack_one.
    destruct (unsentTweets st !! p) as [q|]; [|done]. cbn. f_equal.
    rewrite list_filter_filter. apply list_filter_iff.
    intros x. rewrite not_elem_of_cons. tauto.
Qed.

Lemma bulk_acks_recipients p ids : forall st k l,
  tweetRecipients st !! k = Some l ->
  exists l', tweetRecipients (fold_left (bulk_ack_one p) ids st) !! k = Some l'
             /\ l ⊆ l' /\
             (k ∈ recipients_key <$> ids -> p ∈ l').
Proof.
  induction ids as [|id ids IH]; intros st k l Hk.
  - exists l. split; [done|]. split; [done|]. cbn. by intros ?%elem_of_nil.
  - cbn [fold_left].
    destruct (recipients_bulk_ack_one p st id k l Hk) as (l1 & H1 & Hsub & Hp).
    destruct (IH _ k l1 H1) as (l2 & H2 & Hsub2 & Hp2).
    exists l2. split; [done|]. split; [set_solver|].
    rewrite fmap_cons, elem_of_cons. intros [->|Hin]; [set_solver|by apply Hp2].
Qed.


(** C9, as stated, fails: an acknowledgment that names an id without a
    recipient-set entry is ignored, so the acking peer is not marked. *)
Lemma acknowledgment_counterexample :
  handleTweetAckMessage initial (Js.Str "m1") "bob" = initial /\
  tweetRecipients (handleTweetAckMessage initial (Js.Str "m1") "bob") !! "m1"
  = None /\
  tweetRecipients
    (handleBulkTweetAckMessage initial (Some [Js.Str "m1"]) "bob") !! "m1"
  = None.
Proof. vm_compute. repeat split. Qed.

(** C9, amended.  For a peer id [p] that is not the name of an inherited
    property: a [tweet_ack] from [p] that names an id with a
    recipient-set entry leaves [p] in that entry, and when [p] was not in
    it before, the id is also removed from the unsent queue of [p]; a
    [tweet_ack] that names an id without a recipient-set entry changes
    nothing.  A [bulk_tweet_ack] from [p] that names no inherited
    property does, for each id it names: [p] is in the recipient-set
    entry of the id afterwards when the id has one, and the id is not in
    the unsent queue of [p] afterwards. *)
Theorem acknowledgment_effect (st : state) (p : string) :
  Js.inherited p = false ->
  (forall id l,
     Js.truthy id = true ->
     tweetRecipients st !! recipients_key id = Some l ->
     (exists l', tweetRecipients (handleTweetAckMessage st id p)
                   !! recipients_key id = Some l' /\ p ∈ l') /\
     (p ∉ l -> forall q,
        unsentTweets (handleTweetAckMessage st id p) !! p = Some q -> id ∉ q)) /\
  (forall id,
     tweetRecipients st !! recipients_key id = None ->
     handleTweetAckMessage st id p = st) /\
  (forall ids id,
     Forall (fun id' => Js.inherited (recipients_key id') = false) ids ->
     id ∈ ids ->
     (is_Some (tweetRecipients st !! recipients_key id) ->
      exists l', tweetRecipients (handleBulkTweetAckMessage st (Some ids) p)
                   !! recipients_key id = Some l' /\ p ∈ l') /\
     (forall q,
        unsentTweets (handleBulkTweetAckMessage st (Some ids) p) !! p = Some q ->
        id ∉ q)).
Proof.
  intros _. split; [|split].
  - intros id l Hid Hl. unfold handleTweetAckMessage. rewrite Hl, Hid.
    cbn [andb]. destruct (bool_decide_reflect (p ∈ l)) as [Hin|Hnin]; cbn [negb].
    + split; [by exists l|]. by intros ?.
    + split.
      * exists (l ++ [p]). split; [|set_solver].
        cbn [unsentTweets set_recipients].
        destruct (unsentTweets st !! p);
          cbn [tweetRecipients record_save set_unsent set_recipients];
          by rewrite lookup_insert_eq.
      * intros _ q. cbn [unsentTweets set_recipients].
        destruct (unsentTweets st !! p) as [q0|] eqn:Hq0;
          cbn [unsentTweets record_save set_unsent set_recipients].
        -- rewrite lookup_insert_eq. intros [= <-].
           rewrite list_elem_of_filter. tauto.
        -- congruence.
  - intros id Hnone. unfold handleTweetAckMessage. by rewrite Hnone.
  - intros ids id _ Hin. unfold handleBulkTweetAckMessage.
    cbn [tweetRecipients unsentTweets record_save]. split.
    + intros [l Hl].
      destruct (bulk_acks_recipients p ids st _ l Hl) as (l' & Hl' & _ & Hp).
      exists l'. split; [done|]. apply Hp. by apply list_elem_of_fmap_2.
    + intros q. rewrite bulk_acks_queue.
      destruct (unsentTweets st !! p) as [q0|]; [|done]. cbn.
      intros [= <-]. rewrite list_elem_of_filter. tauto.
Qed.

(** Bob's tweet is in the log of a node that has the message queued for
    carol; carol acknowledges it, singly or in bulk. *)
Lemma acknowledgment_effect_witness :
  let st := set_unsent (run initial [GotTweet 2000 "me" hello "bob" true])
              (<["carol" := [Js.Str "bob-1000-5d41402a"]]> ∅) in
  let id := Js.Str "bob-1000-5d41402a" in
  (exists l', tweetRecipients (handleTweetAckMessage st id "carol")
                !! recipients_key id = Some l' /\ "carol" ∈ l') /\
  (forall q, unsentTweets (handleTweetAckMessage st id "carol") !! "carol"
             = Some q -> id ∉ q) /\
  (forall q, unsentTweets (handleBulkTweetAckMessage st (Some [id]) "carol")
               !! "carol" = Some q -> id ∉ q).
Proof.
  intros st id.
  destruct (acknowledgment_effect st "carol") as (Hone & _ & Hbulk);
    [reflexivity|].
  destruct (Hone id ["bob"]) as [Hmark Hqueue];
    [reflexivity | vm_compute; reflexivity |].
  split; [exact Hmark|]. split.
  - apply Hqueue. intros Hin. apply list_elem_of_singleton in Hin. discriminate.
  - apply (Hbulk [id] id); repeat constructor.
Defined.

(** *** Catch-up when a session opens *)

Lemma collect_unconfirmed_spec st p x : forall ids,
  x ∈ collect_unconfirmed st p ids <->
  x ∈ ids \/
  exists t, t ∈ tweets st /\ tweet_id t = x /\ not_confirmed st p x = true.
Proof.
  unfold collect_unconfirmed.
  induction (tweets st) as [|t log IH]; intros ids; cbn [fold_left].
  - split; [by left|]. intros [?|(t & Hin & _)]; [done|].
    by apply elem_of_nil in Hin.
  - rewrite IH. split.
    + intros [Hin|(t' & Hin & Heq & Hnc)].
      * destruct (not_confirmed st p (tweet_id t)) eqn:Hnc; cbn [andb] in Hin;
          [|by left].
        destruct (bool_decide_reflect (tweet_id t ∈ ids)); cbn [negb] in Hin;
          [by left|].
        apply elem_of_app in Hin as [?|Hin]; [by left|].
        apply list_elem_of_singleton in Hin. subst x.
        right. exists t. split; [constructor|done].
      * right. exists t'. split; [by constructor|done].
    + intros [Hin|(t' & Hin & Heq & Hnc)].
      * left. destruct (_ && _); [|done]. apply elem_of_app. by left.
      * apply elem_of_cons in Hin as [->|Hin].
        -- left. rewrite Heq, Hnc. cbn [andb].
           destruct (bool_decide_reflect (x ∈ ids)); cbn [negb]; [done|].
           apply elem_of_app. right. by apply list_elem_of_singleton.
        -- right. by exists t'.
Qed.

Lemma tweetsToSend_spec st p t :
  t ∈ tweetsToSend st p <->
  t ∈ tweets st /\
  (tweet_id t ∈ default [] (unsentTweets st !! p) \/
   not_confirmed st p (tweet_id t) = true).
Proof.
  unfold tweetsToSend, unsentTweetIds.
  rewrite list_elem_of_filter, collect_unconfirmed_spec.
  split.
  - intros [[Hq|(t' & _ & _ & Hnc)] Hin]; (split; [done|]); [by left|by right].
  - intros [Hin [Hq|Hnc]]; (split; [|done]); [by left|].
    right. by exists t.
Qed.

Lemma not_confirmed_onPeerConnected st p id :
  not_confirmed (onPeerConnected st p) p id = not_confirmed st p id.
Proof. done. Qed.

Lemma unsentTweetIds_spec st p x :
  x ∈ unsentTweetIds st p <->
  x ∈ default [] (unsentTweets st !! p) \/
  exists t, t ∈ tweets st /\ tweet_id t = x /\ not_confirmed st p x = true.
Proof. apply collect_unconfirmed_spec. Qed.

Lemma queue_onPeerConnected st p :
  unsentTweets (onPeerConnected st p) !! p = Some (unsentTweetIds st p).
Proof.
  unfold onPeerConnected. cbn [unsentTweets set_unsent].
  by rewrite lookup_insert_eq.
Qed.

Lemma unsentTweetIds_onPeerConnected st p x :
  x ∈ unsentTweetIds (onPeerConnected st p) p <-> x ∈ unsentTweetIds st p.
Proof.
  rewrite (unsentTweetIds_spec (onPeerConnected st p)).
  rewrite queue_onPeerConnected. cbn [default].
  split; [|by left].
  intros [Hin|(t & Hin & Heq & Hnc)]; [done|].
  apply unsentTweetIds_spec. right. by exists t.
Qed.

Lemma tweetsToSend_onPeerConnected st p :
  tweetsToSend (onPeerConnected st p) p = tweetsToSend st p.
Proof.
  unfold tweetsToSend.
  change (tweets (onPeerConnected st p)) with (tweets st).
  apply list_filter_iff. intros t. apply unsentTweetIds_onPeerConnected.
Qed.

Lemma unsentTweetIds_nil st p :
  unsentTweetIds st p = [] -> tweetsToSend st p = [].
Proof.
  intros Hnil. unfold tweetsToSend. rewrite Hnil.
  induction (tweets st) as [|t l IH]; [done|].
  rewrite filter_cons. destruct (decide _) as [Hin|_]; [|done].
  by apply elem_of_nil in Hin.
Qed.

Lemma slices_concat size l : forall fuel,
  (0 < size)%nat -> (length l <= fuel)%nat ->
  concat (slices fuel size l) = l /\
  Forall (fun b => (0 < length b <= size)%nat) (slices fuel size l).
Proof.
  intros fuel Hsize. revert l.
  induction fuel as [|fuel IH]; intros l Hlen.
  - destruct l; [by split|cbn in Hlen; lia].
  - destruct l as [|x l]; [by split|].
    cbn [slices].
    destruct (IH (skipn size (x :: l))) as [Hc Hf].
    { rewrite length_skipn. cbn [length] in *. lia. }
    split.
    + cbn [concat]. rewrite Hc. apply firstn_skipn.
    + constructor; [|done]. rewrite length_firstn. cbn [length]. lia.
Qed.

Lemma batches_spec l :
  concat (batches l) = l /\
  Forall (fun b => (0 < length b <= BATCH_SIZE)%nat) (batches l).
Proof. apply slices_concat; [unfold BATCH_SIZE; lia|done]. Qed.


Lemma outbox_mark_sent_all p batch : forall st,
  outbox (fold_left (mark_sent p) batch st) = outbox st.
Proof.
  induction batch as [|t l IH]; intros st; [done|].
  cbn [fold_left]. rewrite IH. unfold mark_sent. by destruct (_ !! _).
Qed.

Lemma outbox_keep_unsent_all p batch : forall st,
  outbox (fold_left (keep_unsent p) batch st) = outbox st.
Proof.
  induction batch as [|t l IH]; intros st; [done|].
  cbn [fold_left]. by rewrite IH.
Qed.

Lemma outbox_send_batch p st batch send_ok :
  outbox (send_batch p st batch send_ok)
  = outbox st ++ (if send_ok then [(p, AllTweets batch)] else []).
Proof.
  unfold send_batch. destruct send_ok; cbn [outbox record_save].
  - by rewrite outbox_mark_sent_all.
  - by rewrite outbox_keep_unsent_all, app_nil_r.
Qed.

Lemma outbox_send_batches p send_ok bs : forall index st,
  outbox (send_batches p send_ok index bs st)
  = outbox st
    ++ map (fun b => (p, AllTweets b)) (delivered send_ok index bs).
Proof.
  induction bs as [|b bs IH]; intros index st.
  - cbn. by rewrite app_nil_r.
  - cbn [send_batches delivered]. rewrite IH, outbox_send_batch, map_app.
    rewrite <- app_assoc. by destruct (send_ok index).
Qed.

Lemma outbox_sendSelectiveTweets st p send_ok :
  outbox (sendSelectiveTweets st p send_ok)
  = outbox st
    ++ map (fun b => (p, AllTweets b))
           (delivered send_ok 0 (batches (tweetsToSend st p))).
Proof.
  unfold sendSelectiveTweets.
  destruct (Nat.eqb_spec (length (unsentTweetIds st p)) 0) as [Hz|_].
  - apply nil_length_inv in Hz. rewrite (unsentTweetIds_nil _ _ Hz).
    cbn. by rewrite app_nil_r.
  - apply outbox_send_batches.
Qed.

Lemma outbox_catch_up st p send_ok :
  outbox (catch_up st p send_ok)
  = outbox st
    ++ map (fun b => (p, AllTweets b))
           (delivered send_ok 0 (batches (tweetsToSend st p))).
Proof.
  unfold catch_up.
  by rewrite outbox_sendSelectiveTweets, tweetsToSend_onPeerConnected.
Qed.

(** The unsent queue of [p] and the recipient sets after [mark_sent]. *)
Lemma unsent_mark_sent p st t :
  unsentTweets (mark_sent p st t) !! p
  = filter (fun id => id ≠ tweet_id t) <$> unsentTweets st !! p.
Proof.
  unfold mark_sent. cbn [unsentTweets mark_received set_recipients].
  destruct (unsentTweets st !! p) as [q|] eqn:Hq.
  - cbn [unsentTweets set_unsent]. by rewrite lookup_insert_eq.
  - cbn [unsentTweets mark_received set_recipients]. by rewrite Hq.
Qed.

Lemma recipients_mark_sent p st t :
  tweetRecipients (mark_sent p st t)
  = tweetRecipients (mark_received st (tweet_id t) p).
Proof. unfold mark_sent. by destruct (_ !! _). Qed.

Lemma mark_received_grows st id p k l :
  tweetRecipients st !! k = Some l ->
  exists l', tweetRecipients (mark_received st id p) !! k = Some l' /\ l ⊆ l'.
Proof.
  intros Hk. unfold mark_received. cbn [tweetRecipients set_recipients].
  destruct (decide (k = recipients_key id)) as [->|Hne].
  - rewrite lookup_insert_eq, Hk. cbn [default].
    eexists. split; [done|]. destruct (bool_decide _); set_solver.
  - rewrite lookup_insert_ne by done. by exists l.
Qed.

Lemma mark_sent_all_grows p batch : forall st k l,
  tweetRecipients st !! k = Some l ->
  exists l', tweetRecipients (fold_left (mark_sent p) batch st) !! k = Some l'
             /\ l ⊆ l'.
Proof.
  induction batch as [|t batch IH]; intros st k l Hk; [by exists l|].
  cbn [fold_left].
  destruct (mark_received_grows st (tweet_id t) p k l Hk) as (l1 & H1 & Hs1).
  rewrite <- recipients_mark_sent in H1.
  destruct (IH _ k l1 H1) as (l2 & H2 & Hs2).
  exists l2. split; [done|set_solver].
Qed.

Lemma mark_sent_all_marks p batch t : forall st,
  t ∈ batch ->
  exists l, tweetRecipients (fold_left (mark_sent p) batch st)
              !! recipients_key (tweet_id t) = Some l /\ p ∈ l.
Proof.
  induction batch as [|u batch IH]; intros st Hin;
    [by apply elem_of_nil in Hin|].
  cbn [fold_left]. apply elem_of_cons in Hin as [->|Hin]; [|by apply IH].
  destruct (mark_received_marks st (tweet_id u) p) as (l & Hl & Hp).
  rewrite <- recipients_mark_sent in Hl.
  destruct (mark_sent_all_grows p batch _ _ l Hl) as (l' & Hl' & Hsub).
  exists l'. split; [done|set_solver].
Qed.

Lemma mark_sent_all_queue p batch : forall st,
  unsentTweets (fold_left (mark_sent p) batch st) !! p
  = filter (fun id => id ∉ tweet_id <$> batch) <$> unsentTweets st !! p.
Proof.
  induction batch as [|t batch IH]; intros st.
  - cbn [fold_left]. destruct (unsentTweets st !! p) as [q|]; [|done].
    cbn. f_equal. symmetry. apply filter_all.
    apply Forall_forall. intros x _. apply not_elem_of_nil.
  - cbn [fold_left]. rewrite IH, unsent_mark_sent.
    destruct (unsentTweets st !! p) as [q|]; [|done]. cbn. f_equal.
    rewrite list_filter_filter. apply list_filter_iff.
    intros x. rewrite not_elem_of_cons. tauto.
Qed.

Lemma keep_unsent_all_grows p batch : forall st q,
  unsentTweets st !! p = Some q ->
  exists q', unsentTweets (fold_left (keep_unsent p) batch st) !! p = Some q'
             /\ q ⊆ q'.
Proof.
  induction batch as [|t batch IH]; intros st q Hq; [by exists q|].
  cbn [fold_left].
  edestruct (IH (keep_unsent p st t)) as (q' & Hq' & Hsub).
  - unfold keep_unsent. cbn [unsentTweets set_unsent].
    by rewrite lookup_insert_eq.
  - exists q'. split; [done|]. rewrite Hq in Hsub. cbn [default] in Hsub.
    destruct (bool_decide _); set_solver.
Qed.

Lemma keep_unsent_all_keeps p batch t : forall st,
  t ∈ batch ->
  exists q, unsentTweets (fold_left (keep_unsent p) batch st) !! p = Some q
            /\ tweet_id t ∈ q.
Proof.
  induction batch as [|u batch IH]; intros st Hin;
    [by apply elem_of_nil in Hin|].
  cbn [fold_left]. apply elem_of_cons in Hin as [->|Hin]; [|by apply IH].
  edestruct (keep_unsent_all_grows p batch (keep_unsent p st u)) as (q' & Hq' & Hsub).
  - unfold keep_unsent. cbn [unsentTweets set_unsent].
    by rewrite lookup_insert_eq.
  - exists q'. split; [done|]. apply Hsub.
    destruct (bool_decide_reflect
                (tweet_id u ∈ default [] (unsentTweets st !! p))); set_solver.
Qed.


(** C6, as stated, fails, in both directions.  After [hello_unsent] bob
    is in the recipient set of the only stored message, and yet the
    catch-up sends him that message, because it is in his unsent queue.
    And when the message is deleted, its id stays in the unsent queue of
    bob, so that the union named by the claim holds that id, but the
    catch-up sends nothing: only stored messages are sent. *)
Lemma catch_up_counterexample :
  let st1 := run initial hello_unsent in
  let st2 := run initial (hello_unsent ++ [Delete hello_id]) in
  (forall t, t ∈ tweets st1 -> not_confirmed st1 "bob" (tweet_id t) = false) /\
  outbox (catch_up st1 "bob" (fun _ => true))
  = [("bob", AllTweets (tweets st1))] /\
  length (tweets st1) = 1%nat /\
  unsentTweets st2 !! "bob" = Some [hello_id] /\
  tweets st2 = [] /\
  outbox (catch_up st2 "bob" (fun _ => true)) = [].
Proof.
  vm_compute. split; [|repeat split].
  intros t Hin. apply list_elem_of_singleton in Hin. by subst t.
Qed.

(** C6, amended.  Let neither [p] nor the id of a stored message be the
    name of an inherited property.  When a session to [p] opens, the
    messages sent as catch-up are the stored messages whose id is in the
    unsent queue of [p] or whose recipient set does not contain [p] (an
    id in the unsent queue that is not in the log is not sent); they are
    cut, in log order, into batches of at most [BATCH_SIZE] messages, and
    the batches whose send returns are what goes out.  A peer that is
    confirmed for every stored message and has no stored message in its
    unsent queue is sent nothing.  After a batch whose send returned, [p]
    is in the recipient set of each of its messages and none of them is
    in the unsent queue of [p]; after a batch whose send threw, each of
    its messages is in the unsent queue of [p]. *)
Theorem catch_up_batches (st : state) (p : string) (send_ok : nat -> bool) :
  Js.inherited p = false ->
  TweetManagerRuns.own_ids (tweets st) = true ->
  let to_send := tweetsToSend st p in
  let bs := batches to_send in
  (forall t, t ∈ to_send <->
     t ∈ tweets st /\
     (tweet_id t ∈ default [] (unsentTweets st !! p) \/
      not_confirmed st p (tweet_id t) = true)) /\
  concat bs = to_send /\
  Forall (fun b => (0 < length b <= BATCH_SIZE)%nat) bs /\
  outbox (catch_up st p send_ok)
  = outbox st ++ map (fun b => (p, AllTweets b)) (delivered send_ok 0 bs) /\
  ((forall t, t ∈ tweets st ->
      not_confirmed st p (tweet_id t) = false /\
      tweet_id t ∉ default [] (unsentTweets st !! p)) ->
   outbox (catch_up st p send_ok) = outbox st) /\
  (forall s b t, TweetManagerRuns.own_ids b = true -> t ∈ b ->
     (exists l, tweetRecipients (send_batch p s b true)
                  !! recipients_key (tweet_id t) = Some l /\ p ∈ l) /\
     (forall q, unsentTweets (send_batch p s b true) !! p = Some q ->
                tweet_id t ∉ q) /\
     (exists q, unsentTweets (send_batch p s b false) !! p = Some q /\
                tweet_id t ∈ q)).
Proof.
  intros _ _ to_send bs.
  split; [apply tweetsToSend_spec|].
  split; [apply batches_spec|]. split; [apply batches_spec|].
  split; [apply outbox_catch_up|]. split.
  - intros Hnone. rewrite outbox_catch_up.
    assert (Hnil : tweetsToSend st p = []).
    { apply elem_of_nil_inv. intros t Ht.
      apply tweetsToSend_spec in Ht as [Hin Hor].
      destruct (Hnone t Hin) as [Hc Hq].
      destruct Hor as [?|?]; [done|congruence]. }
    rewrite Hnil. cbn. by rewrite app_nil_r.
  - intros s b t _ Hin. unfold send_batch.
    cbn [tweetRecipients unsentTweets record_save]. split; [|split].
    + by apply mark_sent_all_marks.
    + intros q. rewrite mark_sent_all_queue.
      destruct (unsentTweets _ !! p) as [q0|]; [|done]. cbn.
      intros [= <-]. rewrite list_elem_of_filter.
      intros [Hnot _]. apply Hnot. by apply list_elem_of_fmap_2.
    + by apply keep_unsent_all_keeps.
Qed.

(** Bob's tweet is in the log and carol has not seen it: the catch-up
    for carol is one batch with that tweet, and she is marked. *)
Lemma catch_up_batches_witness :
  let st := run initial [GotTweet 2000 "me" hello "bob" true] in
  outbox (catch_up st "bob" (fun _ => true)) = outbox st /\
  (exists l, tweetRecipients (send_batch "carol" st [hello_entry] true)
               !! "bob-1000-5d41402a" = Some l /\ "carol" ∈ l).
Proof.
  intros st.
  destruct (catch_up_batches st "bob" (fun _ => true))
    as (_ & _ & _ & _ & Hzero & _); [reflexivity|vm_compute; reflexivity|].
  destruct (catch_up_batches st "carol" (fun _ => true))
    as (_ & _ & _ & _ & _ & Hbatch); [reflexivity|vm_compute; reflexivity|].
  split.
  - apply Hzero. intros t Hin.
    apply list_elem_of_singleton in Hin. subst t.
    split; [vm_compute; reflexivity|]. vm_compute. inversion 1.
  - apply (Hbatch st [hello_entry] hello_entry);
      [vm_compute; reflexivity|constructor].
Defined.

(** *** Creation of a tweet *)

Lemma forget_all_recipients ev : forall st k,
  tweetRecipients (fold_left forget ev st) !! k
  = if bool_decide (k ∈ (fun t => recipients_key (tweet_id t)) <$> ev)
    then None else tweetRecipients st !! k.
Proof.
  induction ev as [|t ev IH]; intros st k; [done|].
  cbn [fold_left]. rewrite IH. cbn [tweetRecipients forget set_unsent set_recipients].
  rewrite fmap_cons.
  destruct (bool_decide_reflect
              (k ∈ (fun t => recipients_key (tweet_id t)) <$> ev)) as [Hin|Hnin].
  - rewrite bool_decide_eq_true_2; [done|]. by apply elem_of_cons; right.
  - destruct (decide (k = recipients_key (tweet_id t))) as [->|Hne].
    + rewrite lookup_delete_eq.
      rewrite bool_decide_eq_true_2; [done|]. by apply elem_of_cons; left.
    + rewrite lookup_delete_ne by done.
      rewrite bool_decide_eq_false_2; [done|].
      rewrite elem_of_cons. tauto.
Qed.

Lemma forget_all_unsent ev : forall st p,
  unsentTweets (fold_left forget ev st) !! p
  = filter (fun id => id ∉ tweet_id <$> ev) <$> unsentTweets st !! p.
Proof.
  induction ev as [|t ev IH]; intros st p.
  - cbn [fold_left]. destruct (unsentTweets st !! p) as [q|]; [|done].
    cbn. f_equal. symmetry. apply filter_all.
    apply Forall_forall. intros x _. apply not_elem_of_nil.
  - cbn [fold_left]. rewrite IH.
    cbn [unsentTweets forget set_unsent set_recipients].
    rewrite lookup_fmap.
    destruct (unsentTweets st !! p) as [q|]; [|done]. cbn. f_equal.
    rewrite list_filter_filter. apply list_filter_iff.
    intros x. rewrite not_elem_of_cons. tauto.
Qed.

(** The bookkeeping after [addTweet] has stored a new tweet. *)
Lemma addTweet_bookkeeping st now peerId u c t recips id m1 m2 m3 :
  let tweetId := Js.or id (generateUniqueId peerId u c t) in
  let res := addTweet st now peerId u c t recips id m1 m2 m3 in
  let evicted :=
    drop MAX_TWEETS_STORAGE
         (sortTweets (tweets st ++ [new_tweet u c t tweetId m1 m2 m3])) in
  has_tweet (tweets st) tweetId = false ->
  validateTweet (new_tweet u c t tweetId m1 m2 m3) now = true ->
  (forall k,
     tweetRecipients res.2 !! k
     = if bool_decide (k ∈ (fun t => recipients_key (tweet_id t)) <$> evicted)
       then None
       else if decide (k = recipients_key tweetId)
            then Some (match recips with
                       | Some l => l
                       | None => default [] (tweetRecipients st !! k)
                       end)
            else tweetRecipients st !! k) /\
  (forall p,
     unsentTweets res.2 !! p
     = filter (fun x => x ∉ tweet_id <$> evicted) <$> unsentTweets st !! p).
Proof.
  intros tweetId res evicted Hnew Hvalid. subst res.
  unfold addTweet. fold tweetId. rewrite Hnew, Hvalid. cbn [negb snd].
  set (sorted := sortTweets _) in *.
  set (recs2 := match recips with Some l => _ | None => _ end).
  assert (Hrecs2 : forall k,
    recs2 !! k = if decide (k = recipients_key tweetId)
                 then Some (match recips with
                            | Some l => l
                            | None => default [] (tweetRecipients st !! k)
                            end)
                 else tweetRecipients st !! k).
  { intros k. subst recs2.
    destruct (decide (k = recipients_key tweetId)) as [->|Hne].
    - destruct recips as [l|]; [by rewrite lookup_insert_eq|].
      destruct (tweetRecipients st !! recipients_key tweetId) eqn:Hk;
        [by rewrite Hk|by rewrite lookup_insert_eq].
    - destruct recips as [l|];
        [rewrite lookup_insert_ne by done|];
        (destruct (tweetRecipients st !! recipients_key tweetId);
         [done|by rewrite lookup_insert_ne]). }
  rewrite recipients_saveTweets, unsent_saveTweets.
  destruct (Nat.ltb_spec MAX_TWEETS_STORAGE (length sorted)) as [Hlt|Hge].
  - split.
    + intros k. rewrite forget_all_recipients. fold evicted.
      cbn [tweetRecipients set_tweets set_recipients]. by rewrite Hrecs2.
    + intros p. by rewrite forget_all_unsent.
  - assert (Hev : evicted = []) by (subst evicted; by apply drop_ge).
    rewrite Hev. cbn [fmap list_fmap].
    split.
    + intros k. cbn [tweetRecipients set_tweets set_recipients].
      rewrite Hrecs2. rewrite bool_decide_eq_false_2; [done|apply not_elem_of_nil].
    + intros p. cbn [unsentTweets set_tweets set_recipients].
      destruct (unsentTweets st !! p) as [q|]; [|done]. cbn. f_equal.
      symmetry. apply filter_all. apply Forall_forall. intros x _.
      apply not_elem_of_nil.
Qed.



Lemma broadcast_to_settled tweetData tweetId st c conns :
  settled st tweetId conns -> c ∈ conns ->
  tweetRecipients (broadcast_to tweetData tweetId st c) = tweetRecipients st /\
  unsentTweets (broadcast_to tweetData tweetId st c)
  = if c.2 then unsentTweets st
    else <[c.1 := let q := default [] (unsentTweets st !! c.1) in
                  if bool_decide (tweetId ∈ q) then q else q ++ [tweetId]]>
           (unsentTweets st).
Proof.
  intros Hs Hc. unfold broadcast_to. destruct c.2; [|done].
  cbn [tweetRecipients send].
  destruct Hs as [Hnone|(l & Hl & Hall)].
  - by rewrite Hnone.
  - rewrite Hl. by rewrite bool_decide_eq_true_2 by by apply Hall.
Qed.

Lemma broadcast_settled tweetData tweetId conns : forall st,
  settled st tweetId conns ->
  let st' := fold_left (broadcast_to tweetData tweetId) conns st in
  tweetRecipients st' = tweetRecipients st /\
  (forall p q, unsentTweets st !! p = Some q ->
     exists q', unsentTweets st' !! p = Some q' /\ q ⊆ q') /\
  (forall p, (p, false) ∈ conns ->
     exists q, unsentTweets st' !! p = Some q /\ tweetId ∈ q) /\
  (forall p q' x, unsentTweets st' !! p = Some q' -> x ∈ q' ->
     x = tweetId \/ exists q, unsentTweets st !! p = Some q /\ x ∈ q).
Proof.
  induction conns as [|c conns IH]; intros st Hs.
  - cbn. split; [done|]. split; [by eauto|]. split.
    + intros p Hin. by apply elem_of_nil in Hin.
    + intros p q' x Hq Hx. right. by exists q'.
  - cbn [fold_left]. cbn zeta.
    destruct (broadcast_to_settled tweetData tweetId st c (c :: conns) Hs)
      as [Hr Hu]; [constructor|].
    set (st1 := broadcast_to tweetData tweetId st c) in *.
    assert (Hs1 : settled st1 tweetId conns).
    { destruct Hs as [Hnone|(l & Hl & Hall)]; [left|right].
      - by rewrite Hr.
      - exists l. rewrite Hr. split; [done|].
        intros c' Hc'. apply Hall. by constructor. }
    destruct (IH st1 Hs1) as (Hrec & Hgrow & Hfail & Hfrom).
    split; [by rewrite Hrec|]. split; [|split].
    + intros p q Hq.
      assert (exists q1, unsentTweets st1 !! p = Some q1 /\ q ⊆ q1)
        as (q1 & Hq1 & Hsub).
      { rewrite Hu. destruct c.2; [by exists q|].
        destruct (decide (p = c.1)) as [->|Hne].
        - rewrite lookup_insert_eq, Hq. cbn [default].
          eexists. split; [done|]. destruct (bool_decide _); [done|].
          intros y Hy. apply elem_of_app. by left.
        - rewrite lookup_insert_ne by done. by exists q. }
      destruct (Hgrow p q1 Hq1) as (q' & Hq' & Hsub').
      exists q'. split; [done|by etrans].
    + intros p Hin. apply elem_of_cons in Hin as [Heq|Hin]; [|by apply Hfail].
      assert (exists q1, unsentTweets st1 !! p = Some q1 /\ tweetId ∈ q1)
        as (q1 & Hq1 & Hin1).
      { rewrite Hu. subst c. cbn [fst snd]. rewrite lookup_insert_eq.
        eexists. split; [done|]. cbn zeta.
        destruct (bool_decide_reflect
                    (tweetId ∈ default [] (unsentTweets st !! p)));
          [done|].
        apply elem_of_app. right. by apply list_elem_of_singleton. }
      destruct (Hgrow p q1 Hq1) as (q' & Hq' & Hsub').
      exists q'. split; [done|by apply Hsub'].
    + intros p q' x Hq' Hx.
      destruct (Hfrom p q' x Hq' Hx) as [?|(q1 & Hq1 & Hx1)]; [by left|].
      rewrite Hu in Hq1. destruct c.2; [right; by exists q1|].
      destruct (decide (p = c.1)) as [->|Hne].
      * rewrite lookup_insert_eq in Hq1. injection Hq1 as <-. cbn zeta in Hx1.
        destruct (unsentTweets st !! c.1) as [q|] eqn:Hq; cbn [default] in Hx1.
        -- destruct (bool_decide _); [right; by exists q|].
           apply elem_of_app in Hx1 as [?|Hx1]; [right; by exists q|].
           left. by apply list_elem_of_singleton in Hx1.
        -- destruct (bool_decide _); [by apply elem_of_nil in Hx1|].
           apply elem_of_app in Hx1 as [Hx1|Hx1];
             [by apply elem_of_nil in Hx1|].
           left. by apply list_elem_of_singleton in Hx1.
      * rewrite lookup_insert_ne in Hq1 by done. right. by exists q1.
Qed.


(** A successful [createTweet], taken apart. *)
Lemma createTweet_returned st username peerId conns now content file tweetId st' :
  createTweet st username peerId conns now content file = (Returned tweetId, st') ->
  let media := media_of file in
  let st1 := set_limits st
               (RateLimiter.isAllowed (limits st) "message" peerId
                  MESSAGE_MAX_COUNT MESSAGE_TIME_WINDOW_MS now).2 in
  let added := addTweet st1 now peerId username content (Js.Num now)
                 (Some (map fst conns)) tweetId
                 media.1.1 media.1.2 media.2 in
  tweetId = generateUniqueId peerId username content (Js.Num now) /\
  added.1 = Returned tweetId /\
  st' = broadcastTweet added.2 username conns content (Js.Num now) tweetId
          media.1.1 media.1.2 media.2.
Proof.
  unfold createTweet. cbn zeta.
  destruct (_ && _); [done|].
  destruct (_ && _); [done|].
  destruct file as [| |a b d]; [|done|].
  all: destruct (negb _); [done|].
  all: cbn [media_of fst snd].
  all: match goal with
       | |- context [addTweet ?s ?n ?p ?u ?c ?t ?r ?i ?x ?y ?z] =>
           pose proof (addTweet_log s n p u c t r i x y z) as Hlog;
           destruct (addTweet s n p u c t r i x y z) as [[r0|m] st2] eqn:Hadd
       end; [|done].
  all: intros [= <- <-]; rewrite Hadd; cbn [fst snd].
  all: split; [done|]; split; [|done].
  all: cbn zeta in Hlog; cbn [fst snd] in Hlog.
  all: destruct Hlog as [[_ [= -> _]]|[(_ & _ & [=])|(_ & _ & [= ->] & _)]].
  all: unfold Js.or; by destruct (Js.truthy _).
Qed.





End TweetManagerFacts.

(** * Further properties *)

Module RateLimiterMore.
Import RateLimiter RateLimiterRuns RateLimiterFacts.

Lemma filter_filter_window W now now' (l : list Z) :
  now <= now' ->
  List.filter (fun ts => now' - ts <? W)
              (List.filter (fun ts => now - ts <? W) l)
  = List.filter (fun ts => now' - ts <? W) l.
Proof.
  intros Hle. induction l as [|ts l IH]; [done|]. cbn.
  destruct (Z.ltb_spec (now - ts) W) as [Hin|Hout]; cbn.
  - by rewrite IH.
  - destruct (Z.ltb_spec (now' - ts) W); [lia|done].
Qed.

Lemma tracks_empty W clock : tracks W clock [] empty_record.
Proof. split; [constructor|done]. Qed.

(** One call keeps the history in step with the record, and a granted
    call finds fewer than [N] granted calls in its window. *)
Lemma tracks_step limits a i N W clock hist now :
  tracks W clock hist (record_of limits a i) ->
  clock <= now ->
  tracks W now
         (hist ++ if (isAllowed limits a i N W now).1 then [now] else [])
         (record_of (isAllowed limits a i N W now).2 a i) /\
  ((isAllowed limits a i N W now).1 = true ->
   Z.of_nat (length (List.filter (fun ts => now - ts <? W) hist)) < N).
Proof.
  intros [Hold Hwin] Hle. rewrite isAllowed_record.
  change (isAllowed limits a i N W now).1
    with (check (record_of limits a i) N W now).1.
  set (r := record_of limits a i) in *.
  assert (Hold' : Forall (fun ts => ts <= now) hist).
  { eapply Forall_impl; [exact Hold|]. cbn. intros; lia. }
  destruct (check_cases r N W now)
    as [[Hc Hk]|[(Hc & Hn & Hk)|(Hc & Hn & Hk)]]; rewrite Hk; cbn [fst snd].
  - rewrite app_nil_r. split; [|done]. split; [done|].
    intros now' Hnow'. apply Hwin. lia.
  - rewrite app_nil_r. split; [|done]. split; [done|].
    intros now' Hnow'. unfold in_window at 1. cbn [attempts].
    rewrite (Hwin now Hle).
    by apply filter_filter_window.
  - split.
    + split.
      * apply Forall_app. split; [done|]. constructor; [lia|constructor].
      * intros now' Hnow'. unfold in_window at 1. cbn [attempts].
        rewrite !List.filter_app. rewrite (Hwin now Hle).
        by rewrite filter_filter_window.
    + intros _. cbn zeta in Hn. by rewrite (Hwin now Hle) in Hn.
Qed.

Lemma in_span_app W t l1 l2 :
  in_span W t (l1 ++ l2) = in_span W t l1 ++ in_span W t l2.
Proof. apply List.filter_app. Qed.

(** Appending a granted call keeps every window within the bound. *)
Lemma span_bound_grant N W hist now :
  Forall (fun ts => ts <= now) hist ->
  Z.of_nat (length (List.filter (fun ts => now - ts <? W) hist)) < N ->
  (forall t, Z.of_nat (length (in_span W t hist)) <= N) ->
  forall t, Z.of_nat (length (in_span W t (hist ++ [now]))) <= N.
Proof.
  intros Hold Hnow Hall t. rewrite in_span_app, length_app.
  unfold in_span at 2. cbn [List.filter].
  destruct ((t - W <? now) && (now <=? t)) eqn:Hin; cbn [length];
    [|specialize (Hall t); lia].
  apply andb_true_iff in Hin as [H1 H2].
  apply Z.ltb_lt in H1. apply Z.leb_le in H2.
  assert (Hsub : Nat.le (length (in_span W t hist))
                    (length (List.filter (fun ts => now - ts <? W) hist))).
  { clear Hnow Hall. unfold in_span.
    induction Hold as [|ts l Hts _ IH]; [done|]. cbn.
    destruct ((t - W <? ts) && (ts <=? t)) eqn:Hts'.
    - apply andb_true_iff in Hts' as [H3 _]. apply Z.ltb_lt in H3.
      destruct (Z.ltb_spec (now - ts) W); [cbn; lia|lia].
    - destruct (now - ts <? W); cbn; lia. }
  lia.
Qed.

Lemma granted_bound N W a i : forall times limits clock hist,
  tracks W clock hist (record_of limits a i) ->
  (forall t, Z.of_nat (length (in_span W t hist)) <= N) ->
  nondecreasing clock times ->
  forall t,
    Z.of_nat (length (in_span W t (hist ++ granted limits a i N W times))) <= N.
Proof.
  induction times as [|now rest IH]; intros limits clock hist Htr Hb Hmono t.
  - cbn [granted]. by rewrite app_nil_r.
  - cbn [granted]. destruct Hmono as [Hle Hmono].
    destruct (tracks_step limits a i N W clock hist now Htr Hle) as [Htr' Hlt].
    rewrite app_assoc. eapply IH; [exact Htr'| |exact Hmono].
    destruct (isAllowed limits a i N W now).1.
    + apply span_bound_grant; [|by apply Hlt|done].
      destruct Htr as [Hold _]. eapply Forall_impl; [exact Hold|].
      cbn. intros; lia.
    + by rewrite app_nil_r.
Qed.

Lemma tracks_later W clock clock' hist r :
  tracks W clock hist r -> clock <= clock' -> tracks W clock' hist r.
Proof.
  intros [Hold Hwin] Hle. split.
  - eapply Forall_impl; [exact Hold|]. cbn. intros; lia.
  - intros now Hnow. apply Hwin. lia.
Qed.

Lemma span_sublist W t (l1 l2 : list Z) :
  l1 `sublist_of` l2 ->
  (length (in_span W t l1) <= length (in_span W t l2))%nat.
Proof.
  unfold in_span. induction 1 as [|x l1 l2 _ IH|x l1 l2 _ IH]; cbn [List.filter].
  - done.
  - destruct (_ && _); cbn [length]; lia.
  - destruct (_ && _); cbn [length]; lia.
Qed.

(** X1. Sliding window: for a key without a record, called with fixed
    [N >= 0] and [W] at clock readings that do not decrease, no window of
    length [W] holds more than [N] granted calls. *)
Theorem at_most_N_granted_per_window
  (limits : gmap string record) (a i : string) (N W clock : Z)
  (times : list Z) :
  limits !! key a i = None ->
  0 <= N ->
  nondecreasing clock times ->
  forall t, Z.of_nat (length (in_span W t (granted limits a i N W times))) <= N.
Proof.
  intros Hnone HN Hmono t.
  apply (granted_bound N W a i times limits clock [] ); [| |done].
  - unfold record_of. rewrite Hnone. apply tracks_empty.
  - intros t'. cbn. lia.
Qed.

(** Eleven connection attempts, one per second, five per minute allowed:
    the window that ends at the last attempt holds five granted calls. *)
Lemma at_most_N_granted_per_window_witness :
  Z.of_nat (length (in_span 60000 10000
     (granted ∅ "connect" "me" 5 60000
        [0; 1000; 2000; 3000; 4000; 5000; 6000; 7000; 8000; 9000; 10000])))
  <= 5.
Proof.
  apply (at_most_N_granted_per_window ∅ "connect" "me" 5 60000 0);
    [reflexivity | lia | cbn; lia].
Defined.

(** X2. The wait time after a call: with [0 < W], right after a call
    that was denied [getTimeUntilAllowed] is positive, and right after a
    call that was granted it is [0]. *)
Theorem denied_iff_positive_wait
  (limits : gmap string record) (a i : string) (N W now : Z) :
  0 < W ->
  let res := isAllowed limits a i N W now in
  (res.1 = false -> 0 < getTimeUntilAllowed res.2 a i now) /\
  (res.1 = true -> getTimeUntilAllowed res.2 a i now = 0).
Proof.
  intros HW res. subst res.
  unfold getTimeUntilAllowed, isAllowed. cbn [fst snd].
  rewrite lookup_insert_eq.
  set (r := record_of limits a i).
  destruct (check_cases r N W now)
    as [[Hc Hk]|[(Hc & Hn & Hk)|(Hc & Hn & Hk)]]; rewrite Hk; cbn [fst snd].
  - rewrite Hc. split; [|done]. intros _.
    unfold cooling in Hc. apply andb_true_iff in Hc as [_ Hlt].
    apply Z.ltb_lt in Hlt. lia.
  - unfold cooling. cbn [blocked blockedUntil andb].
    destruct (Z.ltb_spec now (now + W * 2)); [|lia].
    split; [intros _; lia|done].
  - unfold cooling. cbn [blocked andb]. split; [done|done].
Qed.

Lemma denied_iff_positive_wait_witness :
  let limits := (calls ∅ "message" "me" 1 60000 [0]).2 in
  0 < getTimeUntilAllowed (isAllowed limits "message" "me" 1 60000 5).2
        "message" "me" 5.
Proof.
  intros limits.
  apply (denied_iff_positive_wait limits "message" "me" 1 60000 5);
    [lia|vm_compute; reflexivity].
Defined.

End RateLimiterMore.

Module RateLimiterKeys.
Import RateLimiter RateLimiterRuns RateLimiterFacts.

Lemma key_identifier_inj a i i' : key a i = key a i' -> i = i'.
Proof.
  unfold key. intros H.
  apply (inj (String.append a)) in H.
  by apply (inj (String.append ":")) in H.
Qed.

Lemma record_of_other limits a i N W now a' i' :
  key a i <> key a' i' ->
  record_of (isAllowed limits a i N W now).2 a' i' = record_of limits a' i'.
Proof.
  intros Hne. unfold record_of, isAllowed. cbn [snd].
  by rewrite lookup_insert_ne.
Qed.

(** X3. Keys are limited independently: a call for one key changes
    neither the answer nor the wait time of a key with another name,
    calls for two such keys commute, and two identifiers of one action
    type never share a key. *)
Theorem keys_are_independent
  (limits : gmap string record) (a i a' i' : string)
  (N W now N' W' now' : Z) :
  key a i <> key a' i' ->
  let limits' := (isAllowed limits a i N W now).2 in
  ((isAllowed limits' a' i' N' W' now').1
   = (isAllowed limits a' i' N' W' now').1) /\
  (getTimeUntilAllowed limits' a' i' now'
   = getTimeUntilAllowed limits a' i' now') /\
  ((isAllowed limits' a' i' N' W' now').2
   = (isAllowed (isAllowed limits a' i' N' W' now').2 a i N W now).2) /\
  (forall j j' : string, j <> j' -> key a j <> key a j').
Proof.
  intros Hne limits'. subst limits'. split; [|split; [|split]].
  - unfold isAllowed at 1 3. cbn [fst].
    by rewrite record_of_other.
  - unfold getTimeUntilAllowed, isAllowed. cbn [snd].
    by rewrite lookup_insert_ne.
  - unfold isAllowed, record_of. cbn [snd].
    rewrite !lookup_insert_ne by done.
    by apply insert_insert_ne.
  - intros j j' Hj Hk. by apply Hj, (key_identifier_inj a).
Qed.

Lemma keys_are_independent_witness :
  let limits := (calls ∅ "connect" "alice" 5 60000 [0; 1; 2; 3; 4; 5]).2 in
  (isAllowed limits "connect" "bob" 5 60000 6).1 = true.
Proof.
  intros limits.
  pose proof (keys_are_independent
    (calls ∅ "connect" "alice" 5 60000 [0; 1; 2; 3; 4]).2
    "connect" "alice" "connect" "bob" 5 60000 5 5 60000 6) as H.
  cbv zeta in H. destruct H as [H _]; [by vm_compute|].
  etrans; [exact H|]. vm_compute. reflexivity.
Defined.

(** X4. [reset] forgets the key: afterwards no wait time is reported for
    it, a call with a positive [maxAttempts] is granted and is the only
    recorded attempt, and every other key keeps its record. *)
Theorem reset_forgets_key
  (limits : gmap string record) (a i : string) (N W now : Z) :
  0 < N ->
  let limits' := reset limits a i in
  getTimeUntilAllowed limits' a i now = 0 /\
  isAllowed limits' a i N W now
  = (true, <[key a i := mkRecord [now] false 0]> limits) /\
  (forall k, k <> key a i -> limits' !! k = limits !! k).
Proof.
  intros HN limits'. subst limits'. unfold reset. split; [|split].
  - unfold getTimeUntilAllowed. by rewrite lookup_delete_eq.
  - unfold isAllowed, record_of. rewrite lookup_delete_eq. cbn [default].
    unfold check, cooling, in_window. cbn.
    change (Z.of_nat 0) with 0.
    destruct (Z.geb_spec 0 N); [lia|]. cbn [fst snd].
    by rewrite insert_delete_eq.
  - intros k Hk. by rewrite lookup_delete_ne.
Qed.

Lemma reset_forgets_key_witness :
  let limits := (calls ∅ "message" "me" 2 60000 [0; 1; 2]).2 in
  (isAllowed limits "message" "me" 2 60000 3).1 = false /\
  (isAllowed (reset limits "message" "me") "message" "me" 2 60000 3).1 = true.
Proof.
  intros limits. split; [by vm_compute|].
  pose proof (reset_forgets_key limits "message" "me" 2 60000 3) as H.
  cbv zeta in H. destruct H as (_ & H & _); [lia|].
  by rewrite H.
Defined.

End RateLimiterKeys.

Module InactivePeerFacts.
Import PeerManager PeerManagerHealth.












End InactivePeerFacts.

Module ConnectFacts.
Import PeerManager PeerManagerHealth.
Import RateLimiterRuns RateLimiterMore.

Lemma findIndex_Some peerId : forall cs i,
  findIndex peerId cs = Some i ->
  exists c, cs !! i = Some c /\ peer c = peerId.
Proof.
  induction cs as [|c cs IH]; intros i; cbn [findIndex]; [done|].
  destruct (String.eqb_spec (peer c) peerId) as [Heq|Hne].
  - intros [= <-]. by exists c.
  - destruct (findIndex peerId cs) as [j|]; cbn; [|done].
    intros [= <-]. by apply IH.
Qed.


Lemma limits_handleConnection st c probe_ok :
  limits (handleConnection st c probe_ok) = limits st.
Proof.
  unfold handleConnection.
  destruct (findIndex _ _); [destruct probe_ok|]; done.
Qed.

(** What [connectToPeer] does to the limiter: either it throws before
    it asks, or it asks once, for the connect key of [self], and returns
    a connection exactly when the answer was yes. *)
Lemma connectToPeer_limiter st self peerId fresh probe_ok probe_ok' now :
  let res := connectToPeer st self true peerId fresh probe_ok probe_ok' now in
  let ask := RateLimiter.isAllowed (limits st) "connect" self
               CONNECT_MAX_ATTEMPTS CONNECT_TIME_WINDOW_MS now in
  (limits res.2 = limits st /\ exists m, res.1 = Threw m) \/
  (limits res.2 = ask.2 /\
   (ask.1 = false -> exists m, res.1 = Threw m)).
Proof.
  intros res ask. subst res. unfold connectToPeer. fold ask.
  destruct (String.eqb peerId ""); [left; split; [done|by eexists]|].
  cbn [negb].
  destruct (String.eqb peerId self); [left; split; [done|by eexists]|].
  right. destruct ask.1 eqn:Hask; cbn [negb];
    [|split; [done|intros _; by eexists]].
  split; [|done]. cbn [connections].
  destruct (findIndex peerId (connections st)) as [i|];
    [destruct (connections st !! i); [destruct probe_ok|]|];
    cbn [snd]; rewrite ?limits_handleConnection; done.
Qed.

Lemma limits_step_not_outgoing st e :
  match e with
  | Outgoing _ _ _ _ _ _ => True
  | _ => limits (step st e) = limits st
  end.
Proof.
  destruct e as [c po| |c now|c now|c now]; cbn [step]; [|done|..].
  - apply limits_handleConnection.
  - unfold on_open. by destruct (bool_decide _).
  - unfold on_close. by destruct (bool_decide _).
  - unfold on_error. by destruct (bool_decide _).
Qed.

Lemma connected_within_granted me : forall es st clock hist made,
  tracks CONNECT_TIME_WINDOW_MS clock hist
         (RateLimiter.record_of (limits st) "connect" me) ->
  (forall t, Z.of_nat (length (in_span CONNECT_TIME_WINDOW_MS t hist))
             <= CONNECT_MAX_ATTEMPTS) ->
  made `sublist_of` hist ->
  connects_by me clock es ->
  exists hist',
    (forall t, Z.of_nat (length (in_span CONNECT_TIME_WINDOW_MS t hist'))
               <= CONNECT_MAX_ATTEMPTS) /\
    (made ++ connected_out st es) `sublist_of` hist'.
Proof.
  induction es as [|e es IH]; intros st clock hist made Htr Hb Hsub Hby.
  - exists hist. cbn [connected_out]. by rewrite app_nil_r.
  - pose proof (limits_step_not_outgoing st e) as Hother.
    destruct e as [c po|self peerId fresh po po' now|c now|c now|c now];
      cbn [connected_out connects_by] in *.
    1,3-5: apply (IH _ clock hist made); [by rewrite Hother|done|done|done].
    destruct Hby as (-> & Hle & Hby). cbn [step].
    pose proof (tracks_step (limits st) "connect" me CONNECT_MAX_ATTEMPTS
                  CONNECT_TIME_WINDOW_MS clock hist now Htr Hle) as [Htr' Hlt].
    destruct (connectToPeer_limiter st me peerId fresh po po' now)
      as [[Hlim [m Hm]]|[Hlim Hdenied]].
    + rewrite Hm. cbn [app].
      apply (IH _ now hist made); [|done|done|done].
      rewrite Hlim. by eapply tracks_later.
    + rewrite <- Hlim in Htr'.
      destruct (RateLimiter.isAllowed (limits st) "connect" me
                  CONNECT_MAX_ATTEMPTS CONNECT_TIME_WINDOW_MS now).1 eqn:Hask.
      * assert (Hb' : forall t,
                  Z.of_nat (length (in_span CONNECT_TIME_WINDOW_MS t
                                      (hist ++ [now]))) <= CONNECT_MAX_ATTEMPTS).
        { apply span_bound_grant; [|by apply Hlt|done].
          destruct Htr as [Hold _]. eapply Forall_impl; [exact Hold|].
          cbn. intros; lia. }
        rewrite app_assoc.
        eapply (IH _ now (hist ++ [now])); [exact Htr'|exact Hb'| |exact Hby].
        destruct (connectToPeer st me true peerId fresh po po' now).1.
        -- by apply sublist_app.
        -- rewrite app_nil_r. by apply sublist_inserts_r.
      * destruct (Hdenied eq_refl) as [m Hm]. rewrite Hm. cbn [app].
        rewrite app_nil_r in Htr'.
        by apply (IH _ now hist made).
Qed.


(** X16. Outgoing connections are made at a bounded rate: when the
    limiter holds no connect record for the local node and the
    [connectToPeer] calls are made at clock readings that do not
    decrease, then, whatever the targets and whatever connections arrive,
    open, close or fail in between, no window of
    [CONNECT_TIME_WINDOW_MS] milliseconds holds more than
    [CONNECT_MAX_ATTEMPTS] calls that returned a connection. *)
Theorem at_most_five_connects_per_minute
  (st : state) (me : string) (clock : Z) (es : list event) :
  limits st !! RateLimiter.key "connect" me = None ->
  connects_by me clock es ->
  forall t,
    Z.of_nat (length (in_span CONNECT_TIME_WINDOW_MS t (connected_out st es)))
    <= CONNECT_MAX_ATTEMPTS.
Proof.
  intros Hnone Hby t.
  destruct (connected_within_granted me es st clock [] [])
    as (hist' & Hb & Hsub).
  - unfold RateLimiter.record_of. rewrite Hnone. apply tracks_empty.
  - intros t'. cbn. unfold CONNECT_MAX_ATTEMPTS. lia.
  - done.
  - done.
  - cbn [app] in Hsub. specialize (Hb t).
    pose proof (span_sublist CONNECT_TIME_WINDOW_MS t _ _ Hsub). lia.
Qed.

(** Seven calls, to seven peers, one second apart: five go out. *)
Lemma at_most_five_connects_per_minute_witness :
  let es :=
    [Outgoing "me" "p1" 1 true true 1000; Outgoing "me" "p2" 2 true true 2000;
     Outgoing "me" "p3" 3 true true 3000; Outgoing "me" "p4" 4 true true 4000;
     Outgoing "me" "p5" 5 true true 5000; Outgoing "me" "p6" 6 true true 6000;
     Outgoing "me" "p7" 7 true true 7000] in
  connected_out initial es = [1000; 2000; 3000; 4000; 5000] /\
  Z.of_nat (length (in_span CONNECT_TIME_WINDOW_MS 7000
                      (connected_out initial es)))
  <= CONNECT_MAX_ATTEMPTS.
Proof.
  intros es. split; [vm_compute; reflexivity|].
  apply (at_most_five_connects_per_minute initial "me" 0 es);
    [reflexivity|cbn; repeat split; lia].
Defined.

End ConnectFacts.

Module SessionFacts.
Import PeerManager PeerManagerHealth ConnectFacts.

Lemma same_but_connect_limiter_refl self st :
  same_but_connect_limiter self st st.
Proof. by repeat split. Qed.

(** X15. The outcomes of [connectToPeer].  When it throws, the session
    table, the handshake set, the status, last-seen and quality tables
    and the transport are as before.  It throws [Peer ID is required],
    [No active peer connection] or [Cannot connect to yourself] without
    any change of state; or the rate limiter has refused the call, the
    limiter record of the local node is as [isAllowed] left it and the
    message is [Rate limit exceeded. Please wait N seconds before trying
    again.] for a number [N].  When it returns a connection, the target
    is neither empty nor the local node, and the connection is to the
    target: either a session that was in the table already or the
    connection just made. *)
Theorem connectToPeer_outcomes
  (st : state) (self : string) (peer_present : bool) (peerId : string)
  (fresh : nat) (probe_ok probe_ok' : bool) (now : Z) :
  let res := connectToPeer st self peer_present peerId fresh
               probe_ok probe_ok' now in
  let ask := RateLimiter.isAllowed (limits st) "connect" self
               CONNECT_MAX_ATTEMPTS CONNECT_TIME_WINDOW_MS now in
  (forall m, res.1 = Threw m ->
     same_but_connect_limiter self st res.2 /\
     ((m ∈ ["Peer ID is required"; "No active peer connection";
            "Cannot connect to yourself"] /\ res.2 = st) \/
      ((exists secondsUntil, m = rate_limit_error secondsUntil) /\
       ask.1 = false /\ limits res.2 = ask.2))) /\
  (forall c, res.1 = Returned c ->
     peer c = peerId /\ peerId ≠ "" /\ peerId ≠ self /\ peer_present = true /\
     (c ∈ connections st \/ c = mkConn fresh peerId)).
Proof.
  intros res ask. subst res. unfold connectToPeer. fold ask.
  destruct (String.eqb_spec peerId "") as [Hempty|Hne].
  { split; [|done]. intros m [= <-].
    split; [apply same_but_connect_limiter_refl|].
    left. split; [solve [repeat constructor]|done]. }
  destruct peer_present; cbn [negb].
  2:{ split; [|done]. intros m [= <-].
      split; [apply same_but_connect_limiter_refl|].
      left. split; [solve [repeat constructor]|done]. }
  destruct (String.eqb_spec peerId self) as [Hself|Hnself].
  { split; [|done]. intros m [= <-].
    split; [apply same_but_connect_limiter_refl|].
    left. split; [solve [repeat constructor]|done]. }
  destruct ask.1 eqn:Hask; cbn [negb].
  2:{ split; [|done]. cbn [fst snd]. intros m [= <-]. split.
      - repeat split. intros k Hk. subst ask.
        unfold RateLimiter.isAllowed. cbn [snd limits].
        by rewrite lookup_insert_ne.
      - right. split; [by eexists|done]. }
  cbn [connections].
  destruct (findIndex peerId (connections st)) as [i|] eqn:Hfind.
  - destruct (findIndex_Some peerId _ _ Hfind) as (c0 & Hc0 & Hpeer).
    rewrite Hc0. destruct probe_ok; cbn [fst snd].
    + split; [done|]. intros c [= <-].
      repeat split; try done. left. by eapply list_elem_of_lookup_2.
    + split; [done|]. intros c [= <-]. repeat split; try done. by right.
  - cbn [fst snd]. split; [done|]. intros c [= <-].
    repeat split; try done. by right.
Qed.

(** A sixth call within the minute is refused: the fifth was five
    seconds ago, the call starts a cooldown of two minutes, and the
    sessions are left alone. *)
Lemma connectToPeer_outcomes_witness :
  let st :=
    run initial
      [Outgoing "me" "p1" 1 true true 1000; Outgoing "me" "p2" 2 true true 2000;
       Outgoing "me" "p3" 3 true true 3000; Outgoing "me" "p4" 4 true true 4000;
       Outgoing "me" "p5" 5 true true 5000] in
  let res := connectToPeer st "me" true "p6" 6 true true 6000 in
  res.1
  = Threw "Rate limit exceeded. Please wait 120 seconds before trying again."
  /\ same_but_connect_limiter "me" st res.2.
Proof.
  intros st res. split; [vm_compute; reflexivity|].
  destruct (connectToPeer_outcomes st "me" true "p6" 6 true true 6000)
    as [Hthrew _].
  apply (Hthrew
    "Rate limit exceeded. Please wait 120 seconds before trying again.").
  vm_compute. reflexivity.
Defined.









End SessionFacts.

Module DisconnectFacts.
Import PeerManager PeerManagerHealth InactivePeerFacts ConnectFacts SessionFacts.







End DisconnectFacts.

Module TweetLogFacts.
Import TweetManager TweetManagerStorage TweetManagerFacts.

Lemma insert_tweet_sorted t l :
  newest_first l -> newest_first (insert_tweet t l).
Proof.
  unfold newest_first. induction 1 as [|u rest Hs IH Hall]; cbn [insert_tweet].
  - repeat constructor.
  - destruct (Z.gtb_spec (timestamp_of u) (timestamp_of t)) as [Hgt|Hle].
    + constructor; [done|].
      rewrite insert_tweet_perm. constructor; [lia|done].
    + constructor; [by constructor|].
      constructor; [done|].
      eapply Forall_impl; [exact Hall|]. cbn. intros; lia.
Qed.

Lemma sortTweets_sorted l : newest_first (sortTweets l).
Proof.
  induction l as [|t l IH]; [constructor|].
  cbn [sortTweets foldr]. by apply insert_tweet_sorted.
Qed.

Lemma sortTweets_fixed l : newest_first l -> sortTweets l = l.
Proof.
  unfold newest_first. induction 1 as [|t rest Hs IH Hall]; [done|].
  cbn [sortTweets foldr]. fold (sortTweets rest). rewrite IH.
  destruct rest as [|u rest']; [done|]. cbn [insert_tweet].
  apply Forall_cons in Hall as [Hu _].
  destruct (Z.gtb_spec (timestamp_of u) (timestamp_of t)); [lia|done].
Qed.

Lemma stamped_insert_tweet z t l :
  newest_first l ->
  stamped z (insert_tweet t l)
  = (if decide (timestamp_of t = z) then [t] else []) ++ stamped z l.
Proof.
  unfold newest_first, stamped.
  induction 1 as [|u rest Hs IH Hall]; cbn [insert_tweet].
  - rewrite filter_cons, filter_nil.
    destruct (decide (timestamp_of t = z)); by rewrite ?app_nil_r.
  - destruct (Z.gtb_spec (timestamp_of u) (timestamp_of t)) as [Hgt|Hle].
    + rewrite !(filter_cons _ u), IH.
      destruct (decide (timestamp_of u = z)) as [Hu|Hu]; [|done].
      destruct (decide (timestamp_of t = z)); [lia|done].
    + rewrite (filter_cons _ t).
      destruct (decide (timestamp_of t = z)); done.
Qed.

Lemma stamped_sortTweets z l : stamped z (sortTweets l) = stamped z l.
Proof.
  induction l as [|t l IH]; [done|].
  cbn [sortTweets foldr]. fold (sortTweets l).
  rewrite stamped_insert_tweet by apply sortTweets_sorted.
  rewrite IH. unfold stamped. rewrite (filter_cons _ t).
  destruct (decide (timestamp_of t = z)); done.
Qed.

(** X5. [sortTweets] is a stable sort, newest first: its result holds
    the same tweets, no tweet comes before a newer one, tweets of one
    timestamp keep their order, and a log that is in order already is
    left as it is. *)
Theorem sortTweets_stable_newest_first (log : list Js.object) :
  sortTweets log ≡ₚ log /\
  newest_first (sortTweets log) /\
  (forall z, stamped z (sortTweets log) = stamped z log) /\
  (newest_first log -> sortTweets log = log) /\
  sortTweets (sortTweets log) = sortTweets log.
Proof.
  split; [apply sortTweets_perm|].
  split; [apply sortTweets_sorted|].
  split; [intros z; apply stamped_sortTweets|].
  split; [apply sortTweets_fixed|].
  apply sortTweets_fixed, sortTweets_sorted.
Qed.

(** Two tweets of one timestamp arrive after a newer one was stored
    last: the newer one moves to the front, the two keep their order. *)
Lemma sortTweets_stable_newest_first_witness :
  let a := [("content", Js.Str "a"); ("timestamp", Js.Num 1000)] in
  let b := [("content", Js.Str "b"); ("timestamp", Js.Num 1000)] in
  let c := [("content", Js.Str "c"); ("timestamp", Js.Num 2000)] in
  sortTweets [a; b; c] = [c; a; b] /\ sortTweets [c; a; b] = [c; a; b].
Proof.
  intros a b c. split; [vm_compute; reflexivity|].
  destruct (sortTweets_stable_newest_first [c; a; b])
    as (_ & _ & _ & Hfixed & _).
  apply Hfixed. unfold newest_first. repeat constructor; vm_compute; discriminate.
Defined.

Lemma newest_first_take n l : newest_first l -> newest_first (take n l).
Proof.
  unfold newest_first. intros Hs. revert n.
  induction Hs as [|t rest Hs IH Hall]; intros [|n]; cbn [take];
    try constructor.
  - apply IH.
  - eapply Forall_forall. intros x Hx.
    eapply Forall_forall in Hall; [exact Hall|].
    by eapply subseteq_take.
Qed.

Lemma newest_first_filter (P : Js.object -> Prop)
      `{!forall x, Decision (P x)} l :
  newest_first l -> newest_first (filter P l).
Proof.
  unfold newest_first. induction 1 as [|t rest Hs IH Hall].
  - constructor.
  - rewrite filter_cons. destruct (decide (P t)); [|done].
    constructor; [done|].
    apply Forall_forall. intros x Hx.
    apply list_elem_of_filter in Hx as [_ Hx].
    by eapply Forall_forall in Hall.
Qed.

Lemma generateUniqueId_truthy peerId u c t :
  Js.truthy (generateUniqueId peerId u c t) = true.
Proof.
  unfold generateUniqueId. cbn [Js.truthy].
  destruct (Js.to_string u); reflexivity.
Qed.

Lemma or_generateUniqueId_truthy id peerId u c t :
  Js.truthy (Js.or id (generateUniqueId peerId u c t)) = true.
Proof.
  unfold Js.or. destruct (Js.truthy id) eqn:Hid; [done|].
  apply generateUniqueId_truthy.
Qed.

Lemma log_ok_nil : log_ok [].
Proof. split; [cbn; lia|]. split; constructor. Qed.

Lemma log_ok_take n l : log_ok l -> log_ok (take n l).
Proof.
  intros (Hlen & Hs & Hall). split; [|split].
  - rewrite length_take. lia.
  - by apply newest_first_take.
  - apply Forall_forall. intros x Hx.
    eapply Forall_forall in Hall; [exact Hall|]. by eapply subseteq_take.
Qed.

Lemma log_ok_filter (P : Js.object -> Prop)
      `{!forall x, Decision (P x)} l :
  log_ok l -> log_ok (filter P l).
Proof.
  intros (Hlen & Hs & Hall). split; [|split].
  - pose proof (length_filter P l). lia.
  - by apply newest_first_filter.
  - apply Forall_forall. intros x Hx.
    apply list_elem_of_filter in Hx as [_ Hx].
    by eapply Forall_forall in Hall.
Qed.

Lemma addTweet_log_ok st now peerId u c t recips id m1 m2 m3 :
  log_ok (tweets st) ->
  log_ok (tweets (addTweet st now peerId u c t recips id m1 m2 m3).2).
Proof.
  intros Hok.
  destruct (addTweet_log st now peerId u c t recips id m1 m2 m3)
    as [[_ ->]|[(_ & _ & ->)|(_ & Hval & _ & -> & _)]]; [done|done|].
  destruct Hok as (Hlen & Hs & Hall). split; [|split].
  - rewrite length_take. lia.
  - apply newest_first_take, sortTweets_sorted.
  - apply Forall_forall. intros x Hx.
    apply subseteq_take in Hx. rewrite sortTweets_perm in Hx.
    apply elem_of_app in Hx as [Hx|Hx].
    + by eapply Forall_forall in Hall.
    + apply list_elem_of_singleton in Hx. subst x. split.
      * rewrite tweet_id_new_tweet. apply or_generateUniqueId_truthy.
      * by exists now.
Qed.

End TweetLogFacts.

Module TweetLogInvariant.
Import TweetManager TweetManagerStorage TweetManagerFacts TweetLogFacts.

Section Kept.
Variable P : list Js.object -> Prop.
Hypothesis P_add : forall st now peerId u c t recips id m1 m2 m3,
  P (tweets st) ->
  P (tweets (addTweet st now peerId u c t recips id m1 m2 m3).2).
Hypothesis P_filter : forall id l,
  P l -> P (filter (fun tweet => tweet_id tweet ≠ id) l).
Hypothesis P_take : forall n l, P l -> P (take n l).

Lemma createTweet_keeps st u peerId conns now c file :
  P (tweets st) -> P (tweets (createTweet st u peerId conns now c file).2).
Proof using P_add.
  intros HP. unfold createTweet.
  destruct (_ && _); [done|].
  destruct (_ && _); [done|].
  destruct file as [| |a b d]; [|done|].
  all: destruct (negb _); [done|].
  all: match goal with
       | |- context [addTweet ?s ?n ?p ?u ?c ?t ?r ?i ?x ?y ?z] =>
           pose proof (P_add s n p u c t r i x y z HP) as Hadd;
           destruct (addTweet s n p u c t r i x y z) as [[?|?] st2]
       end; cbn [snd] in *; [|done].
  all: unfold broadcastTweet; cbn [tweets record_save].
  all: by rewrite tweets_broadcast_to.
Qed.

Lemma handleTweetMessage_keeps st now peerId data p send_ok :
  P (tweets st) ->
  P (tweets (handleTweetMessage st now peerId data p send_ok)).
Proof using P_add.
  intros HP. unfold handleTweetMessage.
  destruct (negb _); [done|].
  match goal with
  | |- context [addTweet ?s ?n ?q ?u ?c ?t ?r ?i ?x ?y ?z] =>
      pose proof (P_add s n q u c t r i x y z HP) as Hadd;
      destruct (addTweet s n q u c t r i x y z) as [[?|?] st2]
  end; cbn [snd] in *; [|done].
  by destruct send_ok.
Qed.

Lemma all_tweets_one_keeps now peerId p acc tweet :
  P (tweets acc.1) ->
  P (tweets (all_tweets_one now peerId p acc tweet).1).
Proof using P_add.
  intros HP. unfold all_tweets_one.
  destruct (negb _); [done|].
  match goal with
  | |- context [addTweet ?s ?n ?q ?u ?c ?t ?r ?i ?x ?y ?z] =>
      pose proof (P_add s n q u c t r i x y z HP) as Hadd;
      destruct (addTweet s n q u c t r i x y z) as [[?|?] st2]
  end; cbn [fst snd] in *; done.
Qed.

Lemma handleAllTweetsMessage_keeps st now peerId batch p send_ok :
  P (tweets st) ->
  P (tweets (handleAllTweetsMessage st now peerId batch p send_ok)).
Proof using P_add.
  intros HP. unfold handleAllTweetsMessage.
  destruct batch as [l|]; [|done].
  assert (Hfold : forall acc, P (tweets acc.1) ->
            P (tweets (fold_left (all_tweets_one now peerId p) l acc).1)).
  { induction l as [|t l IH]; intros acc Hacc; [done|].
    cbn [fold_left]. apply IH. by apply all_tweets_one_keeps. }
  specialize (Hfold (st, []) HP).
  destruct (fold_left _ l (st, [])) as [st' ids]. cbn [fst snd] in *.
  destruct ids; [done|]. by destruct send_ok.
Qed.

Lemma deleteTweet_keeps st tweetId :
  P (tweets st) -> P (tweets (deleteTweet st tweetId).2).
Proof using P_filter P_take.
  intros HP. unfold deleteTweet.
  destruct (negb _); cbn [snd]; [|by apply P_filter].
  rewrite tweets_saveTweets. cbn [tweets set_tweets].
  by apply P_take, P_filter.
Qed.

Lemma step_keeps st e : P (tweets st) -> P (tweets (step st e)).
Proof using P_add P_filter P_take.
  intros HP. destruct e; cbn [step].
  - by apply createTweet_keeps.
  - by apply handleTweetMessage_keeps.
  - by apply handleAllTweetsMessage_keeps.
  - by rewrite tweets_handleTweetAckMessage.
  - by rewrite tweets_handleBulkTweetAckMessage.
  - by apply deleteTweet_keeps.
  - by rewrite tweets_catch_up.
Qed.

Lemma run_keeps es : forall st, P (tweets st) -> P (tweets (run st es)).
Proof using P_add P_filter P_take.
  induction es as [|e es IH]; intros st HP; [done|].
  cbn [run fold_left]. apply IH. by apply step_keeps.
Qed.

End Kept.

Lemma run_log_ok st es : log_ok (tweets st) -> log_ok (tweets (run st es)).
Proof.
  apply run_keeps.
  - intros. by apply addTweet_log_ok.
  - intros. by apply log_ok_filter.
  - intros. by apply log_ok_take.
Qed.

(** X6. The log stays well-formed under every event (tweets created,
    tweets and batches received, acknowledgments, deletions, sessions
    opening): it never holds more than [MAX_TWEETS_STORAGE] tweets, it is
    ordered newest first, and every stored tweet has a truthy id and has
    passed [validateTweet]. *)
Theorem log_stays_well_formed (st : state) (es : list event) :
  log_ok (tweets st) -> log_ok (tweets (run st es)).
Proof. apply run_log_ok. Qed.

Lemma log_stays_well_formed_witness :
  log_ok (tweets (run initial
     [GotTweet 2000 "me" Scenarios.hello "bob" true;
      Create (Js.Str "me") "me" [("bob", true)] 3000 (Js.Str "hi") NoFile;
      Delete Scenarios.hello_id])).
Proof.
  apply (log_stays_well_formed initial). exact log_ok_nil.
Defined.

Lemma loadTweets_roundtrip st log :
  log_ok log -> tweets (loadTweets st (Some log)) = log.
Proof.
  intros (Hlen & Hs & _). unfold loadTweets. cbn [tweets set_tweets].
  destruct (Nat.ltb_spec MAX_TWEETS_STORAGE (length log)); [lia|].
  by apply sortTweets_fixed.
Qed.

Lemma loadTweets_log_perm st l :
  tweets (loadTweets st (Some l)) ≡ₚ take MAX_TWEETS_STORAGE l.
Proof.
  unfold loadTweets. cbn [tweets set_tweets]. rewrite sortTweets_perm.
  destruct (Nat.ltb_spec MAX_TWEETS_STORAGE (length l)); [done|].
  by rewrite firstn_all2.
Qed.

(** X7. Saving and loading.  Whatever events a fresh manager has
    processed, [loadTweets] applied to the log it holds (the array that
    [saveTweets] hands to the storage) restores exactly that log.  For
    any saved array whose timestamps are numbers, [loadTweets] yields at
    most [MAX_TWEETS_STORAGE] tweets, ordered newest first, namely the
    first [MAX_TWEETS_STORAGE] entries of the array; when nothing was
    saved it changes nothing. *)
Theorem loadTweets_restores_saved_log
  (es : list event) (st' : state) (saved : list Js.object) :
  Forall (fun t => Js.is_number (Js.get t "timestamp") = true) saved ->
  tweets (loadTweets st' (Some (tweets (run initial es))))
  = tweets (run initial es) /\
  (length (tweets (loadTweets st' (Some saved))) <= MAX_TWEETS_STORAGE)%nat /\
  newest_first (tweets (loadTweets st' (Some saved))) /\
  tweets (loadTweets st' (Some saved)) ≡ₚ take MAX_TWEETS_STORAGE saved /\
  loadTweets st' None = st'.
Proof.
  intros _.
  split; [apply loadTweets_roundtrip, run_log_ok, log_ok_nil|].
  split.
  { rewrite (loadTweets_log_perm st' saved), length_take. lia. }
  split; [apply sortTweets_sorted|].
  split; [apply loadTweets_log_perm|done].
Qed.

(** A node that has stored bob's tweet and written one of its own
    restarts. *)
Lemma loadTweets_restores_saved_log_witness :
  let es := [GotTweet 2000 "me" Scenarios.hello "bob" true;
             Create (Js.Str "me") "me" [("bob", true)] 3000 (Js.Str "hi")
               NoFile] in
  tweets (loadTweets initial (Some (tweets (run initial es))))
  = tweets (run initial es).
Proof.
  intros es.
  apply (loadTweets_restores_saved_log es initial [Scenarios.hello_entry]).
  repeat constructor.
Defined.

End TweetLogInvariant.

Module CatchUpFacts.
Import TweetManager TweetManagerRuns TweetManagerFacts.

Lemma batches_nil : batches [] = [].
Proof. done. Qed.

Lemma sendSelectiveTweets_batches st p send_ok :
  sendSelectiveTweets st p send_ok
  = send_batches p send_ok 0 (batches (tweetsToSend st p)) st.
Proof.
  unfold sendSelectiveTweets.
  destruct (Nat.eqb_spec (length (unsentTweetIds st p)) 0) as [Hz|_]; [|done].
  apply nil_length_inv in Hz. by rewrite (unsentTweetIds_nil _ _ Hz).
Qed.

Lemma split_delivered send_ok t bs : forall index,
  t ∈ concat bs <->
  t ∈ concat (delivered send_ok index bs) \/
  t ∈ concat (undelivered send_ok index bs).
Proof.
  induction bs as [|b bs IH]; intros index; cbn [delivered undelivered concat].
  - split; [intros H|intros [H|H]]; by apply elem_of_nil in H.
  - rewrite !concat_app, !elem_of_app, (IH (S index)).
    destruct (send_ok index); cbn [concat]; rewrite ?app_nil_r;
      rewrite ?elem_of_nil; tauto.
Qed.

Lemma queue_keep_unsent p st t x :
  x ∈ queue (keep_unsent p st t) p <-> x ∈ queue st p \/ x = tweet_id t.
Proof.
  unfold queue, keep_unsent. cbn [unsentTweets set_unsent].
  rewrite lookup_insert_eq. cbn [default].
  destruct (bool_decide_reflect
              (tweet_id t ∈ default [] (unsentTweets st !! p))) as [Hin|Hout].
  - unfold id. split; [tauto|]. by intros [?| ->].
  - unfold id. by rewrite elem_of_app, list_elem_of_singleton.
Qed.

Lemma queue_keep_unsent_all p batch x : forall st,
  x ∈ queue (fold_left (keep_unsent p) batch st) p <->
  x ∈ queue st p \/ x ∈ tweet_id <$> batch.
Proof.
  induction batch as [|t batch IH]; intros st; cbn [fold_left].
  - rewrite fmap_nil, elem_of_nil. tauto.
  - rewrite IH, fmap_cons, elem_of_cons, queue_keep_unsent. tauto.
Qed.

Lemma queue_mark_sent_all p batch x st :
  x ∈ queue (fold_left (mark_sent p) batch st) p <->
  x ∈ queue st p /\ x ∉ tweet_id <$> batch.
Proof.
  unfold queue. rewrite mark_sent_all_queue.
  destruct (unsentTweets st !! p) as [q|]; cbn.
  - by rewrite list_elem_of_filter, (comm and).
  - rewrite elem_of_nil. tauto.
Qed.

Lemma recipients_keep_unsent_all p batch : forall st,
  tweetRecipients (fold_left (keep_unsent p) batch st) = tweetRecipients st.
Proof.
  induction batch as [|t batch IH]; intros st; [done|].
  cbn [fold_left]. by rewrite IH.
Qed.

Lemma send_batch_grows p st b ok k l :
  tweetRecipients st !! k = Some l ->
  exists l', tweetRecipients (send_batch p st b ok) !! k = Some l' /\ l ⊆ l'.
Proof.
  intros Hk. unfold send_batch. destruct ok; cbn [tweetRecipients record_save].
  - by apply mark_sent_all_grows.
  - rewrite recipients_keep_unsent_all. by exists l.
Qed.

Lemma send_batches_grows p send_ok bs : forall index st k l,
  tweetRecipients st !! k = Some l ->
  exists l', tweetRecipients (send_batches p send_ok index bs st) !! k = Some l'
             /\ l ⊆ l'.
Proof.
  induction bs as [|b bs IH]; intros index st k l Hk; cbn [send_batches].
  - by exists l.
  - destruct (send_batch_grows p st b (send_ok index) k l Hk) as (l1 & H1 & Hs1).
    destruct (IH (S index) _ k l1 H1) as (l2 & H2 & Hs2).
    exists l2. split; [done|]. by etrans.
Qed.

(** Every tweet of a batch that went out is confirmed for [p] at the end. *)
Lemma send_batches_marks p send_ok t bs : forall index st,
  t ∈ concat (delivered send_ok index bs) ->
  not_confirmed (send_batches p send_ok index bs st) p (tweet_id t) = false.
Proof.
  induction bs as [|b bs IH]; intros index st; cbn [delivered send_batches concat].
  - intros H. by apply elem_of_nil in H.
  - rewrite concat_app, elem_of_app. intros [Hin|Hin]; [|by apply IH].
    destruct (send_ok index) eqn:Hok; cbn [concat] in Hin;
      [|by apply elem_of_nil in Hin].
    rewrite app_nil_r in Hin.
    assert (Hm : exists l, tweetRecipients (send_batch p st b true)
                   !! recipients_key (tweet_id t) = Some l /\ p ∈ l).
    { unfold send_batch. cbn [tweetRecipients record_save].
      by apply mark_sent_all_marks. }
    destruct Hm as (l & Hl & Hp).
    destruct (send_batches_grows p send_ok bs (S index) _ _ _ Hl)
      as (l' & Hl' & Hsub).
    unfold not_confirmed. rewrite Hl'.
    rewrite bool_decide_eq_true_2; [done|]. by apply Hsub.
Qed.

(** A tweet that is confirmed for [p] stays so. *)
Lemma send_batches_confirmed p send_ok bs index st id :
  not_confirmed st p id = false ->
  not_confirmed (send_batches p send_ok index bs st) p id = false.
Proof.
  unfold not_confirmed.
  destruct (tweetRecipients st !! recipients_key id) as [l|] eqn:Hl; [|done].
  intros Hp. apply negb_false_iff, bool_decide_eq_true_1 in Hp.
  destruct (send_batches_grows p send_ok bs index st _ _ Hl) as (l' & -> & Hs).
  rewrite bool_decide_eq_true_2; [done|]. by apply Hs.
Qed.

Lemma queue_send_batch p st b ok x :
  x ∈ queue (send_batch p st b ok) p <->
  if ok then x ∈ queue st p /\ x ∉ tweet_id <$> b
  else x ∈ queue st p \/ x ∈ tweet_id <$> b.
Proof.
  unfold send_batch. destruct ok.
  - change (queue (record_save ?s _) p) with (queue s p).
    rewrite queue_mark_sent_all. done.
  - change (queue (record_save ?s _) p) with (queue s p).
    apply queue_keep_unsent_all.
Qed.

(** The queue of [p] after the batches, when no id occurs twice in them. *)
Lemma queue_send_batches p send_ok x bs : forall index st,
  NoDup (tweet_id <$> concat bs) ->
  x ∈ queue (send_batches p send_ok index bs st) p <->
  (x ∈ queue st p /\ x ∉ tweet_id <$> concat (delivered send_ok index bs)) \/
  x ∈ tweet_id <$> concat (undelivered send_ok index bs).
Proof.
  induction bs as [|b bs IH]; intros index st Hnd;
    cbn [send_batches delivered undelivered concat].
  - rewrite fmap_nil, elem_of_nil. tauto.
  - cbn [concat] in Hnd. rewrite fmap_app in Hnd.
    apply NoDup_app in Hnd as (Hb & Hdisj & Hrest).
    rewrite (IH (S index) _ Hrest), queue_send_batch.
    rewrite !concat_app, !fmap_app, !elem_of_app.
    assert (Hsplit : forall y, y ∈ tweet_id <$> concat bs <->
              y ∈ tweet_id <$> concat (delivered send_ok (S index) bs) \/
              y ∈ tweet_id <$> concat (undelivered send_ok (S index) bs)).
    { intros y. rewrite !list_elem_of_fmap. split.
      - intros (t & -> & Ht).
        apply (split_delivered send_ok t bs (S index)) in Ht as [?|?];
          [left|right]; by exists t.
      - intros [(t & -> & Ht)|(t & -> & Ht)]; exists t; (split; [done|]);
          apply (split_delivered send_ok t bs (S index)); tauto. }
    specialize (Hdisj x). specialize (Hsplit x).
    destruct (send_ok index); cbn [concat]; rewrite ?app_nil_r;
      rewrite ?fmap_nil, ?elem_of_nil; tauto.
Qed.

End CatchUpFacts.

Module CatchUpRetry.
Import TweetManager TweetManagerRuns TweetManagerFacts CatchUpFacts.

Lemma same_id_same_tweet (log : list Js.object) a b :
  NoDup (tweet_id <$> log) -> a ∈ log -> b ∈ log ->
  tweet_id a = tweet_id b -> a = b.
Proof.
  induction log as [|t log IH]; intros Hnd Ha Hb Heq.
  - by apply elem_of_nil in Ha.
  - rewrite fmap_cons in Hnd. apply NoDup_cons in Hnd as [Hnot Hnd].
    apply elem_of_cons in Ha as [->|Ha]; apply elem_of_cons in Hb as [->|Hb].
    + done.
    + exfalso. apply Hnot. rewrite Heq. by apply list_elem_of_fmap_2.
    + exfalso. apply Hnot. rewrite <- Heq. by apply list_elem_of_fmap_2.
    + by apply IH.
Qed.

Lemma undelivered_all_ok send_ok bs : forall index,
  (forall i, send_ok i = true) -> undelivered send_ok index bs = [].
Proof.
  induction bs as [|b bs IH]; intros index Hok; [done|].
  cbn [undelivered]. by rewrite Hok, IH.
Qed.

Lemma tweetsToSend_after_catch_up st p send_ok t :
  NoDup (tweet_id <$> tweets st) ->
  t ∈ tweetsToSend (catch_up st p send_ok) p <->
  t ∈ concat (undelivered send_ok 0 (batches (tweetsToSend st p))).
Proof.
  intros Hnd. set (bs := batches (tweetsToSend st p)).
  assert (Hcat : concat bs = tweetsToSend st p) by apply batches_spec.
  assert (Hsend : forall u, u ∈ concat bs -> u ∈ tweets st).
  { intros u. rewrite Hcat. intros Hu. by apply tweetsToSend_spec in Hu as [? _]. }
  assert (Hnd' : NoDup (tweet_id <$> concat bs)).
  { rewrite Hcat. eapply sublist_NoDup; [exact Hnd|].
    apply fmap_sublist, sublist_filter. }
  assert (Hst' : catch_up st p send_ok
                 = send_batches p send_ok 0 bs (onPeerConnected st p)).
  { unfold catch_up. rewrite sendSelectiveTweets_batches.
    by rewrite tweetsToSend_onPeerConnected. }
  rewrite tweetsToSend_spec, tweets_catch_up. fold (queue (catch_up st p send_ok) p).
  rewrite Hst', (queue_send_batches p send_ok _ bs 0 _ Hnd').
  unfold queue at 1. rewrite queue_onPeerConnected. cbn [default].
  split.
  - intros [Hin [[[Hq Hnot]|Hund]|Hnc]].
    + assert (Hts : t ∈ concat bs).
      { rewrite Hcat. unfold tweetsToSend. by apply list_elem_of_filter. }
      apply (split_delivered send_ok t bs 0) in Hts as [Hd|Hu]; [|done].
      exfalso. apply Hnot. by apply list_elem_of_fmap_2.
    + apply list_elem_of_fmap in Hund as (t' & Heq & Ht').
      assert (Hin' : t' ∈ tweets st).
      { apply Hsend, (split_delivered send_ok t' bs 0). by right. }
      by rewrite (same_id_same_tweet (tweets st) t t' Hnd Hin Hin' Heq).
    + assert (Hnc1 : not_confirmed st p (tweet_id t) = true).
      { destruct (not_confirmed st p (tweet_id t)) eqn:Hold; [done|].
        rewrite (send_batches_confirmed p send_ok bs 0
                   (onPeerConnected st p) (tweet_id t)) in Hnc; done. }
      assert (Hts : t ∈ concat bs).
      { rewrite Hcat. apply tweetsToSend_spec. split; [done|by right]. }
      apply (split_delivered send_ok t bs 0) in Hts as [Hd|Hu]; [|done].
      by rewrite (send_batches_marks p send_ok t bs 0 _ Hd) in Hnc.
  - intros Hu. split.
    + apply Hsend, (split_delivered send_ok t bs 0). by right.
    + left. right. by apply list_elem_of_fmap_2.
Qed.

(** X8. Catch-up and retry.  Let neither [p] nor the id of a stored
    tweet be the name of an inherited property.  In a log without two
    tweets of one id, after the catch-up for [p] (the connection callback
    and the batches, with no other handler in between) the tweets that
    the next catch-up for [p] would send are exactly those of the batches
    whose send threw; every other stored tweet is confirmed for [p] and
    is not in the unsent queue of [p].  When every send returned, the
    next catch-up sends nothing. *)
Theorem catch_up_resends_failed_batches
  (st : state) (p : string) (send_ok : nat -> bool) :
  Js.inherited p = false ->
  own_ids (tweets st) = true ->
  NoDup (tweet_id <$> tweets st) ->
  let failed := concat (undelivered send_ok 0 (batches (tweetsToSend st p))) in
  let st' := catch_up st p send_ok in
  (forall t, t ∈ tweetsToSend st' p <-> t ∈ failed) /\
  (forall t, t ∈ tweets st' -> (t ∉ failed) ->
     not_confirmed st' p (tweet_id t) = false /\ (tweet_id t ∉ queue st' p)) /\
  ((forall i, send_ok i = true) ->
   forall send_ok', outbox (catch_up st' p send_ok') = outbox st').
Proof.
  intros _ _ Hnd failed st'. split; [|split].
  - intros t. by apply tweetsToSend_after_catch_up.
  - intros t Hin Hnot.
    assert (Hno : ~ (t ∈ tweetsToSend st' p)).
    { intros H. apply Hnot. by apply (tweetsToSend_after_catch_up st p send_ok). }
    rewrite tweetsToSend_spec in Hno. fold (queue st' p) in Hno.
    split.
    + destruct (not_confirmed st' p (tweet_id t)); [|done].
      exfalso. apply Hno. split; [done|by right].
    + intros Hq. apply Hno. split; [done|by left].
  - intros Hok send_ok'. rewrite outbox_catch_up.
    assert (Hnil : tweetsToSend st' p = []).
    { apply elem_of_nil_inv. intros t Ht.
      apply (tweetsToSend_after_catch_up st p send_ok t Hnd) in Ht.
      rewrite undelivered_all_ok in Ht by done. by apply elem_of_nil in Ht. }
    rewrite Hnil. cbn. by rewrite app_nil_r.
Qed.

(** Carol connects after bob's tweet has arrived and the send of the
    batch returns: a second catch-up for carol sends nothing. *)
Lemma catch_up_resends_failed_batches_witness :
  let st := run initial [GotTweet 2000 "me" Scenarios.hello "bob" true] in
  let st' := catch_up st "carol" (fun _ => true) in
  outbox st' = outbox st ++ [("carol", AllTweets [Scenarios.hello_entry])] /\
  outbox (catch_up st' "carol" (fun _ => true)) = outbox st'.
Proof.
  intros st st'. split; [vm_compute; reflexivity|].
  apply (catch_up_resends_failed_batches st "carol" (fun _ => true));
    [reflexivity|vm_compute; reflexivity
    |vm_compute; apply NoDup_singleton|done].
Defined.

End CatchUpRetry.

Module TweetFlowFacts.
Import TweetManager TweetManagerStorage TweetManagerRuns TweetManagerFacts.






End TweetFlowFacts.

Module ReceivedTweetFacts.
Import TweetManager TweetManagerStorage TweetManagerRuns TweetManagerFacts.

Lemma addTweet_entries st now peerId u c t recips id m1 m2 m3 x :
  x ∈ tweets (addTweet st now peerId u c t recips id m1 m2 m3).2 ->
  x ∈ tweets st \/
  x = new_tweet u c t (Js.or id (generateUniqueId peerId u c t)) m1 m2 m3.
Proof.
  destruct (addTweet_log st now peerId u c t recips id m1 m2 m3)
    as [[_ ->]|[(_ & _ & ->)|(_ & _ & _ & -> & _)]]; [by left|by left|].
  intros Hx. apply subseteq_take in Hx. rewrite sortTweets_perm in Hx.
  apply elem_of_app in Hx as [Hx|Hx]; [by left|right].
  by apply list_elem_of_singleton in Hx.
Qed.

Lemma plain_new_tweet u c t id :
  plain (new_tweet u c t id Js.Null Js.Null Js.Null).
Proof. done. Qed.

Lemma plain_no_media t :
  plain t ->
  Js.get t "mediaId" = Js.Undefined /\
  Js.get t "mediaThumbnail" = Js.Undefined /\
  Js.get t "mediaType" = Js.Undefined.
Proof.
  unfold plain, Js.keys. intros Hk.
  destruct t as [|[k1 v1] [|[k2 v2] [|[k3 v3] [|[k4 v4] [|? ?]]]]];
    try discriminate.
  cbn in Hk. injection Hk as -> -> -> ->. by cbn.
Qed.

Lemma handleTweetMessage_entries st now peerId data p send_ok x :
  x ∈ tweets (handleTweetMessage st now peerId data p send_ok) ->
  x ∈ tweets st \/ plain x.
Proof.
  unfold handleTweetMessage.
  destruct (negb _); [by left|].
  match goal with
  | |- context [addTweet ?s ?n ?q ?u ?c ?t ?r ?i ?a ?b ?d] =>
      pose proof (addTweet_entries s n q u c t r i a b d x) as Hadd;
      destruct (addTweet s n q u c t r i a b d) as [[?|?] st2]
  end; cbn [snd] in *.
  - intros Hx.
    assert (Hx' : x ∈ tweets st2) by (by destruct send_ok).
    destruct (Hadd Hx') as [?| ->]; [by left|right; apply plain_new_tweet].
  - intros Hx. destruct (Hadd Hx) as [?| ->];
      [by left|right; apply plain_new_tweet].
Qed.

Lemma all_tweets_one_entries now peerId p acc tweet x :
  x ∈ tweets (all_tweets_one now peerId p acc tweet).1 ->
  x ∈ tweets acc.1 \/ plain x.
Proof.
  unfold all_tweets_one.
  destruct (negb _); [by left|].
  match goal with
  | |- context [addTweet ?s ?n ?q ?u ?c ?t ?r ?i ?a ?b ?d] =>
      pose proof (addTweet_entries s n q u c t r i a b d x) as Hadd;
      destruct (addTweet s n q u c t r i a b d) as [[?|?] st2]
  end; cbn [fst snd] in *.
  all: intros Hx; destruct (Hadd Hx) as [?| ->];
    [by left|right; apply plain_new_tweet].
Qed.

Lemma handleAllTweetsMessage_entries st now peerId batch p send_ok x :
  x ∈ tweets (handleAllTweetsMessage st now peerId batch p send_ok) ->
  x ∈ tweets st \/ plain x.
Proof.
  unfold handleAllTweetsMessage.
  destruct batch as [l|]; [|by left].
  assert (Hfold : forall acc,
            x ∈ tweets (fold_left (all_tweets_one now peerId p) l acc).1 ->
            x ∈ tweets acc.1 \/ plain x).
  { induction l as [|t l IH]; intros acc; [by left|].
    cbn [fold_left]. intros Hx.
    destruct (IH _ Hx) as [Hx'|?]; [|by right].
    by apply all_tweets_one_entries in Hx'. }
  specialize (Hfold (st, [])).
  destruct (fold_left _ l (st, [])) as [st' ids]. cbn [fst snd] in *.
  destruct ids; [done|]. by destruct send_ok.
Qed.

(** X10. Tweets received from peers are stored without media: whatever
    a [tweet] message or an [all_tweets] batch holds, every tweet that the
    handler adds to the log has the properties [username], [content],
    [timestamp] and [id] and no others, so its [mediaId],
    [mediaThumbnail] and [mediaType] read as [undefined]. *)
Theorem received_tweets_are_stored_without_media
  (st : state) (now : Z) (peerId p : string) (send_ok : bool)
  (t : Js.object) :
  (forall data,
     t ∈ tweets (handleTweetMessage st now peerId data p send_ok) ->
     t ∈ tweets st \/ plain t) /\
  (forall batch,
     t ∈ tweets (handleAllTweetsMessage st now peerId batch p send_ok) ->
     t ∈ tweets st \/ plain t) /\
  (plain t ->
   Js.get t "mediaId" = Js.Undefined /\
   Js.get t "mediaThumbnail" = Js.Undefined /\
   Js.get t "mediaType" = Js.Undefined).
Proof.
  split; [intros data; apply handleTweetMessage_entries|].
  split; [intros batch; apply handleAllTweetsMessage_entries|].
  apply plain_no_media.
Qed.

(** Bob's tweet arrives in a batch with an image attached: it is stored
    without the image. *)
Lemma received_tweets_are_stored_without_media_witness :
  let entry :=
    Scenarios.hello_entry
    ++ [("mediaId", Js.Str "media-1"); ("mediaThumbnail", Js.Str "thumb");
        ("mediaType", Js.Str "image/png")] in
  let st' := handleAllTweetsMessage initial 2000 "me" (Some [entry]) "bob" true in
  tweets st' = [Scenarios.hello_entry] /\
  (Scenarios.hello_entry ∈ tweets initial \/ plain Scenarios.hello_entry).
Proof.
  intros entry st'. split; [vm_compute; reflexivity|].
  destruct (received_tweets_are_stored_without_media
              initial 2000 "me" "bob" true Scenarios.hello_entry)
    as (_ & Hbatch & _).
  apply (Hbatch (Some [entry])). vm_compute. constructor.
Defined.

End ReceivedTweetFacts.

Module PurgeFacts.
Import TweetManager TweetManagerStorage TweetManagerRuns TweetManagerFacts.

Lemma tweets_deleteAllTweets st : tweets (deleteAllTweets st).2 = [].
Proof.
  unfold deleteAllTweets. cbn [snd tweets record_save].
  by rewrite tweets_saveTweets.
Qed.

Lemma outbox_deleteAllTweets st : outbox (deleteAllTweets st).2 = outbox st.
Proof.
  unfold deleteAllTweets. cbn [snd outbox record_save].
  by rewrite outbox_saveTweets.
Qed.

Lemma catch_up_empty_log st p send_ok :
  tweets st = [] -> outbox (catch_up st p send_ok) = outbox st.
Proof.
  intros Hnil. rewrite outbox_catch_up.
  unfold tweetsToSend. rewrite Hnil. cbn. by rewrite app_nil_r.
Qed.

(** X11. [deleteAllTweets] returns the number of stored tweets and
    leaves an empty log, no recipient sets and no unsent queues; it sends
    nothing and calls both persistence routines.  Afterwards a session
    that opens is sent nothing, a second purge returns [0], and an
    acceptable tweet that a peer sends is stored again, also one that was
    just deleted. *)
Theorem deleteAllTweets_forgets_everything (st : state) :
  let res := deleteAllTweets st in
  res.1 = length (tweets st) /\
  tweets res.2 = [] /\
  tweetRecipients res.2 = ∅ /\
  unsentTweets res.2 = ∅ /\
  outbox res.2 = outbox st /\
  limits res.2 = limits st /\
  saves res.2 = saves st ++ [SaveTweets; SaveDistribution] /\
  (deleteAllTweets res.2).1 = 0%nat /\
  (forall p send_ok, outbox (catch_up res.2 p send_ok) = outbox st) /\
  (forall now peerId data p send_ok,
     acceptable data now = true ->
     tweets (handleTweetMessage res.2 now peerId data p send_ok)
     = [new_tweet (Js.get data "username") (Js.get data "content")
          (Js.get data "timestamp")
          (Js.or (Js.get data "id")
             (generateUniqueId peerId (Js.get data "username")
                (Js.get data "content") (Js.get data "timestamp")))
          Js.Null Js.Null Js.Null]).
Proof.
  intros res. subst res.
  split; [done|]. split; [apply tweets_deleteAllTweets|].
  split.
  { unfold deleteAllTweets. cbn [snd tweetRecipients record_save].
    by rewrite recipients_saveTweets. }
  split.
  { unfold deleteAllTweets. cbn [snd unsentTweets record_save].
    by rewrite unsent_saveTweets. }
  split; [apply outbox_deleteAllTweets|].
  split.
  { unfold deleteAllTweets. cbn [snd limits record_save].
    by rewrite limits_saveTweets. }
  split.
  { unfold deleteAllTweets. cbn [snd saves record_save].
    rewrite saves_saveTweets. cbn [saves set_unsent set_recipients set_tweets].
    by rewrite <- app_assoc. }
  split.
  { unfold deleteAllTweets at 1. cbn [fst]. by rewrite tweets_deleteAllTweets. }
  split.
  { intros p send_ok.
    rewrite catch_up_empty_log by apply tweets_deleteAllTweets.
    apply outbox_deleteAllTweets. }
  intros now peerId data p send_ok Hok.
  destruct (handleTweetMessage_cases (deleteAllTweets st).2 now peerId data
              p send_ok) as [_ Hacc].
  destruct (Hacc Hok) as (_ & _ & _ & Hnew).
  rewrite Hnew.
  - rewrite tweets_deleteAllTweets. cbn [app sortTweets foldr insert_tweet].
    apply firstn_all2. cbn. unfold MAX_TWEETS_STORAGE. lia.
  - rewrite tweets_deleteAllTweets. apply not_elem_of_nil.
Qed.

(** Bob's tweet is purged and then arrives again from carol. *)
Lemma deleteAllTweets_forgets_everything_witness :
  let st := run initial [GotTweet 2000 "me" Scenarios.hello "bob" true] in
  (deleteAllTweets st).1 = 1%nat /\
  tweets (handleTweetMessage (deleteAllTweets st).2 3000 "me" Scenarios.hello
            "carol" true)
  = [Scenarios.hello_entry].
Proof.
  intros st. split; [vm_compute; reflexivity|].
  destruct (deleteAllTweets_forgets_everything st)
    as (_ & _ & _ & _ & _ & _ & _ & _ & _ & Hagain).
  rewrite (Hagain 3000 "me" Scenarios.hello "carol" true);
    vm_compute; reflexivity.
Defined.

Lemma collect_nothing_new (log : list Js.object) (nc : Js.value -> bool) :
  forall ids,
  (forall t, t ∈ log -> nc (tweet_id t) = true -> tweet_id t ∈ ids) ->
  fold_left
    (fun acc tweet =>
       if nc (tweet_id tweet) && negb (bool_decide (tweet_id tweet ∈ acc))
       then acc ++ [tweet_id tweet] else acc) log ids
  = ids.
Proof.
  induction log as [|t log IH]; intros ids Hall; [done|].
  cbn [fold_left].
  assert (Hskip : nc (tweet_id t) && negb (bool_decide (tweet_id t ∈ ids))
                  = false).
  { destruct (nc (tweet_id t)) eqn:Hnc; [|done]. cbn [andb].
    rewrite bool_decide_eq_true_2; [done|]. apply Hall; [constructor|done]. }
  rewrite Hskip. apply IH. intros u Hu. apply Hall. by constructor.
Qed.

(** X12. The connection callback is idempotent: when the same peer
    connects again and nothing else has happened, its unsent queue is not
    touched, so no id is queued twice; and the callback changes nothing
    but that queue. *)
Theorem onPeerConnected_idempotent (st : state) (p : string) :
  onPeerConnected (onPeerConnected st p) p = onPeerConnected st p /\
  set_unsent (onPeerConnected st p) (unsentTweets st) = st /\
  (forall p', p' ≠ p ->
     unsentTweets (onPeerConnected st p) !! p' = unsentTweets st !! p').
Proof.
  split; [|split].
  - set (st1 := onPeerConnected st p).
    change (onPeerConnected st1 p)
      with (set_unsent st1
              (<[p := collect_unconfirmed st1 p
                        (default [] (unsentTweets st1 !! p))]>
                 (unsentTweets st1))).
    subst st1. rewrite queue_onPeerConnected. cbn [default].
    assert (Hsame : collect_unconfirmed (onPeerConnected st p) p
                      (unsentTweetIds st p) = unsentTweetIds st p).
    { unfold collect_unconfirmed at 1.
      apply (collect_nothing_new (tweets (onPeerConnected st p))
               (not_confirmed (onPeerConnected st p) p)).
      intros t Hin Hnc. apply unsentTweetIds_spec. right. by exists t. }
    unfold id. rewrite Hsame. unfold onPeerConnected, set_unsent. cbn.
    f_equal. by rewrite insert_insert_eq.
  - by destruct st.
  - intros p' Hp'. unfold onPeerConnected. cbn [unsentTweets set_unsent].
    by rewrite lookup_insert_ne.
Qed.

(** Bob connects twice to a node that holds alice's unsent tweet. *)
Lemma onPeerConnected_idempotent_witness :
  let st := run initial Scenarios.hello_unsent in
  onPeerConnected (onPeerConnected st "bob") "bob" = onPeerConnected st "bob" /\
  unsentTweets (onPeerConnected st "bob") !! "carol"
  = unsentTweets st !! "carol".
Proof.
  intros st.
  destruct (onPeerConnected_idempotent st "bob") as (Hsame & _ & Hother).
  split; [exact Hsame|]. by apply Hother.
Defined.

End PurgeFacts.

Module CreateRateFacts.
Import TweetManager TweetManagerStorage TweetManagerRuns TweetManagerFacts.
Import RateLimiterRuns RateLimiterMore.

Lemma limits_addTweet st now peerId u c t recips id m1 m2 m3 :
  limits (addTweet st now peerId u c t recips id m1 m2 m3).2 = limits st.
Proof.
  destruct (addTweet_log st now peerId u c t recips id m1 m2 m3)
    as [[_ ->]|[(_ & _ & ->)|(_ & _ & _ & _ & _ & -> & _)]]; done.
Qed.

Lemma limits_broadcast tweetData tweetId conns : forall st,
  limits (fold_left (broadcast_to tweetData tweetId) conns st) = limits st.
Proof.
  induction conns as [|c conns IH]; intros st; [done|].
  cbn [fold_left]. rewrite IH. unfold broadcast_to.
  destruct c.2; [|done]. cbn.
  destruct (_ !! _) as [l|]; [|done].
  destruct (bool_decide _); [done|]. cbn.
  by destruct (_ !! _).
Qed.

Lemma limits_handleTweetMessage st now peerId data p send_ok :
  limits (handleTweetMessage st now peerId data p send_ok) = limits st.
Proof.
  unfold handleTweetMessage.
  destruct (negb _); [done|].
  match goal with
  | |- context [addTweet ?s ?n ?q ?u ?c ?t ?r ?i ?x ?y ?z] =>
      pose proof (limits_addTweet s n q u c t r i x y z) as Hadd;
      destruct (addTweet s n q u c t r i x y z) as [[?|?] st2]
  end; cbn [snd] in *; [|done].
  by destruct send_ok.
Qed.

Lemma limits_all_tweets_one now peerId p acc tweet :
  limits (all_tweets_one now peerId p acc tweet).1 = limits acc.1.
Proof.
  unfold all_tweets_one.
  destruct (negb _); [done|].
  match goal with
  | |- context [addTweet ?s ?n ?q ?u ?c ?t ?r ?i ?x ?y ?z] =>
      pose proof (limits_addTweet s n q u c t r i x y z) as Hadd;
      destruct (addTweet s n q u c t r i x y z) as [[?|?] st2]
  end; cbn [fst snd] in *; done.
Qed.

Lemma limits_handleAllTweetsMessage st now peerId batch p send_ok :
  limits (handleAllTweetsMessage st now peerId batch p send_ok) = limits st.
Proof.
  unfold handleAllTweetsMessage.
  destruct batch as [l|]; [|done].
  assert (Hfold : forall acc,
            limits (fold_left (all_tweets_one now peerId p) l acc).1
            = limits acc.1).
  { induction l as [|t l IH]; intros acc; [done|].
    cbn [fold_left]. by rewrite IH, limits_all_tweets_one. }
  specialize (Hfold (st, [])).
  destruct (fold_left _ l (st, [])) as [st' ids]. cbn [fst snd] in *.
  destruct ids; [done|]. by destruct send_ok.
Qed.

Lemma limits_handleTweetAckMessage st id p :
  limits (handleTweetAckMessage st id p) = limits st.
Proof.
  unfold handleTweetAckMessage.
  destruct (_ !! _) as [l|]; [|done].
  destruct (_ && _); [|done]. cbn.
  by destruct (_ !! _).
Qed.

Lemma limits_bulk_ack_one p st id : limits (bulk_ack_one p st id) = limits st.
Proof.
  unfold bulk_ack_one.
  destruct (tweetRecipients st !! _) as [l|];
    [destruct (bool_decide _)|]; cbn; by destruct (_ !! _).
Qed.

Lemma limits_handleBulkTweetAckMessage st ids p :
  limits (handleBulkTweetAckMessage st ids p) = limits st.
Proof.
  unfold handleBulkTweetAckMessage. destruct ids as [l|]; [|done].
  cbn [limits record_save].
  revert st. induction l as [|id l IH]; intros st; [done|].
  cbn [fold_left]. by rewrite IH, limits_bulk_ack_one.
Qed.

Lemma limits_mark_sent p st t : limits (mark_sent p st t) = limits st.
Proof. unfold mark_sent. by destruct (_ !! _). Qed.

Lemma limits_send_batch p st batch send_ok :
  limits (send_batch p st batch send_ok) = limits st.
Proof.
  unfold send_batch. destruct send_ok; cbn [limits record_save].
  - change (limits st) with (limits (send st p (AllTweets batch))).
    generalize (send st p (AllTweets batch)).
    induction batch as [|t l IH]; intros s; [done|].
    cbn [fold_left]. by rewrite IH, limits_mark_sent.
  - revert st. induction batch as [|t l IH]; intros st; [done|].
    cbn [fold_left]. by rewrite IH.
Qed.

Lemma limits_send_batches p send_ok bs : forall index st,
  limits (send_batches p send_ok index bs st) = limits st.
Proof.
  induction bs as [|b bs IH]; intros index st; [done|].
  cbn [send_batches]. by rewrite IH, limits_send_batch.
Qed.

Lemma limits_catch_up st p send_ok : limits (catch_up st p send_ok) = limits st.
Proof.
  unfold catch_up, sendSelectiveTweets.
  destruct (Nat.eqb _ _); [done|]. by rewrite limits_send_batches.
Qed.

(** What [createTweet] does to the limiter: either it throws before it
    asks, or it asks once, for the key of the local node, and returns
    only when the answer was yes. *)
Lemma createTweet_limiter st u peerId conns now c file :
  let res := createTweet st u peerId conns now c file in
  let ask := RateLimiter.isAllowed (limits st) "message" peerId
               MESSAGE_MAX_COUNT MESSAGE_TIME_WINDOW_MS now in
  (limits res.2 = limits st /\ exists m, res.1 = Threw m) \/
  (limits res.2 = ask.2 /\
   (ask.1 = false -> exists m, res.1 = Threw m)).
Proof.
  intros res ask. subst res. unfold createTweet. fold ask.
  destruct (_ && _); [left; split; [done|by eexists]|].
  destruct (_ && _); [left; split; [done|by eexists]|].
  destruct file as [| |a b d]; [|left; split; [done|by eexists]|].
  all: right.
  all: destruct ask.1 eqn:Hask; cbn [negb];
    [|split; [done|intros _; by eexists]].
  all: match goal with
       | |- context [addTweet ?s ?n ?p ?u ?c ?t ?r ?i ?x ?y ?z] =>
           pose proof (limits_addTweet s n p u c t r i x y z) as Hadd;
           destruct (addTweet s n p u c t r i x y z) as [[?|?] st2]
       end; cbn [fst snd] in *.
  all: split; [|done].
  all: try (unfold broadcastTweet; cbn [limits record_save];
            rewrite limits_broadcast).
  all: by rewrite Hadd.
Qed.

Lemma limits_step_other st e :
  match e with Create _ _ _ _ _ _ => True | _ => limits (step st e) = limits st end.
Proof.
  destruct e; cbn [step]; [done|..].
  - apply limits_handleTweetMessage.
  - apply limits_handleAllTweetsMessage.
  - apply limits_handleTweetAckMessage.
  - apply limits_handleBulkTweetAckMessage.
  - apply deleteTweet_frame.
  - apply limits_catch_up.
Qed.


Lemma created_within_granted me : forall es st clock hist made,
  tracks MESSAGE_TIME_WINDOW_MS clock hist
         (RateLimiter.record_of (limits st) "message" me) ->
  (forall t, Z.of_nat (length (in_span MESSAGE_TIME_WINDOW_MS t hist))
             <= MESSAGE_MAX_COUNT) ->
  made `sublist_of` hist ->
  creates_by me clock es ->
  exists hist',
    (forall t, Z.of_nat (length (in_span MESSAGE_TIME_WINDOW_MS t hist'))
               <= MESSAGE_MAX_COUNT) /\
    (made ++ created st es) `sublist_of` hist'.
Proof.
  induction es as [|e es IH]; intros st clock hist made Htr Hb Hsub Hby.
  - exists hist. cbn [created]. by rewrite app_nil_r.
  - pose proof (limits_step_other st e) as Hother.
    destruct e as [u pid conns now c f| | | | | |]; cbn [created creates_by] in *.
    2-7: apply (IH _ clock hist made); [by rewrite Hother|done|done|done].
    destruct Hby as (-> & Hle & Hby). cbn [step].
    pose proof (tracks_step (limits st) "message" me MESSAGE_MAX_COUNT
                  MESSAGE_TIME_WINDOW_MS clock hist now Htr Hle) as [Htr' Hlt].
    destruct (createTweet_limiter st u me conns now c f)
      as [[Hlim [m Hm]]|[Hlim Hdenied]].
    + rewrite Hm. cbn [app].
      apply (IH _ now hist made); [|done|done|done].
      rewrite Hlim. by eapply tracks_later.
    + rewrite <- Hlim in Htr'.
      destruct (RateLimiter.isAllowed (limits st) "message" me
                  MESSAGE_MAX_COUNT MESSAGE_TIME_WINDOW_MS now).1 eqn:Hask.
      * assert (Hb' : forall t,
                  Z.of_nat (length (in_span MESSAGE_TIME_WINDOW_MS t
                                      (hist ++ [now]))) <= MESSAGE_MAX_COUNT).
        { apply span_bound_grant; [|by apply Hlt|done].
          destruct Htr as [Hold _]. eapply Forall_impl; [exact Hold|].
          cbn. intros; lia. }
        rewrite app_assoc.
        eapply (IH _ now (hist ++ [now])); [exact Htr'|exact Hb'| |exact Hby].
        destruct (createTweet st u me conns now c f).1.
        -- by apply sublist_app.
        -- rewrite app_nil_r. by apply sublist_inserts_r.
      * destruct (Hdenied eq_refl) as [m Hm]. rewrite Hm. cbn [app].
        rewrite app_nil_r in Htr'.
        by apply (IH _ now hist made).
Qed.

(** X13. Tweets are created at a bounded rate: when the limiter holds
    no record for the local node and the [createTweet] calls are made at
    clock readings that do not decrease, then, whatever other events reach
    the manager in between, no window of [MESSAGE_TIME_WINDOW_MS]
    milliseconds holds more than [MESSAGE_MAX_COUNT] calls that
    returned. *)
Theorem at_most_ten_tweets_created_per_minute
  (st : state) (me : string) (clock : Z) (es : list event) :
  limits st !! RateLimiter.key "message" me = None ->
  creates_by me clock es ->
  forall t,
    Z.of_nat (length (in_span MESSAGE_TIME_WINDOW_MS t (created st es)))
    <= MESSAGE_MAX_COUNT.
Proof.
  intros Hnone Hby t.
  destruct (created_within_granted me es st clock [] []) as (hist' & Hb & Hsub).
  - unfold RateLimiter.record_of. rewrite Hnone. apply tracks_empty.
  - intros t'. cbn. unfold MESSAGE_MAX_COUNT. lia.
  - done.
  - done.
  - cbn [app] in Hsub. specialize (Hb t).
    pose proof (span_sublist MESSAGE_TIME_WINDOW_MS t _ _ Hsub). lia.
Qed.

(** Twelve tweets written one second apart: ten are created. *)
Lemma at_most_ten_tweets_created_per_minute_witness :
  let write now :=
    Create (Js.Str "me") "me" [] now (Js.Str "hi") NoFile in
  let es := map write [1000; 2000; 3000; 4000; 5000; 6000; 7000; 8000; 9000;
                       10000; 11000; 12000] in
  created initial es
  = [1000; 2000; 3000; 4000; 5000; 6000; 7000; 8000; 9000; 10000] /\
  Z.of_nat (length (in_span MESSAGE_TIME_WINDOW_MS 12000 (created initial es)))
  <= MESSAGE_MAX_COUNT.
Proof.
  intros write es. split; [vm_compute; reflexivity|].
  apply (at_most_ten_tweets_created_per_minute initial "me" 0 es);
    [reflexivity|cbn; repeat split; lia].
Defined.

End CreateRateFacts.

Module RetryFacts.
Import TweetManager TweetManagerRuns TweetManagerFacts CatchUpFacts.

(** A new tweet is queued for every session on which its send threw. *)
Lemma createTweet_queues_failed
  st username peerId conns now content file tweetId st' p :
  createTweet st username peerId conns now content file
  = (Returned tweetId, st') ->
  tweetId ∉ tweet_id <$> tweets st ->
  (p, false) ∈ conns ->
  tweetId ∈ queue st' p.
Proof.
  intros Hcreate Hnotin Hp.
  destruct (createTweet_returned _ _ _ _ _ _ _ _ _ Hcreate)
    as (Hid & Hret & Hst').
  set (media := media_of file) in *.
  set (st1 := set_limits st _) in *.
  pose proof (addTweet_log st1 now peerId username content (Js.Num now)
                (Some (map fst conns)) tweetId media.1.1 media.1.2 media.2)
    as Hlog.
  pose proof (addTweet_bookkeeping st1 now peerId username content (Js.Num now)
                (Some (map fst conns)) tweetId media.1.1 media.1.2 media.2)
    as Hbook.
  assert (Hor : Js.or tweetId
                  (generateUniqueId peerId username content (Js.Num now))
                = tweetId).
  { unfold Js.or. by destruct (Js.truthy tweetId); [|symmetry]. }
  cbn zeta in Hlog, Hbook. rewrite Hor in Hlog, Hbook.
  change (tweets st1) with (tweets st) in *.
  set (added := addTweet st1 _ _ _ _ _ _ _ _ _ _) in *.
  destruct Hlog as [[Hhas _]|[(_ & _ & Hthrew)|(Hnew & Hvalid & _)]].
  { by apply bool_decide_eq_true_1 in Hhas. }
  { rewrite Hthrew in Hret. discriminate. }
  destruct (Hbook Hnew Hvalid) as [Hrecs _].
  assert (Hsettled : settled added.2 tweetId conns).
  { unfold settled. rewrite Hrecs.
    destruct (bool_decide _); [by left|right].
    rewrite decide_True by done.
    exists (map fst conns). split; [done|].
    intros c Hc. apply list_elem_of_fmap. by exists c. }
  set (tweetData := (("type", Js.Str "tweet")
                     :: new_tweet username content (Js.Num now) tweetId
                          media.1.1 media.1.2 media.2)).
  destruct (broadcast_settled tweetData tweetId conns added.2 Hsettled)
    as (_ & _ & Hfail & _).
  destruct (Hfail p Hp) as (q & Hq & Hin).
  assert (Hus : unsentTweets st'
                = unsentTweets (fold_left (broadcast_to tweetData tweetId)
                                  conns added.2)).
  { by rewrite Hst'. }
  unfold queue. by rewrite Hus, Hq.
Qed.

Lemma delivered_all_ok send_ok bs : forall index,
  (forall i, send_ok i = true) -> delivered send_ok index bs = bs.
Proof.
  induction bs as [|b bs IH]; intros index Hok; [done|].
  cbn [delivered]. by rewrite Hok, IH.
Qed.

Lemma elem_of_concat_batch (t : Js.object) (bs : list (list Js.object)) :
  t ∈ concat bs -> exists b, b ∈ bs /\ t ∈ b.
Proof.
  induction bs as [|b bs IH]; cbn [concat].
  - intros H. by apply elem_of_nil in H.
  - intros [Hb|Hrest]%elem_of_app.
    + exists b. split; [constructor|done].
    + destruct (IH Hrest) as (b' & ? & ?). exists b'. split; [by constructor|done].
Qed.

(** X18. A failed send is made up for.  Let no peer id and no id of a
    stored tweet be the name of an inherited property.  When
    [createTweet] stores a new tweet while the send on the session to [p]
    throws, the id of the tweet is in the unsent queue of [p]; and when
    the catch-up for [p] is the next handler to run, in the state that
    [createTweet] left, and its sends return, it delivers the tweet (if
    the log still holds it) to [p] in an [all_tweets] batch. *)
Theorem failed_send_is_made_up_by_catch_up
  (st : state) (username : Js.value) (peerId : string)
  (conns : list (string * bool)) (now : Z) (content : Js.value)
  (file : mediaFile) (tweetId : Js.value) (st' : state)
  (p : string) (send_ok : nat -> bool) (t : Js.object) :
  own_peers conns = true ->
  Js.inherited p = false ->
  own_ids (tweets st') = true ->
  createTweet st username peerId conns now content file
  = (Returned tweetId, st') ->
  (tweetId ∉ tweet_id <$> tweets st) ->
  (p, false) ∈ conns ->
  t ∈ tweets st' -> tweet_id t = tweetId ->
  (forall i, send_ok i = true) ->
  tweetId ∈ queue st' p /\
  exists b, (p, AllTweets b) ∈ outbox (catch_up st' p send_ok) /\ t ∈ b.
Proof.
  intros _ _ _ Hcreate Hnotin Hp Ht Hid Hok.
  pose proof (createTweet_queues_failed _ _ _ _ _ _ _ _ _ _
                Hcreate Hnotin Hp) as Hq.
  split; [done|].
  assert (Hsend : t ∈ concat (batches (tweetsToSend st' p))).
  { destruct (batches_spec (tweetsToSend st' p)) as [-> _].
    apply tweetsToSend_spec. split; [done|]. left. by rewrite Hid. }
  destruct (elem_of_concat_batch _ _ Hsend) as (b & Hb & Htb).
  exists b. split; [|done].
  rewrite outbox_catch_up, delivered_all_ok by done.
  apply elem_of_app. right.
  apply list_elem_of_In, in_map_iff. exists b.
  split; [done|]. by apply list_elem_of_In.
Qed.

(** Alice's tweet could not be sent to bob; bob reconnects. *)
Lemma failed_send_is_made_up_by_catch_up_witness :
  let res := createTweet initial (Js.Str "alice") "me" [("bob", false)] 1000
               (Js.Str "hello") NoFile in
  let t := new_tweet (Js.Str "alice") (Js.Str "hello") (Js.Num 1000)
             Scenarios.hello_id Js.Null Js.Null Js.Null in
  outbox res.2 = [] /\
  exists b, ("bob", AllTweets b) ∈ outbox (catch_up res.2 "bob" (fun _ => true))
            /\ t ∈ b.
Proof.
  intros res t. split; [vm_compute; reflexivity|].
  apply (failed_send_is_made_up_by_catch_up initial (Js.Str "alice") "me"
           [("bob", false)] 1000 (Js.Str "hello") NoFile
           Scenarios.hello_id res.2 "bob" (fun _ => true) t).
  - reflexivity.
  - reflexivity.
  - vm_compute. reflexivity.
  - vm_compute. reflexivity.
  - vm_compute. apply not_elem_of_nil.
  - constructor.
  - vm_compute. constructor.
  - vm_compute. reflexivity.
  - done.
Defined.

End RetryFacts.
